(** * Counterpoint linter: a shallow embedding of [counterpoint-linter.ts]

    The linter reads two melodic lines and a key, all given as text, and
    returns the list of voice-leading issues it finds.  This file embeds
    the parser and the rule engine and proves the properties the
    specification states about them.

    Numbers.  The numbers of JavaScript are IEEE 754 doubles.  Octaves,
    pitch values and the intervals between them can be as large as the
    digits of a token make them, so they are modelled as doubles, with
    their rounding, their infinities and NaN ([Number.t]).  Pitch classes
    and what the program computes from them stay below 24 in absolute
    value, where doubles are exact; they are integers ([Z]), and array
    indices and lengths are [nat].

    Strings.  A JavaScript string is a sequence of UTF-16 code units; a
    code unit is modelled as an [N]. *)

From Stdlib Require Import String Ascii DecimalString.
From Stdlib Require Import ZArith NArith Lia Bool Arith List.
From Stdlib Require Import SpecFloat.
Import ListNotations.

(* ################################################################## *)
(** * Part I: the program *)

(* ================================================================== *)
(** ** Strings *)

Definition jsstring : Type := list N.

(** The code units of an ASCII literal. *)
Definition u16 (s : string) : jsstring :=
  map N_of_ascii (list_ascii_of_string s).

(** The quotation mark and the rightwards arrow that the messages use. *)
Definition dquote : jsstring := [0x22%N].
Definition arrow : jsstring := [0x2192%N].

Fixpoint jsstring_eqb (s t : jsstring) : bool :=
  match s, t with
  | [], [] => true
  | c :: s', d :: t' => N.eqb c d && jsstring_eqb s' t'
  | _, _ => false
  end.

(** [WhiteSpace] and [LineTerminator] of ECMAScript: what [trim] strips
    and what [\s] matches. *)
Definition isWhiteSpace (c : N) : bool :=
  ((0x09 <=? c) && (c <=? 0x0D) || (c =? 0x20) || (c =? 0xA0)
   || (c =? 0x1680) || ((0x2000 <=? c) && (c <=? 0x200A))
   || (c =? 0x2028) || (c =? 0x2029) || (c =? 0x202F)
   || (c =? 0x205F) || (c =? 0x3000) || (c =? 0xFEFF))%N.

Fixpoint trimStart (s : jsstring) : jsstring :=
  match s with
  | c :: s' => if isWhiteSpace c then trimStart s' else s
  | [] => []
  end.

Definition trimEnd (s : jsstring) : jsstring := rev (trimStart (rev s)).

Definition trim (s : jsstring) : jsstring := trimEnd (trimStart s).

(** [s.split(/\s+/)]: the pieces between maximal runs of white space.  A
    run at either end leaves an empty piece there, and the empty string
    splits into one empty piece.  [cur] is the piece being read, in
    reverse; [inSep] tells that the previous code unit was white space. *)
Fixpoint splitFrom (s cur : jsstring) (inSep : bool) : list jsstring :=
  match s with
  | [] => [rev cur]
  | c :: s' =>
      if isWhiteSpace c
      then if inSep then splitFrom s' cur true
           else rev cur :: splitFrom s' [] true
      else splitFrom s' (c :: cur) false
  end.

Definition split_ws (s : jsstring) : list jsstring := splitFrom s [] false.

(** [Boolean] of a string: false exactly for the empty string. *)
Definition Boolean (s : jsstring) : bool :=
  match s with [] => false | _ :: _ => true end.

(** [toUpperCase] and [toLowerCase].  The program applies them to text
    the regular expressions have already matched, which holds ASCII
    letters only; other code units are left alone here. *)
Definition toUpperCase1 (c : N) : N :=
  if ((0x61 <=? c) && (c <=? 0x7A))%N then (c - 0x20)%N else c.

Definition toLowerCase1 (c : N) : N :=
  if ((0x41 <=? c) && (c <=? 0x5A))%N then (c + 0x20)%N else c.

Definition toUpperCase (s : jsstring) : jsstring := map toUpperCase1 s.
Definition toLowerCase (s : jsstring) : jsstring := map toLowerCase1 s.

(** [String(n)] for an index or a length: these are below [2 ^ 32] and
    print as their decimal digits. *)
Definition ofNat (n : nat) : jsstring :=
  u16 (NilZero.string_of_uint (Nat.to_uint n)).

(** The decimal digits of an integer, with a minus sign if negative. *)
Definition decimal (z : Z) : jsstring :=
  u16 (NilZero.string_of_int (Z.to_int z)).

(** The integer that a text matched by [-?\d+] denotes. *)
Definition digitValue (c : N) : Z := Z.of_N c - 0x30.

Definition parseDigits (ds : jsstring) : Z :=
  fold_left (fun acc d => 10 * acc + digitValue d)%Z ds 0%Z.

Definition decimalValue (s : jsstring) : Z :=
  match s with
  | c :: ds => if (c =? 0x2D)%N then (- parseDigits ds)%Z else parseDigits s
  | [] => 0%Z
  end.

(* ================================================================== *)
(** ** Numbers *)

(** The Number values the program can reach: the doubles that are
    integers, the two infinities and NaN.  [Fin z] is the double of value
    [z].  The sign of a zero is left out: the program compares with [===]
    and [>] and prints absolute values only, which do not see it. *)
Module Number.

Inductive t : Type := Fin (z : Z) | Infinity (negative : bool) | NaN.

(** Rounding of a non-negative integer to 53 significant bits, to the
    nearest, ties to the even mantissa. *)
Definition roundNat (a : Z) : Z :=
  if (a <? 2 ^ 53)%Z then a
  else
    let e := (Z.log2 a - 52)%Z in
    let q := Z.shiftr a e in
    let r := (a - Z.shiftl q e)%Z in
    let half := Z.shiftl 1 (e - 1) in
    let q' := if (half <? r)%Z || ((r =? half)%Z && Z.odd q)
              then (q + 1)%Z else q in
    Z.shiftl q' e.

(** The Number value for an integer: its rounding, or an infinity when
    that is beyond the largest double. *)
Definition ofZ (z : Z) : t :=
  let a := roundNat (Z.abs z) in
  if (2 ^ 1024 <=? a)%Z then Infinity (z <? 0)%Z else Fin (Z.sgn z * a).

Definition isFinite (x : t) : bool :=
  match x with Fin _ => true | _ => false end.

Definition neg (x : t) : t :=
  match x with
  | Fin a => Fin (- a)
  | Infinity s => Infinity (negb s)
  | NaN => NaN
  end.

(** [x + y] *)
Definition add (x y : t) : t :=
  match x, y with
  | NaN, _ | _, NaN => NaN
  | Infinity s, Infinity s' => if Bool.eqb s s' then Infinity s else NaN
  | Infinity s, Fin _ | Fin _, Infinity s => Infinity s
  | Fin a, Fin b => ofZ (a + b)
  end.

(** [x - y] *)
Definition sub (x y : t) : t := add x (neg y).

(** [x * y] *)
Definition mul (x y : t) : t :=
  match x, y with
  | NaN, _ | _, NaN => NaN
  | Infinity s, Infinity s' => Infinity (xorb s s')
  | Infinity s, Fin b | Fin b, Infinity s =>
      if (b =? 0)%Z then NaN else Infinity (xorb s (b <? 0)%Z)
  | Fin a, Fin b => ofZ (a * b)
  end.

(** [Math.abs(x)] *)
Definition abs (x : t) : t :=
  match x with
  | Fin a => Fin (Z.abs a)
  | Infinity _ => Infinity false
  | NaN => NaN
  end.

(** [x % y]: the remainder with the sign of [x], which is exact. *)
Definition rem (x y : t) : t :=
  match x, y with
  | NaN, _ | _, NaN => NaN
  | Infinity _, _ => NaN
  | Fin a, Infinity _ => Fin a
  | Fin a, Fin b => if (b =? 0)%Z then NaN else Fin (Z.rem a b)
  end.

(** [x === y] *)
Definition eqb (x y : t) : bool :=
  match x, y with
  | Fin a, Fin b => (a =? b)%Z
  | Infinity s, Infinity s' => Bool.eqb s s'
  | _, _ => false
  end.

(** [x > y] *)
Definition gtb (x y : t) : bool :=
  match x, y with
  | Fin a, Fin b => (a >? b)%Z
  | Infinity false, Fin _ => true
  | Infinity false, Infinity true => true
  | Fin _, Infinity true => true
  | _, _ => false
  end.

(** [String(x)] for a positive double [v]: the decimal with the fewest
    significant digits among those that round to [v] and, among these,
    the nearest to [v] (the even one at a tie).  [candidate v d k] is that
    decimal with [k] significant digits, if there is one, for [v] of [d]
    digits; seventeen digits always do. *)
Definition roundsTo (c v : Z) : bool :=
  match ofZ c with Fin w => (w =? v)%Z | _ => false end.

Definition candidate (v d k : Z) : option Z :=
  let p := (10 ^ (d - k))%Z in
  let lo := (v / p * p)%Z in
  let hi := (lo + p)%Z in
  match roundsTo lo v, roundsTo hi v with
  | true, true =>
      if (v - lo <? hi - v)%Z then Some lo
      else if (hi - v <? v - lo)%Z then Some hi
      else if Z.even (v / p) then Some lo else Some hi
  | true, false => Some lo
  | false, true => Some hi
  | false, false => None
  end.

Fixpoint shortestFrom (v d k : Z) (fuel : nat) : Z :=
  match fuel with
  | O => v
  | S fuel' =>
      if (d <? k)%Z then v
      else match candidate v d k with
           | Some c => c
           | None => shortestFrom v d (k + 1) fuel'
           end
  end.

Definition digitCount (z : Z) : Z := Z.of_nat (length (decimal z)).

Definition shortest (v : Z) : Z := shortestFrom v (digitCount v) 1 17.

Fixpoint dropZeros (ds : jsstring) : jsstring :=
  match ds with
  | c :: ds' => if (c =? 0x30)%N then dropZeros ds' else ds
  | [] => []
  end.

(** Up to 21 digits the decimal is written out; beyond, it is written
    with an exponent. *)
Definition toStringPos (v : Z) : jsstring :=
  let c := shortest v in
  let n := digitCount c in
  if (n <=? 21)%Z then decimal c
  else
    match rev (dropZeros (rev (decimal c))) with
    | [] => []
    | d1 :: rest =>
        d1 :: (match rest with [] => [] | _ => u16 "." ++ rest end)
        ++ u16 "e+" ++ decimal (n - 1)
    end.

Definition toString (x : t) : jsstring :=
  match x with
  | NaN => u16 "NaN"
  | Infinity s => if s then u16 "-Infinity" else u16 "Infinity"
  | Fin z =>
      if (z =? 0)%Z then u16 "0"
      else if (z <? 0)%Z then u16 "-" ++ toStringPos (- z)
      else toStringPos z
  end.

(** The double of an integer as the floating-point specification of the
    library rounds it, to compare [ofZ] with. *)
Definition viaSpec (z : Z) : t :=
  match binary_normalize 53 1024 z 0 false with
  | S754_zero _ => Fin 0
  | S754_infinity s => Infinity s
  | S754_nan => NaN
  | S754_finite s m e =>
      Fin (cond_Zopp s (if (0 <=? e)%Z then Z.pos m * 2 ^ e
                        else Z.pos m / 2 ^ (- e)))
  end.

End Number.

(** An integer stands for its double where a Number is expected. *)
Coercion Number.Fin : Z >-> Number.t.
Bind Scope Z_scope with Number.t.

(** [parseInt(s, 10)] on text matched by [-?\d+]: the Number value for
    the integer the text denotes, rounded once.  (The standard lets an
    implementation read the digits after the twentieth significant one as
    zeros; the octaves of the exact range have sixteen digits at most.) *)
Definition parseInt (s : jsstring) : Number.t := Number.ofZ (decimalValue s).

(* ================================================================== *)
(** ** Data model *)

Inductive IssueType : Type :=
  | Parallel5ths | Parallel8ves | LeapOverOctave
  | UnresolvedLeadingTone | LengthMismatch | ParseError.

(** [type Voice = 'A' | 'B']: the two string literals. *)
Module Voice.

Inductive t : Type := A | B.

(** The value the field holds at run time. *)
Definition str (v : t) : jsstring :=
  match v with A => u16 "A" | B => u16 "B" end.

End Voice.

Record Note : Type := mkNote {
  raw : jsstring;
  midi : Number.t;
  pc : Z
}.

Record Issue : Type := mkIssue {
  type : IssueType;
  index : option nat;
  voice : option Voice.t;
  details : jsstring
}.

Record Key : Type := mkKey {
  tonicPC : Z;
  mode : jsstring
}.

Definition IssueType_eqb (a b : IssueType) : bool :=
  match a, b with
  | Parallel5ths, Parallel5ths | Parallel8ves, Parallel8ves
  | LeapOverOctave, LeapOverOctave
  | UnresolvedLeadingTone, UnresolvedLeadingTone
  | LengthMismatch, LengthMismatch | ParseError, ParseError => true
  | _, _ => false
  end.

(* ================================================================== *)
(** ** Parsing *)

(** [LETTER_TO_PC], an object used as a table from one-letter strings. *)
Definition LETTER_TO_PC : list (jsstring * Z) :=
  [ (u16 "C", 0); (u16 "D", 2); (u16 "E", 4); (u16 "F", 5);
    (u16 "G", 7); (u16 "A", 9); (u16 "B", 11) ]%Z.

Fixpoint lookup (k : jsstring) (tbl : list (jsstring * Z)) : option Z :=
  match tbl with
  | [] => None
  | (k', v) :: tbl' => if jsstring_eqb k k' then Some v else lookup k tbl'
  end.

(** [mod12] on the integers of the pitch classes, where nothing rounds. *)
Definition mod12 (n : Z) : Z := Z.rem (Z.rem n 12 + 12) 12.

(** [mod12] on a Number in general, as rule 1 applies it to intervals;
    on an integer it is the above, see [mod12N_Fin]. *)
Definition mod12N (n : Number.t) : Number.t :=
  Number.rem (Number.add (Number.rem n 12) 12) 12.

Definition isLetterAG (c : N) : bool :=
  ((0x41 <=? c) && (c <=? 0x47) || (0x61 <=? c) && (c <=? 0x67))%N.

Definition isDigit (c : N) : bool := ((0x30 <=? c) && (c <=? 0x39))%N.

(** The class [[#b]] as the note pattern reads it. *)
Definition isAccidental (c : N) : bool := ((c =? 0x23) || (c =? 0x62))%N.

(** The class [[#b]] under the [i] flag of the key pattern: a code unit
    matches when its upper-case form is that of a member, so [B] is in. *)
Definition isAccidental_i (c : N) : bool :=
  ((c =? 0x23) || (toUpperCase1 c =? toUpperCase1 0x62))%N.

(** The groups of a successful match. *)
Record Groups : Type := mkGroups { g1 : jsstring; g2 : jsstring; g3 : jsstring }.

(** An optional one-character class at the head of [s]: the text it
    matched and what is left.  The quantifier is greedy, and in both
    patterns what follows the class cannot start with one of its members,
    so the greedy choice is the only one that can succeed. *)
Definition optionalClass (cls : N -> bool) (s : jsstring) : jsstring * jsstring :=
  match s with
  | c :: s' => if cls c then ([c], s') else ([], s)
  | [] => ([], [])
  end.

(** [-?\d+$] *)
Definition isOctave (s : jsstring) : bool :=
  let ds := snd (optionalClass (N.eqb 0x2D) s) in
  Boolean ds && forallb isDigit ds.

(** [/^([A-Ga-g])([#b]?)(-?\d+)$/] *)
Definition matchNote (s : jsstring) : option Groups :=
  match s with
  | l :: s1 =>
      if isLetterAG l then
        let (acc, s2) := optionalClass isAccidental s1 in
        if isOctave s2 then Some (mkGroups [l] acc s2) else None
      else None
  | [] => None
  end.

(** [(major|minor)$] under the [i] flag. *)
Definition isModeWord (s : jsstring) : bool :=
  jsstring_eqb (toUpperCase s) (u16 "MAJOR")
  || jsstring_eqb (toUpperCase s) (u16 "MINOR").

(** [/^([A-Ga-g])([#b]?)\s*(major|minor)$/i] *)
Definition matchKey (s : jsstring) : option Groups :=
  match s with
  | l :: s1 =>
      if isLetterAG l then
        let (acc, s2) := optionalClass isAccidental_i s1 in
        let s3 := trimStart s2 in
        if isModeWord s3 then Some (mkGroups [l] acc s3) else None
      else None
  | [] => None
  end.

(** A letter outside the table would give [undefined] for [pc]; no
    letter the pattern matches is outside it (see [lookup_letter]), and
    that branch is given [None] here. *)
Definition parseNote (token : jsstring) : option Note :=
  match matchNote (trim token) with
  | None => None
  | Some m =>
      let letter := toUpperCase (g1 m) in
      let acc := g2 m in
      let oct := parseInt (g3 m) in
      match lookup letter LETTER_TO_PC with
      | Some pc0 =>
          let pc1 := if jsstring_eqb acc (u16 "#") then (pc0 + 1)%Z
                     else if jsstring_eqb acc (u16 "b") then (pc0 - 1)%Z
                     else pc0 in
          let pc2 := mod12 pc1 in
          let midi := Number.add (Number.mul 12 (Number.add oct 1)) pc2 in
          Some (mkNote token midi pc2)
      | None => None
      end
  end.

Definition parseErrorIssue (i : nat) (t : jsstring) : Issue :=
  mkIssue ParseError (Some i) None
          (u16 "Cannot parse note " ++ dquote ++ t ++ dquote).

(** The callback of [tokens.forEach], run over the tokens from index [i]
    with the two arrays it pushes to. *)
Fixpoint forEachToken (tokens : list jsstring) (i : nat)
         (notes : list Note) (issues : list Issue) : list Note * list Issue :=
  match tokens with
  | [] => (notes, issues)
  | t :: rest =>
      match parseNote t with
      | None => forEachToken rest (S i) notes (issues ++ [parseErrorIssue i t])
      | Some n => forEachToken rest (S i) (notes ++ [n]) issues
      end
  end.

Definition parseMelody (line : jsstring) : list Note * list Issue :=
  let tokens := filter Boolean (split_ws (trim line)) in
  forEachToken tokens 0 [] [].

Definition parseKey (keyStr : jsstring) : option Key :=
  match matchKey (trim keyStr) with
  | None => None
  | Some m =>
      let letter := toUpperCase (g1 m) in
      let acc := g2 m in
      let mode := toLowerCase (g3 m) in
      match lookup letter LETTER_TO_PC with
      | Some pc0 =>
          let pc1 := if jsstring_eqb acc (u16 "#") then (pc0 + 1)%Z
                     else if jsstring_eqb acc (u16 "b") then (pc0 - 1)%Z
                     else pc0 in
          Some (mkKey (mod12 pc1) mode)
      | None => None
      end
  end.

(** [sign] on integers. *)
Definition sign (n : Z) : Z :=
  if (n =? 0)%Z then 0%Z else if (n >? 0)%Z then 1%Z else (-1)%Z.

(** [sign] on a Number in general: NaN is neither zero nor positive and
    so gets -1; on an integer it is the above, see [signN_Fin]. *)
Definition signN (n : Number.t) : Number.t :=
  if Number.eqb n 0 then 0 else if Number.gtb n 0 then 1 else (-1).

(* ================================================================== *)
(** ** The analyzer *)

(** [lintCounterpoint] pushes to one array, [issues], and reads notes by
    index.  Reading past the end of an array gives [undefined], and taking
    a field of [undefined] throws.  A computation is therefore a function
    of the array pushed to so far; [None] is that exception. *)
Definition M (X : Type) : Type := list Issue -> option (X * list Issue).

Definition ret {X : Type} (x : X) : M X := fun s => Some (x, s).

Definition bind {X Y : Type} (m : M X) (f : X -> M Y) : M Y :=
  fun s => match m s with
           | Some (x, s') => f x s'
           | None => None
           end.

Notation "x <- m ;; k" := (bind m (fun x => k))
  (at level 61, m at next level, right associativity).
Notation "m ;; k" := (bind m (fun _ => k))
  (at level 61, right associativity).

(** [issues.push(i)] and [issues.push(...l)] *)
Definition push (i : Issue) : M unit := fun s => Some (tt, s ++ [i]).
Definition pushAll (l : list Issue) : M unit := fun s => Some (tt, s ++ l).

(** [X[i]], about to have a field read. *)
Definition elem (X : list Note) (i : nat) : M Note :=
  fun s => match nth_error X i with
           | Some n => Some (n, s)
           | None => None
           end.

(** [if (b) m] *)
Definition when (b : bool) (m : M unit) : M unit := if b then m else ret tt.

(** [for (let i = 0; i < bound; i++) body].  The bounds of the program
    are [n - 1] for a length [n]; for [n = 0] that is [-1] and the loop
    does not run, as with the truncated subtraction of [nat]. *)
Fixpoint forFrom (i count : nat) (body : nat -> M unit) : M unit :=
  match count with
  | O => ret tt
  | S count' => body i ;; forFrom (S i) count' body
  end.

Definition for_ (bound : nat) (body : nat -> M unit) : M unit :=
  forFrom 0 bound body.

(** The message texts. *)
Definition keyDetails (keyStr : jsstring) : jsstring :=
  u16 "Key " ++ dquote ++ keyStr ++ dquote ++ u16 " not understood. Use like "
  ++ dquote ++ u16 "C major" ++ dquote ++ u16 " or "
  ++ dquote ++ u16 "A minor" ++ dquote ++ u16 ".".

Definition lengthDetails (lenA lenB : nat) : jsstring :=
  u16 "Voices have different lengths (" ++ ofNat lenA ++ u16 " vs "
  ++ ofNat lenB ++ u16 "). Lint assumes aligned notes.".

Definition positions (i : nat) : jsstring := ofNat i ++ arrow ++ ofNat (i + 1).

Definition fifthsDetails (i : nat) (a0 b0 a1 b1 : Note) : jsstring :=
  u16 "Parallel 5ths at positions " ++ positions i ++ u16 " ("
  ++ raw a0 ++ u16 "/" ++ raw b0 ++ u16 " " ++ arrow ++ u16 " "
  ++ raw a1 ++ u16 "/" ++ raw b1 ++ u16 ")".

Definition octavesDetails (i : nat) : jsstring :=
  u16 "Parallel 8ves (or unisons) at positions " ++ positions i.

Definition voiceName (v : Voice.t) : jsstring :=
  match v with Voice.A => u16 "Upper" | Voice.B => u16 "Lower" end.

Definition leapDetails (v : Voice.t) (leap : Number.t) (i : nat) (x0 x1 : Note)
  : jsstring :=
  voiceName v ++ u16 " voice leaps " ++ Number.toString leap
  ++ u16 " semitones at "
  ++ positions i ++ u16 " (" ++ raw x0 ++ arrow ++ raw x1 ++ u16 ")".

Definition leadingDetails (v : Voice.t) (x0 : Note) : jsstring :=
  voiceName v ++ u16 " voice leading tone (" ++ raw x0
  ++ u16 ") does not resolve up by semitone to tonic".

(** Rule 1, the body of the loop over aligned positions. *)
Definition parallelBody (A B : list Note) (i : nat) : M unit :=
  a0 <- elem A i ;; b0 <- elem B i ;;
  let int1 := Number.abs (Number.sub (midi a0) (midi b0)) in
  a1 <- elem A (i + 1) ;; b1 <- elem B (i + 1) ;;
  let int2 := Number.abs (Number.sub (midi a1) (midi b1)) in
  let pc1 := mod12N int1 in
  let pc2 := mod12N int2 in
  let dirA := signN (Number.sub (midi a1) (midi a0)) in
  let dirB := signN (Number.sub (midi b1) (midi b0)) in
  let similar := negb (Number.eqb dirA 0) && negb (Number.eqb dirB 0)
                 && Number.eqb dirA dirB in
  when (similar && Number.eqb pc1 7 && Number.eqb pc2 7)
       (push (mkIssue Parallel5ths (Some i) None (fifthsDetails i a0 b0 a1 b1))) ;;
  when (similar && Number.eqb pc1 0 && Number.eqb pc2 0)
       (push (mkIssue Parallel8ves (Some i) None (octavesDetails i))).

(** Rule 2, the body of the loop over one voice; the program has the loop
    twice, for [A] tagged ['A'] and for [B] tagged ['B']. *)
Definition leapBody (v : Voice.t) (X : list Note) (i : nat) : M unit :=
  x1 <- elem X (i + 1) ;; x0 <- elem X i ;;
  let leap := Number.abs (Number.sub (midi x1) (midi x0)) in
  when (Number.gtb leap 12)
       (push (mkIssue LeapOverOctave (Some i) (Some v) (leapDetails v leap i x0 x1))).

(** Rule 3, the body of the loop over one voice, again there twice. *)
Definition leadingBody (v : Voice.t) (leadingPC tonicPC : Z)
           (X : list Note) (i : nat) : M unit :=
  x0 <- elem X i ;;
  if (pc x0 =? leadingPC)%Z then
    x1 <- elem X (i + 1) ;;
    let stepUp := (mod12 (pc x1 - pc x0) =? 1)%Z in
    when (negb ((pc x1 =? tonicPC)%Z && stepUp))
         (push (mkIssue UnresolvedLeadingTone (Some i) (Some v) (leadingDetails v x0)))
  else ret tt.

Definition lintBody (upperLine lowerLine keyStr : jsstring) : M unit :=
  match parseKey keyStr with
  | None => push (mkIssue ParseError None None (keyDetails keyStr))
  | Some key =>
      let leadingPC := mod12 (tonicPC key - 1) in
      let tonicPC := tonicPC key in
      let (A, parseA) := parseMelody upperLine in
      let (B, parseB) := parseMelody lowerLine in
      pushAll (parseA ++ parseB) ;;
      when (negb (length A =? length B))
           (push (mkIssue LengthMismatch None None
                          (lengthDetails (length A) (length B)))) ;;
      let N := Nat.min (length A) (length B) in
      for_ (N - 1) (parallelBody A B) ;;
      for_ (length A - 1) (leapBody Voice.A A) ;;
      for_ (length B - 1) (leapBody Voice.B B) ;;
      for_ (length A - 1) (leadingBody Voice.A leadingPC tonicPC A) ;;
      for_ (length B - 1) (leadingBody Voice.B leadingPC tonicPC B)
  end.

(** The function as a caller sees it: the array it returns, or [None]
    when it throws. *)
Definition lintCounterpoint (upperLine lowerLine keyStr : jsstring)
  : option (list Issue) :=
  option_map snd (lintBody upperLine lowerLine keyStr []).

(* ################################################################## *)
(** * Part I, continued: the vocabulary of the statements *)

(* ================================================================== *)
(** ** What the passes push *)

(** The issues one iteration of each loop pushes, as a list, for an index
    at which the notes it reads exist. *)
Definition similar (a0 b0 a1 b1 : Note) : bool :=
  let dirA := signN (Number.sub (midi a1) (midi a0)) in
  let dirB := signN (Number.sub (midi b1) (midi b0)) in
  negb (Number.eqb dirA 0) && negb (Number.eqb dirB 0) && Number.eqb dirA dirB.

Definition bothClass (c : Z) (a0 b0 a1 b1 : Note) : bool :=
  Number.eqb (mod12N (Number.abs (Number.sub (midi a0) (midi b0)))) c
  && Number.eqb (mod12N (Number.abs (Number.sub (midi a1) (midi b1)))) c.

Definition parallelOut (A B : list Note) (i : nat) : list Issue :=
  match nth_error A i, nth_error B i, nth_error A (i + 1), nth_error B (i + 1) with
  | Some a0, Some b0, Some a1, Some b1 =>
      (if similar a0 b0 a1 b1 && bothClass 7 a0 b0 a1 b1
       then [mkIssue Parallel5ths (Some i) None (fifthsDetails i a0 b0 a1 b1)]
       else [])
      ++ (if similar a0 b0 a1 b1 && bothClass 0 a0 b0 a1 b1
          then [mkIssue Parallel8ves (Some i) None (octavesDetails i)]
          else [])
  | _, _, _, _ => []
  end.

Definition leapOf (x0 x1 : Note) : Number.t :=
  Number.abs (Number.sub (midi x1) (midi x0)).

(** The pitch value of a note as an integer, for a note whose pitch
    value is finite. *)
Definition finite (x : Note) : Prop := Number.isFinite (midi x) = true.

Definition midiZ (x : Note) : Z :=
  match midi x with Number.Fin z => z | _ => 0%Z end.

(** Two notes between which the program computes the interval exactly:
    both pitch values are finite and their difference is an integer that
    a double holds, at most [2 ^ 53] in absolute value. *)
Definition exactInterval (a b : Note) : Prop :=
  finite a /\ finite b /\ (Z.abs (midiZ a - midiZ b) <= 2 ^ 53)%Z.

Definition leapOut (v : Voice.t) (X : list Note) (i : nat) : list Issue :=
  match nth_error X i, nth_error X (i + 1) with
  | Some x0, Some x1 =>
      if Number.gtb (leapOf x0 x1) 12
      then [mkIssue LeapOverOctave (Some i) (Some v)
                    (leapDetails v (leapOf x0 x1) i x0 x1)]
      else []
  | _, _ => []
  end.

(** The test of rule 3 on a leading tone [x0] and its successor [x1]. *)
Definition resolves (tonicPC : Z) (x0 x1 : Note) : bool :=
  (pc x1 =? tonicPC)%Z && (mod12 (pc x1 - pc x0) =? 1)%Z.

Definition leadingOut (v : Voice.t) (leadingPC tonicPC : Z)
           (X : list Note) (i : nat) : list Issue :=
  match nth_error X i, nth_error X (i + 1) with
  | Some x0, Some x1 =>
      if (pc x0 =? leadingPC)%Z && negb (resolves tonicPC x0 x1)
      then [mkIssue UnresolvedLeadingTone (Some i) (Some v) (leadingDetails v x0)]
      else []
  | _, _ => []
  end.

Definition lengthOut (A B : list Note) : list Issue :=
  if negb (length A =? length B)
  then [mkIssue LengthMismatch None None (lengthDetails (length A) (length B))]
  else [].

Definition pass (out : nat -> list Issue) (bound : nat) : list Issue :=
  flat_map out (seq 0 bound).

Definition keyIssue (keyStr : jsstring) : Issue :=
  mkIssue ParseError None None (keyDetails keyStr).

Definition upperNotes (upperLine : jsstring) : list Note := fst (parseMelody upperLine).
Definition lowerNotes (lowerLine : jsstring) : list Note := fst (parseMelody lowerLine).

(** The three rule passes, with the bounds of their loops. *)
Definition parallelPass (A B : list Note) : list Issue :=
  pass (parallelOut A B) (Nat.min (length A) (length B) - 1).

Definition leapPass (v : Voice.t) (X : list Note) : list Issue :=
  pass (leapOut v X) (length X - 1).

Definition leadingPass (v : Voice.t) (key : Key) (X : list Note) : list Issue :=
  pass (leadingOut v (mod12 (tonicPC key - 1)) (tonicPC key) X) (length X - 1).

(** The issues of a run with a key that parsed, pass by pass. *)
Definition rulesOut (key : Key) (A B : list Note) : list Issue :=
  parallelPass A B
  ++ leapPass Voice.A A ++ leapPass Voice.B B
  ++ leadingPass Voice.A key A ++ leadingPass Voice.B key B.

Definition lintOut (upperLine lowerLine keyStr : jsstring) : list Issue :=
  match parseKey keyStr with
  | None => [keyIssue keyStr]
  | Some key =>
      snd (parseMelody upperLine) ++ snd (parseMelody lowerLine)
      ++ lengthOut (upperNotes upperLine) (lowerNotes lowerLine)
      ++ rulesOut key (upperNotes upperLine) (lowerNotes lowerLine)
  end.

(* ================================================================== *)
(** ** The grammar of a note token *)

(** The text the third group of the note pattern matches: an optional
    minus sign and at least one digit. *)
Definition signedDecimal (s : jsstring) : Prop :=
  exists ds, (s = ds \/ s = 0x2D%N :: ds) /\ ds <> [] /\ Forall (fun d => isDigit d = true) ds.

(** The octave text of a token, the third group of the match. *)
Definition octaveOf (token : jsstring) : jsstring :=
  match matchNote (trim token) with
  | Some m => g3 m
  | None => []
  end.

(** An octave for which every step of [12 * (oct + 1) + pc] is an integer
    that a double holds, whatever the pitch class. *)
Definition exactOctave (oct : jsstring) : Prop :=
  (Z.abs (12 * (decimalValue oct + 1)) + 11 <= 2 ^ 53)%Z.

(** The lines the two parsers have in common: the table entry of the
    letter, moved by the accidental. *)
Definition accidentalPC (letter acc : jsstring) : option Z :=
  match lookup letter LETTER_TO_PC with
  | Some pc0 =>
      if jsstring_eqb acc (u16 "#") then Some (pc0 + 1)%Z
      else if jsstring_eqb acc (u16 "b") then Some (pc0 - 1)%Z
      else Some pc0
  | None => None
  end.

(** What an accidental adds to the pitch class of its letter. *)
Definition accidentalShift (acc : jsstring) : Z :=
  if jsstring_eqb acc (u16 "#") then 1%Z
  else if jsstring_eqb acc (u16 "b") then (-1)%Z else 0%Z.

(* ================================================================== *)
(** ** Reading the returned array *)

Definition Voice_eqb (v w : Voice.t) : bool :=
  match v, w with
  | Voice.A, Voice.A | Voice.B, Voice.B => true
  | _, _ => false
  end.

(** An issue of kind [ty] at index [i]; and one tagged with voice [v]. *)
Definition isAt (ty : IssueType) (i : nat) (iss : Issue) : bool :=
  IssueType_eqb (type iss) ty
  && match index iss with Some j => j =? i | None => false end.

Definition isFor (ty : IssueType) (v : Voice.t) (i : nat) (iss : Issue) : bool :=
  isAt ty i iss
  && match voice iss with Some w => Voice_eqb w v | None => false end.

Definition isType (ty : IssueType) (iss : Issue) : bool :=
  IssueType_eqb (type iss) ty.

Definition emitsAt (ty : IssueType) (i : nat) (issues : list Issue) : Prop :=
  exists iss, In iss issues /\ type iss = ty /\ index iss = Some i.

Definition emitsFor (ty : IssueType) (v : Voice.t) (i : nat)
           (issues : list Issue) : Prop :=
  exists iss, In iss issues /\ type iss = ty /\ voice iss = Some v
              /\ index iss = Some i.

(** How many issues of the array pass a test. *)
Definition count (p : Issue -> bool) (issues : list Issue) : nat :=
  length (filter p issues).

(** Indices strictly ascending along a list of issues, from [lo] on. *)
Fixpoint ascendingFrom (lo : nat) (l : list Issue) : Prop :=
  match l with
  | [] => True
  | iss :: l' => exists i, index iss = Some i /\ lo <= i /\ ascendingFrom (S i) l'
  end.

Definition ascending (l : list Issue) : Prop := ascendingFrom 0 l.

(* ================================================================== *)
(** ** What [parseMelody] returns *)

Definition tokensOf (line : jsstring) : list jsstring :=
  filter Boolean (split_ws (trim line)).

Fixpoint tokenNotes (tokens : list jsstring) : list Note :=
  match tokens with
  | [] => []
  | t :: rest =>
      match parseNote t with
      | Some n => n :: tokenNotes rest
      | None => tokenNotes rest
      end
  end.

Fixpoint tokenErrors (tokens : list jsstring) (i : nat) : list Issue :=
  match tokens with
  | [] => []
  | t :: rest =>
      match parseNote t with
      | Some _ => tokenErrors rest (S i)
      | None => parseErrorIssue i t :: tokenErrors rest (S i)
      end
  end.

(** At most one issue, and that one as [ok] says. *)
Definition atMostOne (ok : Issue -> Prop) (l : list Issue) : Prop :=
  l = [] \/ exists iss, l = [iss] /\ ok iss.

Definition notesOf (v : Voice.t) (upperLine lowerLine : jsstring) : list Note :=
  match v with
  | Voice.A => upperNotes upperLine
  | Voice.B => lowerNotes lowerLine
  end.

(** An issue of kind [ty] tagged with voice [v], at any index. *)
Definition isVoiced (ty : IssueType) (v : Voice.t) (iss : Issue) : bool :=
  isType ty iss
  && match voice iss with Some w => Voice_eqb w v | None => false end.

(** The positions of a voice at which it leaps more than an octave. *)
Definition leapsAt (X : list Note) (i : nat) : bool :=
  match nth_error X i, nth_error X (i + 1) with
  | Some x0, Some x1 => Number.gtb (leapOf x0 x1) 12
  | _, _ => false
  end.

Definition offendingLeaps (X : list Note) : list nat :=
  filter (leapsAt X) (seq 0 (length X - 1)).

(* ================================================================== *)
(** ** Rule 3 with the simpler test *)

(** The test of rule 3 as the simpler reading has it: the next note has
    the pitch class of the tonic. *)
Definition resolves_simple (tonicPC : Z) (x1 : Note) : bool :=
  (pc x1 =? tonicPC)%Z.

(** The body of the loop of rule 3 with the simpler test. *)
Definition leadingBody_simple (v : Voice.t) (leadingPC tonicPC : Z)
           (X : list Note) (i : nat) : M unit :=
  x0 <- elem X i ;;
  if (pc x0 =? leadingPC)%Z then
    x1 <- elem X (i + 1) ;;
    when (negb (resolves_simple tonicPC x1))
         (push (mkIssue UnresolvedLeadingTone (Some i) (Some v) (leadingDetails v x0)))
  else ret tt.

(** The analyzer with the simpler test in both loops of rule 3. *)
Definition lintBody_simple (upperLine lowerLine keyStr : jsstring) : M unit :=
  match parseKey keyStr with
  | None => push (mkIssue ParseError None None (keyDetails keyStr))
  | Some key =>
      let leadingPC := mod12 (tonicPC key - 1) in
      let tonicPC := tonicPC key in
      let (A, parseA) := parseMelody upperLine in
      let (B, parseB) := parseMelody lowerLine in
      pushAll (parseA ++ parseB) ;;
      when (negb (length A =? length B))
           (push (mkIssue LengthMismatch None None
                          (lengthDetails (length A) (length B)))) ;;
      let N := Nat.min (length A) (length B) in
      for_ (N - 1) (parallelBody A B) ;;
      for_ (length A - 1) (leapBody Voice.A A) ;;
      for_ (length B - 1) (leapBody Voice.B B) ;;
      for_ (length A - 1) (leadingBody_simple Voice.A leadingPC tonicPC A) ;;
      for_ (length B - 1) (leadingBody_simple Voice.B leadingPC tonicPC B)
  end.

Definition lintCounterpoint_simple (upperLine lowerLine keyStr : jsstring)
  : option (list Issue) :=
  option_map snd (lintBody_simple upperLine lowerLine keyStr []).

(* ================================================================== *)
(** ** The voice tag *)

(** What an issue that carries a voice is about: a pair of adjacent
    notes of the line the tag names, which leaps over an octave or leaves
    a leading tone unresolved. *)
Definition aboutVoice (upperLine lowerLine keyStr : jsstring)
           (v : Voice.t) (iss : Issue) : Prop :=
  exists i x0 x1,
    index iss = Some i
    /\ nth_error (notesOf v upperLine lowerLine) i = Some x0
    /\ nth_error (notesOf v upperLine lowerLine) (i + 1) = Some x1
    /\ ((type iss = LeapOverOctave /\ Number.gtb (leapOf x0 x1) 12 = true)
        \/ (type iss = UnresolvedLeadingTone
            /\ (exists key, parseKey keyStr = Some key
                            /\ pc x0 = mod12 (tonicPC key - 1)
                            /\ resolves (tonicPC key) x0 x1 = false)
            /\ details iss = leadingDetails v x0)).

(* ================================================================== *)
(** ** The order of the returned issues *)

(** The issues of one pass: all as [ok] says, in strictly ascending
    order of index. *)
Definition passOf (ok : Issue -> Prop) (l : list Issue) : Prop :=
  Forall ok l /\ ascending l.

(** A ParseError issue of a line: that of the token at its index. *)
Definition tokenError (line : jsstring) (iss : Issue) : Prop :=
  type iss = ParseError
  /\ exists i t, iss = parseErrorIssue i t
                 /\ nth_error (tokensOf line) i = Some t /\ parseNote t = None.

(* ================================================================== *)
(** ** Lines with any number of leaps *)

(** A line of [n + 1] notes that alternates between [C0] and [C2], two
    octaves apart, starting high or low. *)
Fixpoint zigzag (n : nat) (high : bool) : jsstring :=
  match n with
  | O => if high then u16 "C2" else u16 "C0"
  | S n' => (if high then u16 "C2 " else u16 "C0 ") ++ zigzag n' (negb high)
  end.

Definition zigzagNote (high : bool) : Note :=
  if high then mkNote (u16 "C2") 36 0 else mkNote (u16 "C0") 12 0.

Fixpoint zigzagNotes (n : nat) (high : bool) : list Note :=
  match n with
  | O => [zigzagNote high]
  | S n' => zigzagNote high :: zigzagNotes n' (negb high)
  end.

(* ================================================================== *)
(** ** Tokens and lines *)

(** A piece of text without white space. *)
Definition noWhiteSpace (t : jsstring) : bool :=
  forallb (fun c => negb (isWhiteSpace c)) t.

(** What [split] and [filter(Boolean)] leave: a token is not empty and
    has no white space. *)
Definition isToken (t : jsstring) : Prop :=
  t <> [] /\ noWhiteSpace t = true.

(** Text made of white space only. *)
Definition blank (s : jsstring) : Prop :=
  Forall (fun c => isWhiteSpace c = true) s.

(** The tokens written out on one line, a single space between two. *)
Fixpoint unwords (tokens : list jsstring) : jsstring :=
  match tokens with
  | [] => []
  | [t] => t
  | t :: rest => t ++ u16 " " ++ unwords rest
  end.

(** Whether [parseNote] takes a token. *)
Definition parses (t : jsstring) : bool :=
  match parseNote t with Some _ => true | None => false end.

(** The pitch of a parsed note, without the text it came from. *)
Definition pitchOf (token : jsstring) : option (Number.t * Z) :=
  option_map (fun n => (midi n, pc n)) (parseNote token).

(** The fields an issue of each kind carries. *)
Definition fieldsOk (iss : Issue) : Prop :=
  match type iss with
  | LeapOverOctave | UnresolvedLeadingTone =>
      voice iss <> None /\ index iss <> None
  | Parallel5ths | Parallel8ves =>
      voice iss = None /\ index iss <> None
  | LengthMismatch => voice iss = None /\ index iss = None
  | ParseError => voice iss = None
  end.

(* ################################################################## *)
(** * Part II: its properties *)

(* ================================================================== *)
(** ** Doubles *)

(** [Number.ofZ] rounds as the floating-point specification of the
    library does, here at the integers around which this file computes. *)
Example ofZ_as_specified :
  forallb (fun z => match Number.ofZ z, Number.viaSpec z with
                    | Number.Fin a, Number.Fin b => (a =? b)%Z
                    | Number.Infinity s, Number.Infinity s' => Bool.eqb s s'
                    | _, _ => false
                    end)
          [0; 1; -1; 12; 2 ^ 53 - 1; 2 ^ 53; 2 ^ 53 + 1; 2 ^ 53 + 2; 2 ^ 53 + 3;
           9007199254741013; 9007199254741015; -9007199254741015; 2 ^ 54 + 2;
           2 ^ 54 + 5; 2 ^ 54 + 6; 2 ^ 60 + 1; 10 ^ 22; 10 ^ 23; 12 * 10 ^ 20;
           2 ^ 1024; 2 ^ 1024 - 2 ^ 970; 2 ^ 1024 - 2 ^ 970 - 1; - 2 ^ 1024;
           10 ^ 309; 2 ^ 1023 + 2 ^ 970; 3 * 2 ^ 1000 + 12345]%Z
  = true.
Proof. vm_compute. reflexivity. Qed.

(** [Number.toString] at values whose text in JavaScript is known. *)
Example toString_samples :
  map (fun z => Number.toString (Number.ofZ z))
      [0; 13; -14; 1000; 9007199254741015; 2 ^ 60; 10 ^ 20; 10 ^ 21;
       12 * 10 ^ 20; 2 ^ 70; 10 ^ 23; 10 ^ 309]%Z
  = [u16 "0"; u16 "13"; u16 "-14"; u16 "1000"; u16 "9007199254741016";
     u16 "1152921504606847000"; u16 "100000000000000000000"; u16 "1e+21";
     u16 "1.2e+21"; u16 "1.1805916207174113e+21"; u16 "1e+23"; u16 "Infinity"].
Proof. vm_compute. reflexivity. Qed.

Lemma pow53_lt_pow1024 : (2 ^ 53 < 2 ^ 1024)%Z.
Proof. apply Z.pow_lt_mono_r; lia. Qed.

Lemma roundNat_small a : (a < 2 ^ 53)%Z -> Number.roundNat a = a.
Proof.
  intros H. unfold Number.roundNat.
  destruct (Z.ltb_spec a (2 ^ 53)); [reflexivity | lia].
Qed.

Lemma roundNat_large a : (2 ^ 53 <= a)%Z -> (2 ^ 53 <= Number.roundNat a)%Z.
Proof.
  intros H. unfold Number.roundNat.
  destruct (Z.ltb_spec a (2 ^ 53)); [lia|]. cbv zeta.
  assert (Ha : (0 < a)%Z) by (pose proof (Z.pow_pos_nonneg 2 53); lia).
  destruct (Z.log2_spec a Ha) as [Hlo _].
  assert (Hlog : (53 <= Z.log2 a)%Z) by (apply Z.log2_le_pow2; lia).
  set (e := (Z.log2 a - 52)%Z) in *.
  assert (He : (1 <= e)%Z) by (unfold e; lia).
  assert (Hq : (2 ^ 52 <= Z.shiftr a e)%Z).
  { rewrite Z.shiftr_div_pow2 by lia.
    replace (Z.log2 a) with (52 + e)%Z in Hlo by (unfold e; lia).
    rewrite Z.pow_add_r in Hlo by lia.
    apply Z.div_le_lower_bound; [apply Z.pow_pos_nonneg; lia | lia]. }
  assert (Hp : (2 <= 2 ^ e)%Z).
  { change 2%Z with (2 ^ 1)%Z at 1. apply Z.pow_le_mono_r; lia. }
  rewrite Z.shiftl_mul_pow2 by lia.
  change (2 ^ 53)%Z with (2 ^ 52 * 2)%Z.
  apply Z.mul_le_mono_nonneg; try lia.
  destruct (_ || _); lia.
Qed.

(** What [Number.ofZ] keeps of an integer: the sign always, the value up
    to [2 ^ 53], and on which side of 12 the absolute value lies. *)
Lemma ofZ_cases z :
  (exists w, Number.ofZ z = Number.Fin w /\ Z.sgn w = Z.sgn z
             /\ ((Z.abs z <= 2 ^ 53)%Z -> w = z)
             /\ ((Z.abs w >? 12) = (Z.abs z >? 12))%Z)
  \/ (Number.ofZ z = Number.Infinity (z <? 0)%Z /\ (2 ^ 53 < Z.abs z)%Z).
Proof.
  pose proof pow53_lt_pow1024 as Hbig. unfold Number.ofZ. cbv zeta.
  destruct (Z.lt_ge_cases (Z.abs z) (2 ^ 53)) as [Hs | Hl].
  - rewrite (roundNat_small _ Hs).
    destruct (Z.leb_spec (2 ^ 1024) (Z.abs z)); [lia|].
    left. exists z. rewrite (Z.mul_comm (Z.sgn z)), Z.abs_sgn. repeat split; auto.
  - pose proof (roundNat_large _ Hl) as Hr.
    destruct (Z.leb_spec (2 ^ 1024) (Number.roundNat (Z.abs z))).
    + right. split; [reflexivity|].
      destruct (Z.eq_dec (Z.abs z) (2 ^ 53)) as [E|]; [|lia].
      rewrite E in *. vm_compute in H. now exfalso.
    + left. exists (Z.sgn z * Number.roundNat (Z.abs z))%Z.
      split; [reflexivity|].
      change (2 ^ 53)%Z with 9007199254740992%Z in *.
      split; [|split].
      * set (r := Number.roundNat (Z.abs z)) in *. clearbody r.
        clear H Hbig. destruct z; simpl in *; try lia; destruct r; simpl in *; lia.
      * intros Hle. assert (E : Z.abs z = 9007199254740992%Z) by lia.
        rewrite E. change (Number.roundNat 9007199254740992) with 9007199254740992%Z.
        rewrite <- E, Z.mul_comm. apply Z.abs_sgn.
      * set (r := Number.roundNat (Z.abs z)) in *. clearbody r.
        clear H Hbig. destruct (Z.gtb_spec (Z.abs z) 12); [|lia].
        destruct (Z.gtb_spec (Z.abs (Z.sgn z * r)) 12); [reflexivity|].
        destruct z; simpl in *; try lia; destruct r; simpl in *; lia.
Qed.

Lemma ofZ_exact z : (Z.abs z <= 2 ^ 53)%Z -> Number.ofZ z = Number.Fin z.
Proof.
  intros H. destruct (ofZ_cases z) as [(w & -> & _ & Hw & _) | [_ Hbig]]; [|lia].
  now rewrite Hw.
Qed.

Lemma ofZ_opp z : Number.ofZ (- z) = Number.neg (Number.ofZ z).
Proof.
  destruct (Z.eq_dec z 0) as [-> | Hz]; [reflexivity|].
  unfold Number.ofZ. cbv zeta. rewrite Z.abs_opp, Z.sgn_opp.
  destruct (2 ^ 1024 <=? _)%Z; simpl.
  - f_equal. destruct (Z.ltb_spec (- z) 0), (Z.ltb_spec z 0); simpl; auto; lia.
  - f_equal. lia.
Qed.

Lemma sub_Fin a b : Number.sub (Number.Fin a) (Number.Fin b) = Number.ofZ (a - b).
Proof. reflexivity. Qed.

Lemma sub_exact a b :
  (Z.abs (a - b) <= 2 ^ 53)%Z ->
  Number.sub (Number.Fin a) (Number.Fin b) = Number.Fin (a - b).
Proof. intros H. rewrite sub_Fin. now apply ofZ_exact. Qed.

Lemma neg_neg x : Number.neg (Number.neg x) = x.
Proof.
  destruct x as [a|s|]; simpl; [f_equal; lia | f_equal; apply negb_involutive | reflexivity].
Qed.

Lemma abs_neg x : Number.abs (Number.neg x) = Number.abs x.
Proof. destruct x as [a|s|]; simpl; [f_equal; lia | reflexivity | reflexivity]. Qed.

Lemma sub_swap x y : Number.sub y x = Number.neg (Number.sub x y).
Proof.
  destruct x as [a|[]|], y as [b|[]|]; try reflexivity.
  rewrite !sub_Fin, <- ofZ_opp. f_equal. lia.
Qed.

Lemma abs_sub_swap x y :
  Number.abs (Number.sub x y) = Number.abs (Number.sub y x).
Proof. now rewrite (sub_swap x y), abs_neg. Qed.

Lemma eqb_sym x y : Number.eqb x y = Number.eqb y x.
Proof.
  destruct x as [a|[]|], y as [b|[]|]; simpl; try reflexivity.
  apply Z.eqb_sym.
Qed.

Lemma signN_Fin z : signN (Number.Fin z) = Number.Fin (sign z).
Proof.
  unfold signN, sign. simpl.
  destruct (z =? 0)%Z; [reflexivity|]. now destruct (z >? 0)%Z.
Qed.

Lemma sign_sgn (n : Z) : sign n = Z.sgn n.
Proof.
  unfold sign.
  destruct (Z.eqb_spec n 0) as [->|Hn]; [reflexivity|].
  destruct n; simpl; try reflexivity. congruence.
Qed.

(** Rounding keeps the sign: the direction of a step between two finite
    pitch values is that of their difference. *)
Lemma signN_sub a b :
  signN (Number.sub (Number.Fin a) (Number.Fin b)) = Number.Fin (Z.sgn (a - b)).
Proof.
  rewrite sub_Fin.
  destruct (ofZ_cases (a - b)) as [(w & -> & Hs & _) | [-> Hbig]].
  - now rewrite signN_Fin, sign_sgn, Hs.
  - unfold signN. simpl. destruct (Z.ltb_spec (a - b) 0); simpl;
      f_equal; lia.
Qed.

(** Rounding keeps the side of 12 on which a difference lies. *)
Lemma gtb_abs_sub a b :
  Number.gtb (Number.abs (Number.sub (Number.Fin a) (Number.Fin b))) 12
  = (Z.abs (a - b) >? 12)%Z.
Proof.
  rewrite sub_Fin.
  destruct (ofZ_cases (a - b)) as [(w & -> & _ & _ & Hgt) | [-> Hbig]].
  - exact Hgt.
  - simpl. symmetry. apply Z.gtb_lt.
    change (2 ^ 53)%Z with 9007199254740992%Z in Hbig. lia.
Qed.

Lemma mod12N_Fin z : mod12N (Number.Fin z) = Number.Fin (mod12 z).
Proof.
  unfold mod12N, mod12. simpl.
  rewrite ofZ_exact; [reflexivity|].
  pose proof (Z.rem_bound_abs z 12 ltac:(lia)).
  change (2 ^ 53)%Z with 9007199254740992%Z. lia.
Qed.

(* ================================================================== *)
(** ** The loops run to completion *)

Lemma forFrom_run (out : nat -> list Issue) (body : nat -> M unit) :
  forall n i s,
    (forall j s', i <= j < i + n -> body j s' = Some (tt, s' ++ out j)) ->
    forFrom i n body s = Some (tt, s ++ flat_map out (seq i n)).
Proof.
  induction n as [|n IH]; intros i s Hbody; simpl.
  - unfold ret. now rewrite app_nil_r.
  - unfold bind. rewrite Hbody by lia.
    rewrite IH.
    + now rewrite <- app_assoc.
    + intros j s' Hj. apply Hbody. lia.
Qed.

Lemma for_run (out : nat -> list Issue) (body : nat -> M unit) bound s :
  (forall j s', j < bound -> body j s' = Some (tt, s' ++ out j)) ->
  for_ bound body s = Some (tt, s ++ pass out bound).
Proof.
  intros H. apply forFrom_run. intros j s' Hj. apply H. lia.
Qed.

Lemma nth_error_in_range (X : list Note) i :
  i < length X -> exists x, nth_error X i = Some x.
Proof.
  intros H. destruct (nth_error X i) as [x|] eqn:E; [now exists x|].
  apply nth_error_None in E. lia.
Qed.

Ltac read_note X i x :=
  let E := fresh "E" in
  destruct (@nth_error_in_range X i) as [x E]; [lia | rewrite ?E].

Lemma parallelBody_run A B i s :
  i + 1 < length A -> i + 1 < length B ->
  parallelBody A B i s = Some (tt, s ++ parallelOut A B i).
Proof.
  intros HA HB. unfold parallelBody, parallelOut, bind, elem.
  read_note A i a0. read_note B i b0.
  read_note A (i + 1) a1. read_note B (i + 1) b1.
  fold (similar a0 b0 a1 b1). unfold bothClass.
  set (c1 := mod12N (Number.abs (Number.sub (midi a0) (midi b0)))).
  set (c2 := mod12N (Number.abs (Number.sub (midi a1) (midi b1)))).
  destruct (similar a0 b0 a1 b1); simpl;
    destruct (Number.eqb c1 7); destruct (Number.eqb c2 7);
    destruct (Number.eqb c1 0); destruct (Number.eqb c2 0);
    simpl; unfold ret, push; rewrite ?app_nil_r, <- ?app_assoc; reflexivity.
Qed.

Lemma leapBody_run v X i s :
  i + 1 < length X ->
  leapBody v X i s = Some (tt, s ++ leapOut v X i).
Proof.
  intros HX. unfold leapBody, leapOut, bind, elem.
  read_note X i x0. read_note X (i + 1) x1.
  fold (leapOf x0 x1).
  destruct (Number.gtb (leapOf x0 x1) 12); simpl; unfold ret, push;
    rewrite ?app_nil_r; reflexivity.
Qed.

Lemma leadingBody_run v lpc tpc X i s :
  i + 1 < length X ->
  leadingBody v lpc tpc X i s = Some (tt, s ++ leadingOut v lpc tpc X i).
Proof.
  intros HX. unfold leadingBody, leadingOut, bind, elem.
  read_note X i x0. read_note X (i + 1) x1.
  destruct (pc x0 =? lpc)%Z; simpl.
  - fold (resolves tpc x0 x1).
    destruct (resolves tpc x0 x1); simpl; unfold ret, push;
      rewrite ?app_nil_r; reflexivity.
  - unfold ret. now rewrite app_nil_r.
Qed.

(** [lintCounterpoint] never throws, and returns the issues of the
    passes in the order of the passes. *)
Theorem lintCounterpoint_run upperLine lowerLine keyStr :
  lintCounterpoint upperLine lowerLine keyStr
  = Some (lintOut upperLine lowerLine keyStr).
Proof.
  unfold lintCounterpoint, lintBody, lintOut, upperNotes, lowerNotes.
  destruct (parseKey keyStr) as [key|]; [|reflexivity].
  destruct (parseMelody upperLine) as [A parseA].
  destruct (parseMelody lowerLine) as [B parseB].
  unfold bind, pushAll, rulesOut, parallelPass, leapPass, leadingPass, lengthOut; simpl.
  set (s1 := parseA ++ parseB).
  assert (Hlm : exists s2,
    when (negb (length A =? length B))
         (push (mkIssue LengthMismatch None None
                        (lengthDetails (length A) (length B)))) s1
    = Some (tt, s2)
    /\ s2 = s1 ++ (if negb (length A =? length B)
                   then [mkIssue LengthMismatch None None
                                 (lengthDetails (length A) (length B))]
                   else [])).
  { destruct (negb (length A =? length B)); simpl; eexists; split;
      try reflexivity. now rewrite app_nil_r. }
  destruct Hlm as (s2 & -> & ->).
  rewrite (for_run (parallelOut A B))
    by (intros; apply parallelBody_run; lia).
  rewrite (for_run (leapOut Voice.A A)) by (intros; apply leapBody_run; lia).
  rewrite (for_run (leapOut Voice.B B)) by (intros; apply leapBody_run; lia).
  rewrite (for_run (leadingOut Voice.A (mod12 (tonicPC key - 1)) (tonicPC key) A))
    by (intros; apply leadingBody_run; lia).
  rewrite (for_run (leadingOut Voice.B (mod12 (tonicPC key - 1)) (tonicPC key) B))
    by (intros; apply leadingBody_run; lia).
  simpl. unfold s1. now rewrite <- !app_assoc.
Qed.

(* ================================================================== *)
(** ** Arithmetic of the program *)

(** [mod12] is the mathematical remainder, also on negative numbers. *)
Lemma mod12_spec (n : Z) : mod12 n = (n mod 12)%Z.
Proof.
  unfold mod12. Z.to_euclidean_division_equations. lia.
Qed.

Lemma mod12_range (n : Z) : (0 <= mod12 n < 12)%Z.
Proof.
  rewrite mod12_spec. apply Z.mod_pos_bound. lia.
Qed.

(* ================================================================== *)
(** ** The note and key patterns *)

Lemma jsstring_eqb_eq s t : jsstring_eqb s t = true <-> s = t.
Proof.
  revert t. induction s as [|c s IH]; intros [|d t]; simpl; try easy.
  rewrite andb_true_iff, N.eqb_eq, IH. split.
  - now intros [-> ->].
  - intros H. now inversion H.
Qed.

Lemma isOctave_signedDecimal s : isOctave s = true <-> signedDecimal s.
Proof.
  unfold isOctave, signedDecimal, optionalClass. split.
  - destruct s as [|c s]; [discriminate|].
    destruct (N.eqb_spec 0x2D c) as [<-|Hc]; cbn [snd];
      rewrite andb_true_iff; intros [Hne Hall].
    + exists s. split; [now right|]. split; [now destruct s|].
      now apply Forall_forall, forallb_forall.
    + exists (c :: s). split; [now left|]. split; [easy|].
      apply Forall_forall, forallb_forall. exact Hall.
  - intros (ds & Hs & Hne & Hall).
    assert (Hds : Boolean ds && forallb isDigit ds = true).
    { rewrite andb_true_iff. split; [now destruct ds|].
      apply forallb_forall, Forall_forall. exact Hall. }
    destruct Hs as [-> | ->].
    + destruct ds as [|d ds]; [easy|].
      destruct (N.eqb_spec 0x2D d) as [<-|_]; [|exact Hds].
      inversion Hall; subst. discriminate.
    + now rewrite N.eqb_refl.
Qed.

Lemma isLetterAG_cases l :
  isLetterAG l = true ->
  In l [0x41; 0x42; 0x43; 0x44; 0x45; 0x46; 0x47;
        0x61; 0x62; 0x63; 0x64; 0x65; 0x66; 0x67]%N.
Proof.
  unfold isLetterAG. rewrite orb_true_iff, !andb_true_iff, !N.leb_le.
  intros H. simpl.
  assert (l = 0x41 \/ l = 0x42 \/ l = 0x43 \/ l = 0x44 \/ l = 0x45
          \/ l = 0x46 \/ l = 0x47 \/ l = 0x61 \/ l = 0x62 \/ l = 0x63
          \/ l = 0x64 \/ l = 0x65 \/ l = 0x66 \/ l = 0x67)%N as Hl by lia.
  repeat (destruct Hl as [Hl|Hl]; [subst; tauto|]). subst; tauto.
Qed.

(** Every letter the patterns match is in the table. *)
Lemma lookup_letter l :
  isLetterAG l = true ->
  exists pc0, lookup (toUpperCase [l]) LETTER_TO_PC = Some pc0.
Proof.
  intros H. apply isLetterAG_cases in H. simpl in H.
  repeat (destruct H as [<-|H]; [eexists; vm_compute; reflexivity|]).
  destruct H.
Qed.

Lemma accidentalPC_matched l acc :
  isLetterAG l = true ->
  exists pc0, lookup (toUpperCase [l]) LETTER_TO_PC = Some pc0
              /\ accidentalPC (toUpperCase [l]) acc = Some (pc0 + accidentalShift acc)%Z.
Proof.
  intros H. destruct (lookup_letter l H) as [pc0 E]. exists pc0. split; [exact E|].
  unfold accidentalPC, accidentalShift. rewrite E.
  destruct (jsstring_eqb acc (u16 "#")); [reflexivity|].
  destruct (jsstring_eqb acc (u16 "b")); [reflexivity|].
  now rewrite Z.add_0_r.
Qed.

(** The note pattern matches exactly the texts made of a letter, an
    optional [#] or [b], and a signed decimal. *)
Lemma matchNote_inv s m :
  matchNote s = Some m ->
  exists l acc oct,
    s = l :: acc ++ oct /\ m = mkGroups [l] acc oct
    /\ isLetterAG l = true
    /\ (acc = [] \/ acc = u16 "#" \/ acc = u16 "b")
    /\ signedDecimal oct.
Proof.
  unfold matchNote. destruct s as [|l s1]; [discriminate|].
  destruct (isLetterAG l) eqn:Hl; [|discriminate].
  destruct (optionalClass isAccidental s1) as [acc s2] eqn:Hopt.
  destruct (isOctave s2) eqn:Hoct; [|discriminate].
  intros [= <-]. exists l, acc, s2.
  apply isOctave_signedDecimal in Hoct.
  unfold optionalClass in Hopt. destruct s1 as [|a r].
  - inversion Hopt; subst. repeat split; auto.
  - destruct (isAccidental a) eqn:Ha; inversion Hopt; subst.
    + repeat split; auto. right. unfold isAccidental in Ha.
      rewrite orb_true_iff, !N.eqb_eq in Ha. destruct Ha as [-> | ->]; auto.
    + repeat split; auto.
Qed.

Lemma matchNote_complete l acc oct :
  isLetterAG l = true ->
  acc = [] \/ acc = u16 "#" \/ acc = u16 "b" ->
  signedDecimal oct ->
  matchNote (l :: acc ++ oct) = Some (mkGroups [l] acc oct).
Proof.
  intros Hl Hacc Hoct. unfold matchNote. rewrite Hl.
  pose proof (proj2 (isOctave_signedDecimal oct) Hoct) as Ho.
  destruct Hacc as [-> | [-> | ->]]; simpl; rewrite ?Ho; try reflexivity.
  destruct Hoct as (ds & Hs & Hne & Hall).
  destruct oct as [|c oct']; [discriminate|]. simpl.
  assert (Hc : isAccidental c = false).
  { destruct Hs as [<- | Hs].
    - inversion Hall as [|? ? Hd _]; subst. unfold isDigit in Hd.
      unfold isAccidental. rewrite andb_true_iff, !N.leb_le in Hd.
      apply orb_false_iff. rewrite !N.eqb_neq. lia.
    - inversion Hs; subst. reflexivity. }
  now rewrite Hc, Ho.
Qed.

(** The key pattern matches a letter, an optional [#], [b] or [B], white
    space, and one of the two mode words in any case. *)
Lemma matchKey_inv s m :
  matchKey s = Some m ->
  exists l acc ws word,
    s = l :: acc ++ ws ++ word /\ m = mkGroups [l] acc word
    /\ isLetterAG l = true
    /\ (acc = [] \/ acc = u16 "#" \/ acc = u16 "b" \/ acc = u16 "B")
    /\ Forall (fun c => isWhiteSpace c = true) ws
    /\ isModeWord word = true.
Proof.
  unfold matchKey. destruct s as [|l s1]; [discriminate|].
  destruct (isLetterAG l) eqn:Hl; [|discriminate].
  destruct (optionalClass isAccidental_i s1) as [acc s2] eqn:Hopt.
  destruct (isModeWord (trimStart s2)) eqn:Hword; [|discriminate].
  intros [= <-].
  assert (Hws : exists ws, s2 = ws ++ trimStart s2
                           /\ Forall (fun c => isWhiteSpace c = true) ws).
  { clear. induction s2 as [|c s2 IH]; simpl.
    - exists []. now split.
    - destruct (isWhiteSpace c) eqn:Hc.
      + destruct IH as (ws & E & Hall). exists (c :: ws). split.
        * simpl. now rewrite <- E.
        * now constructor.
      + exists []. now split. }
  destruct Hws as (ws & Es2 & Hws).
  exists l, acc, ws, (trimStart s2).
  assert (Hacc : s1 = acc ++ s2
                 /\ (acc = [] \/ acc = u16 "#" \/ acc = u16 "b" \/ acc = u16 "B")).
  { unfold optionalClass in Hopt. destruct s1 as [|a r].
    - inversion Hopt; subst. auto.
    - destruct (isAccidental_i a) eqn:Ha; inversion Hopt; subst; auto.
      split; [reflexivity|]. right. unfold isAccidental_i, toUpperCase1 in Ha.
      rewrite orb_true_iff, N.eqb_eq in Ha. destruct Ha as [-> | Ha]; auto.
      right. simpl in Ha.
      destruct ((97 <=? a) && (a <=? 122))%N eqn:Hr.
      + apply N.eqb_eq in Ha. rewrite andb_true_iff, !N.leb_le in Hr.
        left. unfold u16; simpl. f_equal. lia.
      + apply N.eqb_eq in Ha. right. unfold u16; simpl. f_equal. exact Ha. }
  destruct Hacc as [-> Hacc]. rewrite <- Es2. repeat split; auto.
Qed.

Lemma parseNote_eq token :
  parseNote token
  = match matchNote (trim token) with
    | None => None
    | Some m =>
        match accidentalPC (toUpperCase (g1 m)) (g2 m) with
        | Some pc1 =>
            Some (mkNote token
                         (Number.add (Number.mul 12 (Number.add (parseInt (g3 m)) 1))
                                     (mod12 pc1))
                         (mod12 pc1))
        | None => None
        end
    end.
Proof.
  unfold parseNote, accidentalPC.
  destruct (matchNote (trim token)) as [m|]; [|reflexivity].
  destruct (lookup _ _); [|reflexivity].
  destruct (jsstring_eqb _ _); [reflexivity|].
  destruct (jsstring_eqb _ _); reflexivity.
Qed.

Lemma parseKey_eq keyStr :
  parseKey keyStr
  = match matchKey (trim keyStr) with
    | None => None
    | Some m =>
        match accidentalPC (toUpperCase (g1 m)) (g2 m) with
        | Some pc1 => Some (mkKey (mod12 pc1) (toLowerCase (g3 m)))
        | None => None
        end
    end.
Proof.
  unfold parseKey, accidentalPC.
  destruct (matchKey (trim keyStr)) as [m|]; [|reflexivity].
  destruct (lookup _ _); [|reflexivity].
  destruct (jsstring_eqb _ _); [reflexivity|].
  destruct (jsstring_eqb _ _); reflexivity.
Qed.

Lemma parseKey_range keyStr key :
  parseKey keyStr = Some key -> (0 <= tonicPC key < 12)%Z.
Proof.
  rewrite parseKey_eq. destruct (matchKey (trim keyStr)) as [m|]; [|discriminate].
  destruct (accidentalPC _ _) as [pc1|]; [|discriminate].
  intros [= <-]. simpl. apply mod12_range.
Qed.

(** [parseNote] fails exactly when the pattern does not match. *)
Lemma parseNote_None token :
  parseNote token = None <-> matchNote (trim token) = None.
Proof.
  rewrite parseNote_eq. destruct (matchNote (trim token)) as [m|] eqn:Hm; [|tauto].
  destruct (matchNote_inv _ _ Hm) as (l & acc & oct & _ & -> & Hl & _).
  destruct (accidentalPC_matched l acc Hl) as (pc0 & _ & E). cbn [g1 g2 g3].
  rewrite E. split; discriminate.
Qed.

Lemma parseKey_None keyStr :
  parseKey keyStr = None <-> matchKey (trim keyStr) = None.
Proof.
  rewrite parseKey_eq. destruct (matchKey (trim keyStr)) as [m|] eqn:Hm; [|tauto].
  destruct (matchKey_inv _ _ Hm) as (l & acc & ws & word & _ & -> & Hl & _).
  destruct (accidentalPC_matched l acc Hl) as (pc0 & _ & E). cbn [g1 g2 g3].
  rewrite E. split; discriminate.
Qed.

(** The note a successful [parseNote] builds. *)
Lemma parseNote_inv token n :
  parseNote token = Some n ->
  exists l acc oct pc0,
    trim token = l :: acc ++ oct
    /\ isLetterAG l = true
    /\ (acc = [] \/ acc = u16 "#" \/ acc = u16 "b")
    /\ signedDecimal oct
    /\ lookup (toUpperCase [l]) LETTER_TO_PC = Some pc0
    /\ raw n = token
    /\ midi n = Number.add (Number.mul 12 (Number.add (parseInt oct) 1))
                           (mod12 (pc0 + accidentalShift acc))
    /\ pc n = mod12 (pc0 + accidentalShift acc)
    /\ octaveOf token = oct.
Proof.
  rewrite parseNote_eq. unfold octaveOf. intros H.
  destruct (matchNote (trim token)) as [m|] eqn:Hm; [|discriminate].
  destruct (matchNote_inv _ _ Hm) as (l & acc & oct & Et & -> & Hl & Hacc & Hoct).
  destruct (accidentalPC_matched l acc Hl) as (pc0 & Elk & E).
  cbn [g1 g2 g3] in H. rewrite E in H. injection H as <-.
  exists l, acc, oct, pc0. repeat split; auto.
Qed.

(* ================================================================== *)
(** ** The range of the numbers *)

Lemma parseDigits_from ds :
  Forall (fun d => isDigit d = true) ds ->
  forall acc, (0 <= acc)%Z ->
    (0 <= fold_left (fun a d => 10 * a + digitValue d) ds acc
     <= acc * 10 ^ Z.of_nat (length ds) + (10 ^ Z.of_nat (length ds) - 1))%Z.
Proof.
  induction 1 as [|d ds Hd _ IH]; intros acc Hacc.
  - simpl. lia.
  - cbn [fold_left length]. rewrite Nat2Z.inj_succ, Z.pow_succ_r by lia.
    assert (0 <= digitValue d <= 9)%Z as Hv.
    { unfold isDigit in Hd. rewrite andb_true_iff, !N.leb_le in Hd.
      unfold digitValue. lia. }
    specialize (IH (10 * acc + digitValue d)%Z ltac:(lia)).
    pose proof (Z.pow_pos_nonneg 10 (Z.of_nat (length ds)) ltac:(lia) ltac:(lia)).
    nia.
Qed.

Lemma decimalValue_bound oct :
  signedDecimal oct -> (Z.abs (decimalValue oct) < 10 ^ Z.of_nat (length oct))%Z.
Proof.
  intros (ds & Hs & Hne & Hall).
  pose proof (parseDigits_from ds Hall 0%Z ltac:(lia)) as Hb.
  fold (parseDigits ds) in Hb.
  destruct Hs as [-> | ->].
  - destruct ds as [|d ds]; [easy|]. unfold decimalValue.
    inversion Hall as [|? ? Hd _]; subst.
    destruct (N.eqb_spec d 0x2D) as [->|_]; [discriminate|]. lia.
  - unfold decimalValue. rewrite N.eqb_refl.
    cbn [length]. rewrite Nat2Z.inj_succ, Z.pow_succ_r by lia.
    pose proof (Z.pow_pos_nonneg 10 (Z.of_nat (length ds)) ltac:(lia) ltac:(lia)).
    lia.
Qed.

(** With an octave in the exact range nothing rounds on the way to the
    pitch value. *)
Lemma midi_exact oct r :
  exactOctave oct -> (0 <= r < 12)%Z ->
  Number.add (Number.mul 12 (Number.add (parseInt oct) 1)) r
  = Number.Fin (12 * (decimalValue oct + 1) + r).
Proof.
  unfold exactOctave, parseInt. change (2 ^ 53)%Z with 9007199254740992%Z.
  intros Hoct Hr.
  rewrite (ofZ_exact (decimalValue oct))
    by (change (2 ^ 53)%Z with 9007199254740992%Z; lia).
  change (Number.add (Number.Fin (decimalValue oct)) 1)
    with (Number.ofZ (decimalValue oct + 1)).
  rewrite (ofZ_exact (decimalValue oct + 1))
    by (change (2 ^ 53)%Z with 9007199254740992%Z; lia).
  change (Number.mul 12 (Number.Fin (decimalValue oct + 1)))
    with (Number.ofZ (12 * (decimalValue oct + 1))).
  rewrite (ofZ_exact (12 * (decimalValue oct + 1)))
    by (change (2 ^ 53)%Z with 9007199254740992%Z; lia).
  change (Number.add (Number.Fin (12 * (decimalValue oct + 1))) r)
    with (Number.ofZ (12 * (decimalValue oct + 1) + r)).
  apply ofZ_exact. change (2 ^ 53)%Z with 9007199254740992%Z. lia.
Qed.

Lemma finite_midi x : finite x -> midi x = Number.Fin (midiZ x).
Proof. unfold finite, midiZ. now destruct (midi x). Qed.

Lemma midi_Fin x z : midi x = Number.Fin z -> finite x /\ midiZ x = z.
Proof. unfold finite, midiZ. now intros ->. Qed.

(** The octave of a token of at most fifteen code units is in the exact
    range, and the pitch value of its note is far inside the range in
    which doubles are exact integers; so are the sums and differences of
    two such values. *)
Lemma midi_safe token n :
  parseNote token = Some n ->
  length (trim token) <= 15 ->
  exactOctave (octaveOf token) /\ finite n /\ (Z.abs (midiZ n) < 2 ^ 52)%Z.
Proof.
  intros H Hlen.
  destruct (parseNote_inv token n H)
    as (l & acc & oct & pc0 & Et & _ & _ & Hoct & _ & _ & Em & _ & ->).
  pose proof (decimalValue_bound oct Hoct) as Hb.
  pose proof (mod12_range (pc0 + accidentalShift acc)) as Hr.
  rewrite Et in Hlen. cbn [length] in Hlen. rewrite length_app in Hlen.
  assert (10 ^ Z.of_nat (length oct) <= 10 ^ 14)%Z as Hp
    by (apply Z.pow_le_mono_r; lia).
  change (10 ^ 14)%Z with 100000000000000%Z in Hp.
  assert (Hex : exactOctave oct).
  { unfold exactOctave. change (2 ^ 53)%Z with 9007199254740992%Z. lia. }
  split; [exact Hex|].
  rewrite (midi_exact oct _ Hex Hr) in Em.
  destruct (midi_Fin _ _ Em) as [Hfin ->]. split; [exact Hfin|].
  change (2 ^ 52)%Z with 4503599627370496%Z. lia.
Qed.

(** The range conditions at given numbers. *)
Ltac in_range := repeat split; vm_compute; discriminate.

Lemma exactInterval_safe a b :
  finite a -> finite b ->
  (Z.abs (midiZ a) < 2 ^ 52)%Z -> (Z.abs (midiZ b) < 2 ^ 52)%Z ->
  exactInterval a b.
Proof.
  intros Ha Hb Ma Mb. repeat split; auto.
  change (2 ^ 52)%Z with 4503599627370496%Z in *.
  change (2 ^ 53)%Z with 9007199254740992%Z. lia.
Qed.

(* ================================================================== *)
(** ** The note parser *)

(** C5, within the range of exact integers.  For every token the note
    parser accepts, the text of the token (white space at its ends apart)
    is a letter A to G in either case, at most one accidental [#] or [b],
    and a signed decimal octave, and the pitch class of the note is that
    of the letter moved by the accidental and reduced into 0..11.  When
    the octave is in the exact range, [|12 * (octave + 1)| + 11 <= 2 ^ 53],
    the pitch value of the note is [12 * (octave + 1)] plus that pitch
    class, and the pitch class is the pitch value modulo 12, also when the
    octave is negative.  [C4] has pitch value 60, and [C#4] and [Db4] have
    the same pitch value. *)
Theorem parseNote_pitch (token : jsstring) (n : Note) :
  parseNote token = Some n ->
  (exists l acc pc0,
      trim token = l :: acc ++ octaveOf token
      /\ isLetterAG l = true
      /\ (acc = [] \/ acc = u16 "#" \/ acc = u16 "b")
      /\ signedDecimal (octaveOf token)
      /\ lookup (toUpperCase [l]) LETTER_TO_PC = Some pc0
      /\ pc n = ((pc0 + accidentalShift acc) mod 12)%Z
      /\ (exactOctave (octaveOf token) ->
          midi n = Number.Fin (12 * (decimalValue (octaveOf token) + 1)
                               + (pc0 + accidentalShift acc) mod 12)))
  /\ (0 <= pc n < 12)%Z
  /\ (exactOctave (octaveOf token) -> finite n /\ pc n = (midiZ n mod 12)%Z)
  /\ option_map midi (parseNote (u16 "C4")) = Some (Number.Fin 60)
  /\ option_map midi (parseNote (u16 "C#4")) = Some (Number.Fin 61)
  /\ option_map midi (parseNote (u16 "Db4")) = Some (Number.Fin 61).
Proof.
  intros H.
  destruct (parseNote_inv token n H)
    as (l & acc & oct & pc0 & Et & Hl & Hacc & Hoct & Elk & _ & Em & Ep & Eo).
  pose proof (mod12_range (pc0 + accidentalShift acc)) as Hr.
  rewrite Eo, Ep, mod12_spec in *.
  set (r := ((pc0 + accidentalShift acc) mod 12)%Z) in *.
  split; [|split; [exact Hr | split; [|repeat split]]].
  - exists l, acc, pc0. repeat split; auto.
    intros Hex. rewrite Em. now apply midi_exact.
  - intros Hex. rewrite (midi_exact oct r Hex Hr) in Em.
    destruct (midi_Fin _ _ Em) as [Hfin ->]. split; [exact Hfin|].
    replace (12 * (decimalValue oct + 1) + r)%Z
      with (r + (decimalValue oct + 1) * 12)%Z by lia.
    rewrite Z.mod_add by lia. symmetry. apply Z.mod_small. exact Hr.
Qed.

Lemma parseNote_pitch_witness :
  finite (mkNote (u16 "Bb-1") 10 10)
  /\ (pc (mkNote (u16 "Bb-1") 10 10) = midiZ (mkNote (u16 "Bb-1") 10 10) mod 12)%Z.
Proof.
  apply (proj1 (proj2 (proj2 (parseNote_pitch (u16 "Bb-1") _ eq_refl)))).
  vm_compute. discriminate.
Defined.

(** C5 as the specification words it, for every accepted token, fails
    where doubles round: the token [F750599937895083] is accepted, its
    octave gives [12 * (octave + 1) + 5 = 9007199254741013], which no double
    holds; the pitch value the program stores is 9007199254741012, whose
    residue modulo 12 is 4, while the pitch class it stores is 5. *)
Lemma parseNote_pitch_rounds :
  exists n,
    parseNote (u16 "F750599937895083") = Some n
    /\ decimalValue (octaveOf (u16 "F750599937895083")) = 750599937895083%Z
    /\ pc n = 5%Z
    /\ (12 * (750599937895083 + 1) + pc n = 9007199254741013)%Z
    /\ midi n = Number.Fin 9007199254741012
    /\ midi n <> Number.Fin (12 * (750599937895083 + 1) + pc n)
    /\ (midiZ n mod 12 = 4)%Z
    /\ pc n <> (midiZ n mod 12)%Z.
Proof.
  eexists. split; [vm_compute; reflexivity|].
  repeat split; vm_compute; discriminate || reflexivity.
Qed.

(** Every token of the grammar is accepted. *)
Lemma parseNote_accepts l acc oct :
  isLetterAG l = true ->
  acc = [] \/ acc = u16 "#" \/ acc = u16 "b" ->
  signedDecimal oct ->
  trim (l :: acc ++ oct) = l :: acc ++ oct ->
  exists n, parseNote (l :: acc ++ oct) = Some n.
Proof.
  intros Hl Hacc Hoct Htrim. rewrite parseNote_eq.
  rewrite Htrim, (matchNote_complete l acc oct Hl Hacc Hoct). cbn [g1 g2 g3].
  destruct (accidentalPC_matched l acc Hl) as (pc0 & _ & ->). eauto.
Qed.

(* ================================================================== *)
(** ** The key parser *)

(** On the accidentals of the note grammar the key parser derives the
    pitch class the note parser derives. *)
Lemma parseKey_parseNote_agree l acc :
  isLetterAG l = true ->
  acc = [] \/ acc = u16 "#" \/ acc = u16 "b" ->
  option_map tonicPC (parseKey (l :: acc ++ u16 " major"))
  = option_map pc (parseNote (l :: acc ++ u16 "4")).
Proof.
  intros Hl Hacc. apply isLetterAG_cases in Hl. simpl in Hl.
  repeat (destruct Hl as [<-|Hl];
          [destruct Hacc as [-> | [-> | ->]]; vm_compute; reflexivity|]).
  destruct Hl.
Qed.

(** C9.  The key parser is to accept the accidental spellings of the
    note parser and to derive the same pitch class.  It departs from that
    on an upper-case [B]: the key pattern carries the [i] flag, so its
    accidental class also matches [B], which the note pattern rejects; the
    comparison [acc === 'b'] then misses it and the letter is read as a
    natural.  The key [CB major] is read as C major, where [Cb major] has
    tonic 11 and the note parser refuses [CB4] and reads [Cb4] as 11. *)
Theorem parseKey_uppercase_flat :
  parseKey (u16 "CB major") = Some (mkKey 0 (u16 "major"))
  /\ option_map tonicPC (parseKey (u16 "Cb major")) = Some 11%Z
  /\ parseNote (u16 "CB4") = None
  /\ option_map pc (parseNote (u16 "Cb4")) = Some 11%Z.
Proof. repeat split. Qed.

(** C2.  When the key fails to parse, the analyzer returns exactly one
    issue, of kind ParseError, whatever the two lines hold. *)
Theorem lint_key_failure (upperLine lowerLine keyStr : jsstring) :
  parseKey keyStr = None ->
  lintCounterpoint upperLine lowerLine keyStr
  = Some [mkIssue ParseError None None (keyDetails keyStr)].
Proof.
  intros H. rewrite lintCounterpoint_run. unfold lintOut. now rewrite H.
Qed.

Lemma lint_key_failure_witness :
  lintCounterpoint (u16 "C4 D4") (u16 "E3 F3") (u16 "Z major")
  = Some [mkIssue ParseError None None (keyDetails (u16 "Z major"))].
Proof.
  apply (lint_key_failure (u16 "C4 D4") (u16 "E3 F3") (u16 "Z major")).
  reflexivity.
Defined.

(* ================================================================== *)
(** ** Reading the returned array *)

Lemma IssueType_eqb_eq a b : IssueType_eqb a b = true <-> a = b.
Proof. destruct a, b; simpl; split; congruence. Qed.

Lemma Voice_eqb_eq v w : Voice_eqb v w = true <-> v = w.
Proof. destruct v, w; simpl; split; congruence. Qed.

Lemma isAt_true ty i iss :
  isAt ty i iss = true <-> type iss = ty /\ index iss = Some i.
Proof.
  unfold isAt. rewrite andb_true_iff, IssueType_eqb_eq.
  destruct (index iss) as [j|].
  - rewrite Nat.eqb_eq. split; intros [H1 H2]; split; congruence.
  - split; intros [_ H]; discriminate.
Qed.

Lemma isFor_true ty v i iss :
  isFor ty v i iss = true
  <-> type iss = ty /\ voice iss = Some v /\ index iss = Some i.
Proof.
  unfold isFor. rewrite andb_true_iff, isAt_true.
  destruct (voice iss) as [w|].
  - rewrite Voice_eqb_eq. split.
    + intros [[H1 H2] H3]. subst. auto.
    + intros (H1 & H2 & H3). injection H2 as ->. auto.
  - split; [intros [_ H] | intros (_ & H & _)]; discriminate.
Qed.

Lemma count_pos p l : 0 < count p l <-> exists x, In x l /\ p x = true.
Proof.
  unfold count. split.
  - destruct (filter p l) as [|x r] eqn:E; simpl; [lia|]. intros _.
    exists x. apply filter_In. rewrite E. now left.
  - intros (x & Hx & Hp).
    assert (In x (filter p l)) as Hin by (apply filter_In; auto).
    destruct (filter p l); [destruct Hin | simpl; lia].
Qed.

Lemma emitsAt_count ty i l : emitsAt ty i l <-> 0 < count (isAt ty i) l.
Proof.
  rewrite count_pos. unfold emitsAt.
  split; intros (x & Hx & H); exists x; split; auto; now apply isAt_true.
Qed.

Lemma emitsFor_count ty v i l : emitsFor ty v i l <-> 0 < count (isFor ty v i) l.
Proof.
  rewrite count_pos. unfold emitsFor.
  split; intros (x & Hx & H); exists x; split; auto; now apply isFor_true.
Qed.

Lemma count_app p l1 l2 : count p (l1 ++ l2) = count p l1 + count p l2.
Proof. unfold count. now rewrite filter_app, length_app. Qed.

Lemma count_none p l : (forall x, In x l -> p x = false) -> count p l = 0.
Proof.
  unfold count. induction l as [|x l IH]; intros H; simpl; [reflexivity|].
  rewrite (H x) by now left. apply IH. intros y Hy. apply H. now right.
Qed.

Lemma pass_S out n : pass out (S n) = pass out n ++ out n.
Proof.
  unfold pass. rewrite seq_S, flat_map_app. simpl. now rewrite app_nil_r.
Qed.

Lemma In_pass iss out n :
  In iss (pass out n) <-> exists j, j < n /\ In iss (out j).
Proof.
  unfold pass. rewrite in_flat_map. split.
  - intros (j & Hj & Hin). apply in_seq in Hj. exists j. split; [lia|auto].
  - intros (j & Hj & Hin). exists j. split; [apply in_seq; lia|auto].
Qed.

(** A test that only issues of iteration [i] can pass counts, over the
    whole loop, what iteration [i] pushed. *)
Lemma count_pass p out n i :
  (forall j x, In x (out j) -> p x = true -> j = i) ->
  count p (pass out n) = if i <? n then count p (out i) else 0.
Proof.
  intros Honly.
  assert (Hother : forall j, j <> i -> count p (out j) = 0).
  { intros j Hj. apply count_none. intros x Hx.
    destruct (p x) eqn:Hp; [|reflexivity].
    exfalso. apply Hj. eapply Honly; eauto. }
  induction n as [|n IH]; [reflexivity|].
  rewrite pass_S, count_app, IH.
  destruct (Nat.ltb_spec i n), (Nat.ltb_spec i (S n)); try lia.
  - rewrite (Hother n) by lia. lia.
  - assert (i = n) as -> by lia. reflexivity.
  - rewrite (Hother n) by lia. lia.
Qed.

Lemma ascendingFrom_weaken lo lo' l :
  lo <= lo' -> ascendingFrom lo' l -> ascendingFrom lo l.
Proof.
  destruct l as [|iss l]; simpl; [auto|].
  intros Hle (i & Hi & Hlo & Hrest). exists i. repeat split; auto. lia.
Qed.

Lemma ascendingFrom_index lo l iss :
  ascendingFrom lo l -> In iss l -> exists i, index iss = Some i /\ lo <= i.
Proof.
  revert lo. induction l as [|x l IH]; intros lo Hasc Hin; [destruct Hin|].
  destruct Hasc as (i & Hi & Hlo & Hrest). destruct Hin as [<- | Hin].
  - eauto.
  - destruct (IH _ Hrest Hin) as (j & Hj & Hle). exists j. split; [auto|lia].
Qed.

(** A loop whose iteration [j] pushes at most one issue, with index [j],
    pushes issues of strictly ascending index. *)
Lemma pass_ascendingFrom out :
  (forall j, out j = [] \/ exists iss, out j = [iss] /\ index iss = Some j) ->
  forall n lo, ascendingFrom lo (flat_map out (seq lo n)).
Proof.
  intros Hout. induction n as [|n IH]; intros lo; simpl; [exact I|].
  destruct (Hout lo) as [-> | (iss & -> & Hidx)]; simpl.
  - apply ascendingFrom_weaken with (S lo); [lia | apply IH].
  - exists lo. repeat split; auto.
Qed.

Lemma pass_ascending out n :
  (forall j, out j = [] \/ exists iss, out j = [iss] /\ index iss = Some j) ->
  ascending (pass out n).
Proof. intros H. now apply pass_ascendingFrom. Qed.

(* ================================================================== *)
(** ** What [parseMelody] returns *)

Lemma forEachToken_spec tokens :
  forall i notes issues,
    forEachToken tokens i notes issues
    = (notes ++ tokenNotes tokens, issues ++ tokenErrors tokens i).
Proof.
  induction tokens as [|t rest IH]; intros i notes issues; simpl.
  - now rewrite !app_nil_r.
  - destruct (parseNote t) as [n|]; rewrite IH, <- app_assoc; reflexivity.
Qed.

Lemma parseMelody_notes line : fst (parseMelody line) = tokenNotes (tokensOf line).
Proof. unfold parseMelody. now rewrite forEachToken_spec. Qed.

Lemma parseMelody_issues line :
  snd (parseMelody line) = tokenErrors (tokensOf line) 0.
Proof. unfold parseMelody. now rewrite forEachToken_spec. Qed.

(** Each error is that of a token that does not parse, at the place of
    the token among the tokens of the line. *)
Lemma tokenErrors_In tokens :
  forall i iss,
    In iss (tokenErrors tokens i) ->
    exists j t, iss = parseErrorIssue (i + j) t
                /\ nth_error tokens j = Some t /\ parseNote t = None.
Proof.
  induction tokens as [|t rest IH]; intros i iss Hin; [destruct Hin|].
  simpl in Hin. destruct (parseNote t) as [n|] eqn:Ht.
  - destruct (IH _ _ Hin) as (j & t' & -> & Hj & Hp).
    exists (S j), t'. repeat split; auto. f_equal. lia.
  - destruct Hin as [<- | Hin].
    + exists 0, t. repeat split; auto. f_equal. lia.
    + destruct (IH _ _ Hin) as (j & t' & -> & Hj & Hp).
      exists (S j), t'. repeat split; auto. f_equal. lia.
Qed.

Lemma tokenErrors_ascending tokens :
  forall i, ascendingFrom i (tokenErrors tokens i).
Proof.
  induction tokens as [|t rest IH]; intros i; simpl; [exact I|].
  destruct (parseNote t).
  - apply ascendingFrom_weaken with (S i); [lia | apply IH].
  - simpl. exists i. repeat split; auto.
Qed.

Lemma parse_issue_kind line iss :
  In iss (snd (parseMelody line)) ->
  type iss = ParseError /\ voice iss = None.
Proof.
  rewrite parseMelody_issues. intros H.
  destruct (tokenErrors_In _ _ _ H) as (j & t & -> & _). now split.
Qed.

(* ================================================================== *)
(** ** What one iteration pushes *)

Lemma atMostOne_In ok l x : atMostOne ok l -> In x l -> ok x.
Proof.
  intros [-> | (iss & -> & H)] Hin; [destruct Hin|].
  destruct Hin as [<- | []]. exact H.
Qed.

Lemma atMostOne_index ok l j :
  atMostOne ok l -> (forall x, ok x -> index x = Some j) ->
  l = [] \/ exists iss, l = [iss] /\ index iss = Some j.
Proof.
  intros [-> | (iss & -> & H)] Hidx; [now left|].
  right. exists iss. split; auto.
Qed.

(** The two interval classes exclude each other. *)
Lemma bothClass_exclusive a0 b0 a1 b1 :
  bothClass 7 a0 b0 a1 b1 = true -> bothClass 0 a0 b0 a1 b1 = false.
Proof.
  unfold bothClass.
  destruct (mod12N (Number.abs (Number.sub (midi a0) (midi b0)))) as [z|?|];
    simpl; try discriminate.
  rewrite andb_true_iff, Z.eqb_eq. intros [-> _]. reflexivity.
Qed.

Lemma parallelOut_shape A B j :
  atMostOne (fun iss => (type iss = Parallel5ths \/ type iss = Parallel8ves)
                        /\ voice iss = None /\ index iss = Some j)
            (parallelOut A B j).
Proof.
  unfold parallelOut, atMostOne.
  destruct (nth_error A j) as [a0|]; [|now left].
  destruct (nth_error B j) as [b0|]; [|now left].
  destruct (nth_error A (j + 1)) as [a1|]; [|now left].
  destruct (nth_error B (j + 1)) as [b1|]; [|now left].
  destruct (similar a0 b0 a1 b1); simpl; [|now left].
  destruct (bothClass 7 a0 b0 a1 b1) eqn:H7.
  - rewrite (bothClass_exclusive _ _ _ _ H7). right. eexists. simpl. eauto.
  - destruct (bothClass 0 a0 b0 a1 b1); [right; eexists; simpl; eauto | now left].
Qed.

Lemma leapOut_shape v X j :
  atMostOne (fun iss => type iss = LeapOverOctave
                        /\ voice iss = Some v /\ index iss = Some j)
            (leapOut v X j).
Proof.
  unfold leapOut, atMostOne.
  destruct (nth_error X j) as [x0|]; [|now left].
  destruct (nth_error X (j + 1)) as [x1|]; [|now left].
  destruct (Number.gtb (leapOf x0 x1) 12); [right; eexists; simpl; eauto | now left].
Qed.

Lemma leadingOut_shape v lpc tpc X j :
  atMostOne (fun iss => type iss = UnresolvedLeadingTone
                        /\ voice iss = Some v /\ index iss = Some j)
            (leadingOut v lpc tpc X j).
Proof.
  unfold leadingOut, atMostOne.
  destruct (nth_error X j) as [x0|]; [|now left].
  destruct (nth_error X (j + 1)) as [x1|]; [|now left].
  destruct ((pc x0 =? lpc)%Z && negb (resolves tpc x0 x1));
    [right; eexists; simpl; eauto | now left].
Qed.

Lemma lengthOut_kind A B iss :
  In iss (lengthOut A B) -> type iss = LengthMismatch /\ voice iss = None.
Proof.
  unfold lengthOut. destruct (negb (length A =? length B)); [|intros []].
  intros [<- | []]. now split.
Qed.

Lemma parallel_pass_kind A B n iss :
  In iss (pass (parallelOut A B) n) ->
  exists j, j < n /\ (type iss = Parallel5ths \/ type iss = Parallel8ves)
            /\ voice iss = None /\ index iss = Some j.
Proof.
  intros H. apply In_pass in H. destruct H as (j & Hj & Hin).
  exists j. split; [exact Hj|].
  exact (atMostOne_In _ _ _ (parallelOut_shape A B j) Hin).
Qed.

Lemma leap_pass_kind v X n iss :
  In iss (pass (leapOut v X) n) ->
  exists j, j < n /\ type iss = LeapOverOctave
            /\ voice iss = Some v /\ index iss = Some j.
Proof.
  intros H. apply In_pass in H. destruct H as (j & Hj & Hin).
  exists j. split; [exact Hj|].
  exact (atMostOne_In _ _ _ (leapOut_shape v X j) Hin).
Qed.

Lemma leading_pass_kind v lpc tpc X n iss :
  In iss (pass (leadingOut v lpc tpc X) n) ->
  exists j, j < n /\ type iss = UnresolvedLeadingTone
            /\ voice iss = Some v /\ index iss = Some j.
Proof.
  intros H. apply In_pass in H. destruct H as (j & Hj & Hin).
  exists j. split; [exact Hj|].
  exact (atMostOne_In _ _ _ (leadingOut_shape v lpc tpc X j) Hin).
Qed.

(* ================================================================== *)
(** ** Counting in the returned array *)

Lemma lintOut_parsed upperLine lowerLine keyStr key :
  parseKey keyStr = Some key ->
  lintOut upperLine lowerLine keyStr
  = snd (parseMelody upperLine) ++ snd (parseMelody lowerLine)
    ++ lengthOut (upperNotes upperLine) (lowerNotes lowerLine)
    ++ parallelPass (upperNotes upperLine) (lowerNotes lowerLine)
    ++ leapPass Voice.A (upperNotes upperLine)
    ++ leapPass Voice.B (lowerNotes lowerLine)
    ++ leadingPass Voice.A key (upperNotes upperLine)
    ++ leadingPass Voice.B key (lowerNotes lowerLine).
Proof. intros H. unfold lintOut, rulesOut. now rewrite H. Qed.

(** None of the issues of a pass is of the kind a test selects. *)
Ltac off_kind :=
  let x := fresh "x" in
  let H := fresh "H" in
  let Ht := fresh "Ht" in
  let Hv := fresh "Hv" in
  intros x H;
  first
    [ apply parse_issue_kind in H as [Ht Hv]
    | apply lengthOut_kind in H as [Ht Hv]
    | apply parallel_pass_kind in H as (? & _ & [Ht|Ht] & Hv & _)
    | apply leap_pass_kind in H as (? & _ & Ht & Hv & _)
    | apply leading_pass_kind in H as (? & _ & Ht & Hv & _) ];
  unfold isFor, isAt, isType; rewrite Ht, ?Hv; simpl;
  rewrite ?andb_false_r; reflexivity.

Lemma count_parallel upperLine lowerLine keyStr key ty i :
  parseKey keyStr = Some key ->
  ty = Parallel5ths \/ ty = Parallel8ves ->
  let A := upperNotes upperLine in
  let B := lowerNotes lowerLine in
  count (isAt ty i) (lintOut upperLine lowerLine keyStr)
  = if i <? Nat.min (length A) (length B) - 1
    then count (isAt ty i) (parallelOut A B i) else 0.
Proof.
  intros Hkey Hty A B. rewrite (lintOut_parsed _ _ _ _ Hkey), !count_app.
  fold A B.
  rewrite (count_none _ (snd (parseMelody upperLine)))
    by (destruct Hty; subst; off_kind).
  rewrite (count_none _ (snd (parseMelody lowerLine)))
    by (destruct Hty; subst; off_kind).
  rewrite (count_none _ (lengthOut A B)) by (destruct Hty; subst; off_kind).
  rewrite (count_none _ (leapPass Voice.A A)) by (destruct Hty; subst; off_kind).
  rewrite (count_none _ (leapPass Voice.B B)) by (destruct Hty; subst; off_kind).
  rewrite (count_none _ (leadingPass Voice.A key A))
    by (destruct Hty; subst; off_kind).
  rewrite (count_none _ (leadingPass Voice.B key B))
    by (destruct Hty; subst; off_kind).
  unfold parallelPass. rewrite (count_pass _ _ _ i); [simpl; lia|].
  intros j x Hx Hp. apply isAt_true in Hp.
  pose proof (atMostOne_In _ _ _ (parallelOut_shape A B j) Hx) as (_ & _ & Hj).
  destruct Hp as [_ Hp]. congruence.
Qed.

Lemma count_leap upperLine lowerLine keyStr key v i :
  parseKey keyStr = Some key ->
  let X := notesOf v upperLine lowerLine in
  count (isFor LeapOverOctave v i) (lintOut upperLine lowerLine keyStr)
  = if i <? length X - 1
    then count (isFor LeapOverOctave v i) (leapOut v X i) else 0.
Proof.
  intros Hkey X. rewrite (lintOut_parsed _ _ _ _ Hkey), !count_app.
  rewrite (count_none _ (snd (parseMelody upperLine))) by off_kind.
  rewrite (count_none _ (snd (parseMelody lowerLine))) by off_kind.
  rewrite (count_none _ (lengthOut _ _)) by off_kind.
  rewrite (count_none _ (parallelPass _ _)) by off_kind.
  rewrite (count_none _ (leadingPass Voice.A key _)) by off_kind.
  rewrite (count_none _ (leadingPass Voice.B key _)) by off_kind.
  assert (Hone : forall w Y j x,
             In x (leapOut w Y j) -> isFor LeapOverOctave v i x = true ->
             w = v /\ j = i).
  { intros w Y j x Hx Hp. apply isFor_true in Hp.
    pose proof (atMostOne_In _ _ _ (leapOut_shape w Y j) Hx) as (_ & Hw & Hj).
    destruct Hp as (_ & Hv & Hi). split; congruence. }
  destruct v; subst X; simpl notesOf.
  - rewrite (count_none _ (leapPass Voice.B _)) by off_kind.
    unfold leapPass. rewrite (count_pass _ _ _ i); [simpl; lia|].
    intros j x Hx Hp. now apply (Hone _ _ _ _ Hx Hp).
  - rewrite (count_none _ (leapPass Voice.A _)) by off_kind.
    unfold leapPass. rewrite (count_pass _ _ _ i); [simpl; lia|].
    intros j x Hx Hp. now apply (Hone _ _ _ _ Hx Hp).
Qed.

Lemma count_leading upperLine lowerLine keyStr key v i :
  parseKey keyStr = Some key ->
  let X := notesOf v upperLine lowerLine in
  count (isFor UnresolvedLeadingTone v i) (lintOut upperLine lowerLine keyStr)
  = if i <? length X - 1
    then count (isFor UnresolvedLeadingTone v i)
               (leadingOut v (mod12 (tonicPC key - 1)) (tonicPC key) X i)
    else 0.
Proof.
  intros Hkey X. rewrite (lintOut_parsed _ _ _ _ Hkey), !count_app.
  rewrite (count_none _ (snd (parseMelody upperLine))) by off_kind.
  rewrite (count_none _ (snd (parseMelody lowerLine))) by off_kind.
  rewrite (count_none _ (lengthOut _ _)) by off_kind.
  rewrite (count_none _ (parallelPass _ _)) by off_kind.
  rewrite (count_none _ (leapPass Voice.A _)) by off_kind.
  rewrite (count_none _ (leapPass Voice.B _)) by off_kind.
  assert (Hone : forall w Y j x,
             In x (leadingOut w (mod12 (tonicPC key - 1)) (tonicPC key) Y j) ->
             isFor UnresolvedLeadingTone v i x = true -> w = v /\ j = i).
  { intros w Y j x Hx Hp. apply isFor_true in Hp.
    pose proof (atMostOne_In _ _ _ (leadingOut_shape w _ _ Y j) Hx)
      as (_ & Hw & Hj).
    destruct Hp as (_ & Hv & Hi). split; congruence. }
  destruct v; subst X; simpl notesOf.
  - rewrite (count_none _ (leadingPass Voice.B key _)) by off_kind.
    unfold leadingPass. rewrite (count_pass _ _ _ i); [simpl; lia|].
    intros j x Hx Hp. now apply (Hone _ _ _ _ Hx Hp).
  - rewrite (count_none _ (leadingPass Voice.A key _)) by off_kind.
    unfold leadingPass. rewrite (count_pass _ _ _ i); [simpl; lia|].
    intros j x Hx Hp. now apply (Hone _ _ _ _ Hx Hp).
Qed.

Lemma count_length upperLine lowerLine keyStr key :
  parseKey keyStr = Some key ->
  filter (isType LengthMismatch) (lintOut upperLine lowerLine keyStr)
  = lengthOut (upperNotes upperLine) (lowerNotes lowerLine).
Proof.
  intros Hkey. rewrite (lintOut_parsed _ _ _ _ Hkey), !filter_app.
  assert (Hnone : forall l, count (isType LengthMismatch) l = 0 ->
                            filter (isType LengthMismatch) l = []).
  { unfold count. intros l H. now destruct (filter _ l). }
  rewrite (Hnone (snd (parseMelody upperLine))) by (apply count_none; off_kind).
  rewrite (Hnone (snd (parseMelody lowerLine))) by (apply count_none; off_kind).
  rewrite (Hnone (parallelPass _ _)) by (apply count_none; off_kind).
  rewrite (Hnone (leapPass Voice.A _)) by (apply count_none; off_kind).
  rewrite (Hnone (leapPass Voice.B _)) by (apply count_none; off_kind).
  rewrite (Hnone (leadingPass Voice.A key _)) by (apply count_none; off_kind).
  rewrite (Hnone (leadingPass Voice.B key _)) by (apply count_none; off_kind).
  simpl. rewrite app_nil_r. unfold lengthOut.
  now destruct (negb (length _ =? length _)).
Qed.

(* ================================================================== *)
(** ** Rule 1: parallel fifths and octaves *)

Lemma similar_spec a0 b0 a1 b1 :
  finite a0 -> finite b0 -> finite a1 -> finite b1 ->
  similar a0 b0 a1 b1 = true
  <-> (Z.sgn (midiZ a1 - midiZ a0) <> 0
       /\ Z.sgn (midiZ b1 - midiZ b0) <> 0
       /\ Z.sgn (midiZ a1 - midiZ a0) = Z.sgn (midiZ b1 - midiZ b0))%Z.
Proof.
  intros Fa0 Fb0 Fa1 Fb1. unfold similar.
  rewrite (finite_midi _ Fa0), (finite_midi _ Fb0),
    (finite_midi _ Fa1), (finite_midi _ Fb1), !signN_sub.
  cbn [Number.eqb].
  rewrite !andb_true_iff, !negb_true_iff, !Z.eqb_neq, Z.eqb_eq. tauto.
Qed.

Lemma bothClass_spec c a0 b0 a1 b1 :
  exactInterval a0 b0 -> exactInterval a1 b1 ->
  bothClass c a0 b0 a1 b1 = true
  <-> (Z.abs (midiZ a0 - midiZ b0) mod 12 = c
       /\ Z.abs (midiZ a1 - midiZ b1) mod 12 = c)%Z.
Proof.
  intros (Fa0 & Fb0 & H0) (Fa1 & Fb1 & H1). unfold bothClass.
  rewrite (finite_midi _ Fa0), (finite_midi _ Fb0),
    (finite_midi _ Fa1), (finite_midi _ Fb1).
  rewrite !sub_exact by assumption. cbn [Number.abs].
  rewrite !mod12N_Fin. cbn [Number.eqb].
  now rewrite andb_true_iff, !Z.eqb_eq, !mod12_spec.
Qed.

Lemma nth_error_lt (X : list Note) i x : nth_error X i = Some x -> i < length X.
Proof. intros H. apply nth_error_Some. congruence. Qed.

Lemma count_if (p : Issue -> bool) (b : bool) iss :
  p iss = true -> count p (if b then [iss] else []) = if b then 1 else 0.
Proof. intros H. destruct b; unfold count; simpl; now rewrite ?H. Qed.

Lemma count_if_off (p : Issue -> bool) (b : bool) iss :
  p iss = false -> count p (if b then [iss] else []) = 0.
Proof. intros H. destruct b; unfold count; simpl; now rewrite ?H. Qed.

Lemma parallelOut_count A B i a0 b0 a1 b1 c ty :
  nth_error A i = Some a0 -> nth_error A (i + 1) = Some a1 ->
  nth_error B i = Some b0 -> nth_error B (i + 1) = Some b1 ->
  (ty = Parallel5ths /\ c = 7%Z) \/ (ty = Parallel8ves /\ c = 0%Z) ->
  count (isAt ty i) (parallelOut A B i)
  = if similar a0 b0 a1 b1 && bothClass c a0 b0 a1 b1 then 1 else 0.
Proof.
  intros Ea0 Ea1 Eb0 Eb1 Hty. unfold parallelOut.
  rewrite Ea0, Ea1, Eb0, Eb1, count_app.
  destruct Hty as [[-> ->] | [-> ->]].
  - rewrite count_if, count_if_off; [lia | |];
      unfold isAt; simpl; now rewrite ?Nat.eqb_refl.
  - rewrite count_if_off, count_if; [lia | |];
      unfold isAt; simpl; now rewrite ?Nat.eqb_refl.
Qed.

(** What rule 1 returns at an index of the common prefix, in the
    Numbers of the program. *)
Lemma parallel_emits upperLine lowerLine keyStr key i a0 a1 b0 b1 c ty :
  parseKey keyStr = Some key ->
  nth_error (upperNotes upperLine) i = Some a0 ->
  nth_error (upperNotes upperLine) (i + 1) = Some a1 ->
  nth_error (lowerNotes lowerLine) i = Some b0 ->
  nth_error (lowerNotes lowerLine) (i + 1) = Some b1 ->
  (ty = Parallel5ths /\ c = 7%Z) \/ (ty = Parallel8ves /\ c = 0%Z) ->
  emitsAt ty i (lintOut upperLine lowerLine keyStr)
  <-> similar a0 b0 a1 b1 && bothClass c a0 b0 a1 b1 = true.
Proof.
  intros Hkey Ea0 Ea1 Eb0 Eb1 Hty.
  pose proof (nth_error_lt _ _ _ Ea1) as HA.
  pose proof (nth_error_lt _ _ _ Eb1) as HB.
  assert (Hin : (i <? Nat.min (length (upperNotes upperLine))
                              (length (lowerNotes lowerLine)) - 1) = true)
    by (apply Nat.ltb_lt; lia).
  rewrite emitsAt_count, (count_parallel _ _ _ key)
    by (auto; destruct Hty as [[-> _] | [-> _]]; auto).
  cbv zeta. rewrite Hin.
  rewrite (parallelOut_count _ _ _ a0 b0 a1 b1 c) by auto.
  destruct (similar a0 b0 a1 b1 && bothClass c a0 b0 a1 b1);
    split; (lia || congruence).
Qed.

(** The same on the integers, where the intervals are exact. *)
Lemma parallel_emits_iff upperLine lowerLine keyStr key i a0 a1 b0 b1 c ty :
  parseKey keyStr = Some key ->
  nth_error (upperNotes upperLine) i = Some a0 ->
  nth_error (upperNotes upperLine) (i + 1) = Some a1 ->
  nth_error (lowerNotes lowerLine) i = Some b0 ->
  nth_error (lowerNotes lowerLine) (i + 1) = Some b1 ->
  exactInterval a0 b0 -> exactInterval a1 b1 ->
  (ty = Parallel5ths /\ c = 7%Z) \/ (ty = Parallel8ves /\ c = 0%Z) ->
  emitsAt ty i (lintOut upperLine lowerLine keyStr)
  <-> ((Z.sgn (midiZ a1 - midiZ a0) <> 0
        /\ Z.sgn (midiZ b1 - midiZ b0) <> 0
        /\ Z.sgn (midiZ a1 - midiZ a0) = Z.sgn (midiZ b1 - midiZ b0))
       /\ Z.abs (midiZ a0 - midiZ b0) mod 12 = c
       /\ Z.abs (midiZ a1 - midiZ b1) mod 12 = c)%Z.
Proof.
  intros Hkey Ea0 Ea1 Eb0 Eb1 X0 X1 Hty.
  rewrite (parallel_emits _ _ _ key i a0 a1 b0 b1 c ty) by auto.
  rewrite andb_true_iff, (bothClass_spec c a0 b0 a1 b1 X0 X1).
  destruct X0 as (Fa0 & Fb0 & _), X1 as (Fa1 & Fb1 & _).
  rewrite (similar_spec a0 b0 a1 b1) by assumption. tauto.
Qed.

(** C1, within the range of exact integers.  At every pair of aligned
    adjacent positions [i], [i + 1] of the two parsed voices at which the
    pitch values are finite and the two intervals between the voices are
    at most [2 ^ 53], the analyzer emits Parallel5ths at index [i] exactly
    when the step directions of both voices are nonzero and equal and the
    absolute intervals between the voices at [i] and at [i + 1] are both
    congruent to 7 modulo 12; it emits Parallel8ves at index [i] exactly
    when the same motion holds and both intervals are congruent to 0
    modulo 12.  When the directions differ or a voice repeats its note, no
    parallel issue is emitted at [i]. *)
Theorem parallel_rule (upperLine lowerLine keyStr : jsstring) (key : Key)
        (i : nat) (a0 a1 b0 b1 : Note) :
  parseKey keyStr = Some key ->
  nth_error (upperNotes upperLine) i = Some a0 ->
  nth_error (upperNotes upperLine) (i + 1) = Some a1 ->
  nth_error (lowerNotes lowerLine) i = Some b0 ->
  nth_error (lowerNotes lowerLine) (i + 1) = Some b1 ->
  exactInterval a0 b0 ->
  exactInterval a1 b1 ->
  let dirA := Z.sgn (midiZ a1 - midiZ a0) in
  let dirB := Z.sgn (midiZ b1 - midiZ b0) in
  let int1 := Z.abs (midiZ a0 - midiZ b0) in
  let int2 := Z.abs (midiZ a1 - midiZ b1) in
  exists issues,
    lintCounterpoint upperLine lowerLine keyStr = Some issues
    /\ (emitsAt Parallel5ths i issues
        <-> (dirA <> 0 /\ dirB <> 0 /\ dirA = dirB)
            /\ int1 mod 12 = 7 /\ int2 mod 12 = 7)%Z
    /\ (emitsAt Parallel8ves i issues
        <-> (dirA <> 0 /\ dirB <> 0 /\ dirA = dirB)
            /\ int1 mod 12 = 0 /\ int2 mod 12 = 0)%Z
    /\ ((dirA <> dirB \/ dirA = 0 \/ dirB = 0)%Z ->
        ~ emitsAt Parallel5ths i issues /\ ~ emitsAt Parallel8ves i issues).
Proof.
  intros Hkey Ea0 Ea1 Eb0 Eb1 X0 X1 dirA dirB int1 int2.
  exists (lintOut upperLine lowerLine keyStr).
  split; [apply lintCounterpoint_run|].
  rewrite (parallel_emits_iff _ _ _ key i a0 a1 b0 b1 7%Z Parallel5ths) by auto.
  rewrite (parallel_emits_iff _ _ _ key i a0 a1 b0 b1 0%Z Parallel8ves) by auto.
  fold dirA dirB int1 int2.
  repeat split; try tauto.
Qed.

Lemma parallel_rule_witness :
  exists issues,
    lintCounterpoint (u16 "C4 D4") (u16 "F3 G3") (u16 "C major") = Some issues
    /\ emitsAt Parallel5ths 0 issues.
Proof.
  assert (X0 : exactInterval (mkNote (u16 "C4") 60 0) (mkNote (u16 "F3") 53 5))
    by in_range.
  assert (X1 : exactInterval (mkNote (u16 "D4") 62 2) (mkNote (u16 "G3") 55 7))
    by in_range.
  destruct (parallel_rule (u16 "C4 D4") (u16 "F3 G3") (u16 "C major")
                          (mkKey 0 (u16 "major")) 0
                          (mkNote (u16 "C4") 60 0) (mkNote (u16 "D4") 62 2)
                          (mkNote (u16 "F3") 53 5) (mkNote (u16 "G3") 55 7)
                          eq_refl eq_refl eq_refl eq_refl eq_refl X0 X1)
    as (issues & Hrun & H5 & _).
  exists issues. split; [exact Hrun|].
  apply H5. vm_compute. repeat split; discriminate.
Defined.

(** C1 as the specification words it, for every pair of parsed voices,
    fails where doubles round.  The upper line
    [C750599937895089 D750599937895089] over [F4 G4] has pitch values
    9007199254741080 and 9007199254741082 over 65 and 67: both voices step
    up, and both intervals are 9007199254741015, congruent to 7 modulo 12.
    No double holds that interval; the program computes 9007199254741016,
    of class 8, and returns no issue. *)
Lemma parallel_rule_rounds :
  exists a0 a1 b0 b1,
    nth_error (upperNotes (u16 "C750599937895089 D750599937895089")) 0 = Some a0
    /\ nth_error (upperNotes (u16 "C750599937895089 D750599937895089")) 1 = Some a1
    /\ nth_error (lowerNotes (u16 "F4 G4")) 0 = Some b0
    /\ nth_error (lowerNotes (u16 "F4 G4")) 1 = Some b1
    /\ midi a0 = Number.Fin 9007199254741080
    /\ midi a1 = Number.Fin 9007199254741082
    /\ midi b0 = Number.Fin 65
    /\ midi b1 = Number.Fin 67
    /\ (Z.sgn (midiZ a1 - midiZ a0) = 1 /\ Z.sgn (midiZ b1 - midiZ b0) = 1)%Z
    /\ (Z.abs (midiZ a0 - midiZ b0) mod 12 = 7
        /\ Z.abs (midiZ a1 - midiZ b1) mod 12 = 7)%Z
    /\ Number.abs (Number.sub (midi a0) (midi b0)) = Number.Fin 9007199254741016
    /\ lintCounterpoint (u16 "C750599937895089 D750599937895089") (u16 "F4 G4")
                        (u16 "C major") = Some []
    /\ ~ emitsAt Parallel5ths 0 [].
Proof.
  do 4 eexists.
  repeat match goal with |- _ /\ _ => split end;
    try (vm_compute; reflexivity).
  intros (iss & [] & _).
Qed.

(* ================================================================== *)
(** ** Rule 2: leaps over an octave *)

Lemma filter_nil (p : Issue -> bool) l :
  (forall x, In x l -> p x = false) -> filter p l = [].
Proof.
  intros H. pose proof (count_none p l H) as Hc. unfold count in Hc.
  now destruct (filter p l).
Qed.

Lemma filter_all (p : Issue -> bool) l :
  (forall x, In x l -> p x = true) -> filter p l = l.
Proof.
  induction l as [|x l IH]; intros H; simpl; [reflexivity|].
  rewrite (H x) by now left. f_equal. apply IH. intros y Hy. apply H. now right.
Qed.

Ltac off_voiced := unfold isVoiced; off_kind.

Lemma leapOut_indices v X l :
  map index (flat_map (leapOut v X) l) = map Some (filter (leapsAt X) l).
Proof.
  induction l as [|j l IH]; simpl; [reflexivity|].
  rewrite map_app, IH. unfold leapOut, leapsAt.
  destruct (nth_error X j) as [x0|]; [|reflexivity].
  destruct (nth_error X (j + 1)) as [x1|]; [|reflexivity].
  now destruct (Number.gtb (leapOf x0 x1) 12).
Qed.

Lemma leap_issues upperLine lowerLine keyStr key v :
  parseKey keyStr = Some key ->
  filter (isVoiced LeapOverOctave v) (lintOut upperLine lowerLine keyStr)
  = leapPass v (notesOf v upperLine lowerLine).
Proof.
  intros Hkey. rewrite (lintOut_parsed _ _ _ _ Hkey), !filter_app.
  rewrite (filter_nil _ (snd (parseMelody upperLine))) by off_voiced.
  rewrite (filter_nil _ (snd (parseMelody lowerLine))) by off_voiced.
  rewrite (filter_nil _ (lengthOut _ _)) by off_voiced.
  rewrite (filter_nil _ (parallelPass _ _)) by off_voiced.
  rewrite (filter_nil _ (leadingPass Voice.A key _)) by off_voiced.
  rewrite (filter_nil _ (leadingPass Voice.B key _)) by off_voiced.
  assert (Hall : forall w Y x, In x (leapPass w Y) ->
                               isVoiced LeapOverOctave w x = true).
  { intros w Y x Hx. apply leap_pass_kind in Hx as (j & _ & Ht & Hv & _).
    unfold isVoiced, isType. rewrite Ht, Hv. now destruct w. }
  destruct v; simpl notesOf.
  - rewrite (filter_nil _ (leapPass Voice.B _)) by off_voiced.
    rewrite (filter_all _ _ (Hall _ _)). simpl. now rewrite app_nil_r.
  - rewrite (filter_nil _ (leapPass Voice.A _)) by off_voiced.
    rewrite (filter_all _ _ (Hall _ _)). simpl. now rewrite app_nil_r.
Qed.

Lemma leap_count_at upperLine lowerLine keyStr key v i x0 x1 :
  parseKey keyStr = Some key ->
  nth_error (notesOf v upperLine lowerLine) i = Some x0 ->
  nth_error (notesOf v upperLine lowerLine) (i + 1) = Some x1 ->
  count (isFor LeapOverOctave v i) (lintOut upperLine lowerLine keyStr)
  = if Number.gtb (leapOf x0 x1) 12 then 1 else 0.
Proof.
  intros Hkey E0 E1. pose proof (nth_error_lt _ _ _ E1) as HX.
  rewrite (count_leap _ _ _ key) by auto. cbv zeta.
  replace (i <? length (notesOf v upperLine lowerLine) - 1) with true
    by (symmetry; apply Nat.ltb_lt; lia).
  unfold leapOut. rewrite E0, E1. apply count_if.
  apply isFor_true. auto.
Qed.

(** Between two finite pitch values the test of rule 2 is that of the
    integers: rounding the difference does not move it across 12. *)
Lemma leapOf_gtb x0 x1 :
  finite x0 -> finite x1 ->
  Number.gtb (leapOf x0 x1) 12 = (Z.abs (midiZ x1 - midiZ x0) >? 12)%Z.
Proof.
  intros F0 F1. unfold leapOf.
  rewrite (finite_midi _ F0), (finite_midi _ F1). apply gtb_abs_sub.
Qed.

Lemma leading_count_at upperLine lowerLine keyStr key v i x0 x1 :
  parseKey keyStr = Some key ->
  nth_error (notesOf v upperLine lowerLine) i = Some x0 ->
  nth_error (notesOf v upperLine lowerLine) (i + 1) = Some x1 ->
  count (isFor UnresolvedLeadingTone v i) (lintOut upperLine lowerLine keyStr)
  = if (pc x0 =? mod12 (tonicPC key - 1))%Z && negb (resolves (tonicPC key) x0 x1)
    then 1 else 0.
Proof.
  intros Hkey E0 E1. pose proof (nth_error_lt _ _ _ E1) as HX.
  rewrite (count_leading _ _ _ key) by auto. cbv zeta.
  replace (i <? length (notesOf v upperLine lowerLine) - 1) with true
    by (symmetry; apply Nat.ltb_lt; lia).
  unfold leadingOut. rewrite E0, E1. apply count_if.
  apply isFor_true. auto.
Qed.

Lemma resolves_spec tonic x0 x1 :
  resolves tonic x0 x1 = true
  <-> (pc x1 = tonic /\ (pc x1 - pc x0) mod 12 = 1)%Z.
Proof.
  unfold resolves. now rewrite andb_true_iff, !Z.eqb_eq, mod12_spec.
Qed.

Lemma leap_emits_iff upperLine lowerLine keyStr key v i x0 x1 :
  parseKey keyStr = Some key ->
  nth_error (notesOf v upperLine lowerLine) i = Some x0 ->
  nth_error (notesOf v upperLine lowerLine) (i + 1) = Some x1 ->
  emitsFor LeapOverOctave v i (lintOut upperLine lowerLine keyStr)
  <-> Number.gtb (leapOf x0 x1) 12 = true.
Proof.
  intros Hkey E0 E1.
  rewrite emitsFor_count, (leap_count_at _ _ _ key v i x0 x1) by auto.
  destruct (Number.gtb (leapOf x0 x1) 12); split; (lia || congruence).
Qed.

Lemma leap_emits_finite upperLine lowerLine keyStr key v i x0 x1 :
  parseKey keyStr = Some key ->
  nth_error (notesOf v upperLine lowerLine) i = Some x0 ->
  nth_error (notesOf v upperLine lowerLine) (i + 1) = Some x1 ->
  finite x0 -> finite x1 ->
  emitsFor LeapOverOctave v i (lintOut upperLine lowerLine keyStr)
  <-> (Z.abs (midiZ x1 - midiZ x0) > 12)%Z.
Proof.
  intros Hkey E0 E1 F0 F1.
  rewrite (leap_emits_iff _ _ _ key v i x0 x1), (leapOf_gtb x0 x1) by auto.
  destruct (Z.gtb_spec (Z.abs (midiZ x1 - midiZ x0)) 12); split; (lia || congruence).
Qed.

Lemma leading_emits_iff upperLine lowerLine keyStr key v i x0 x1 :
  parseKey keyStr = Some key ->
  nth_error (notesOf v upperLine lowerLine) i = Some x0 ->
  nth_error (notesOf v upperLine lowerLine) (i + 1) = Some x1 ->
  emitsFor UnresolvedLeadingTone v i (lintOut upperLine lowerLine keyStr)
  <-> (pc x0 = (tonicPC key - 1) mod 12
       /\ ~ (pc x1 = tonicPC key /\ (pc x1 - pc x0) mod 12 = 1))%Z.
Proof.
  intros Hkey E0 E1.
  rewrite emitsFor_count, (leading_count_at _ _ _ key v i x0 x1) by auto.
  rewrite <- resolves_spec, <- mod12_spec.
  destruct (Z.eqb_spec (pc x0) (mod12 (tonicPC key - 1)));
    destruct (resolves (tonicPC key) x0 x1); simpl; split;
    try lia; try tauto; intros [? ?]; try congruence; tauto.
Qed.

Lemma zigzag_last n : forall high,
  exists c r, rev (zigzag n high) = c :: r /\ isWhiteSpace c = false.
Proof.
  induction n as [|n IH]; intros high.
  - destruct high; simpl; eexists; eexists; split; reflexivity.
  - simpl. rewrite rev_app_distr.
    destruct (IH (negb high)) as (c & r & -> & Hc).
    exists c, (r ++ rev (if high then u16 "C2 " else u16 "C0 ")). now split.
Qed.

Lemma zigzag_trim n high : trim (zigzag n high) = zigzag n high.
Proof.
  unfold trim, trimEnd.
  assert (Hs : trimStart (zigzag n high) = zigzag n high)
    by (destruct n, high; reflexivity).
  rewrite Hs. destruct (zigzag_last n high) as (c & r & E & Hc).
  rewrite E. simpl. rewrite Hc, <- E. apply rev_involutive.
Qed.

Lemma zigzag_split n : forall high,
  filter Boolean (split_ws (zigzag n high)) = map raw (zigzagNotes n high).
Proof.
  unfold split_ws. induction n as [|n IH]; intros high.
  - destruct high; reflexivity.
  - assert (Hsep : forall h, splitFrom (zigzag n h) [] true
                             = splitFrom (zigzag n h) [] false)
      by (intros h; destruct n, h; reflexivity).
    destruct high; simpl; rewrite Hsep, IH; reflexivity.
Qed.

Lemma zigzag_notes n high :
  fst (parseMelody (zigzag n high)) = zigzagNotes n high.
Proof.
  rewrite parseMelody_notes. unfold tokensOf.
  rewrite zigzag_trim, zigzag_split. revert high.
  induction n as [|n IH]; intros high.
  - destruct high; reflexivity.
  - simpl. rewrite IH. destruct high; reflexivity.
Qed.

Lemma zigzagNotes_length n high : length (zigzagNotes n high) = S n.
Proof. revert high. induction n as [|n IH]; intros high; simpl; auto. Qed.

Lemma zigzag_leapsAt n : forall high i,
  i < n -> leapsAt (zigzagNotes n high) i = true.
Proof.
  induction n as [|n IH]; intros high i Hi; [lia|].
  destruct i as [|i].
  - destruct n, high; reflexivity.
  - change (leapsAt (zigzagNote high :: zigzagNotes n (negb high)) (S i))
      with (leapsAt (zigzagNotes n (negb high)) i).
    apply IH. lia.
Qed.

(** The leap rule has no bound on how many issues it emits: for every
    [n] some upper line yields exactly [n] LeapOverOctave issues. *)
Lemma leaps_unbounded (n : nat) :
  exists upperLine issues,
    lintCounterpoint upperLine [] (u16 "C major") = Some issues
    /\ count (isVoiced LeapOverOctave Voice.A) issues = n.
Proof.
  exists (zigzag n false), (lintOut (zigzag n false) [] (u16 "C major")).
  split; [apply lintCounterpoint_run|].
  unfold count.
  rewrite (leap_issues _ _ _ (mkKey 0 (u16 "major"))) by reflexivity.
  rewrite <- (length_map index). unfold leapPass, pass.
  rewrite leapOut_indices, length_map.
  simpl notesOf. unfold upperNotes. rewrite zigzag_notes, zigzagNotes_length.
  replace (S n - 1) with n by lia.
  assert (Hall : forall l, (forall i, In i l -> i < n) ->
                           filter (leapsAt (zigzagNotes n false)) l = l).
  { induction l as [|i l IHl]; intros Hl; simpl; [reflexivity|].
    rewrite zigzag_leapsAt by (apply Hl; now left).
    f_equal. apply IHl. intros j Hj. apply Hl. now right. }
  rewrite Hall by (intros i Hi; apply in_seq in Hi; lia).
  apply length_seq.
Qed.

(** C4.  For every adjacent pair of parsed notes of a voice, at
    indices [i] and [i + 1], a LeapOverOctave issue tagged with the voice
    and with index [i] is emitted exactly when the absolute difference of
    the two pitch values, as the program computes it, is greater than 12.
    Between finite pitch values that is exactly when the absolute
    difference of the two integers is greater than 12, however large they
    are; a difference of exactly 12 is not flagged.  Exactly one issue is
    emitted for an offending pair: the indices of the LeapOverOctave
    issues of a voice are, in order, the offending positions of that
    voice, however many there are; and for every [n] some upper line
    yields exactly [n] such issues. *)
Theorem leap_rule (upperLine lowerLine keyStr : jsstring) (key : Key)
        (v : Voice.t) (i : nat) (x0 x1 : Note) :
  parseKey keyStr = Some key ->
  nth_error (notesOf v upperLine lowerLine) i = Some x0 ->
  nth_error (notesOf v upperLine lowerLine) (i + 1) = Some x1 ->
  exists issues,
    lintCounterpoint upperLine lowerLine keyStr = Some issues
    /\ (emitsFor LeapOverOctave v i issues
        <-> Number.gtb (Number.abs (Number.sub (midi x1) (midi x0))) 12 = true)
    /\ (finite x0 -> finite x1 ->
        (emitsFor LeapOverOctave v i issues
         <-> (Z.abs (midiZ x1 - midiZ x0) > 12)%Z)
        /\ (Z.abs (midiZ x1 - midiZ x0) = 12%Z
            -> ~ emitsFor LeapOverOctave v i issues)
        /\ count (isFor LeapOverOctave v i) issues
           = (if (Z.abs (midiZ x1 - midiZ x0) >? 12)%Z then 1 else 0))
    /\ count (isFor LeapOverOctave v i) issues
       = (if Number.gtb (Number.abs (Number.sub (midi x1) (midi x0))) 12
          then 1 else 0)
    /\ map index (filter (isVoiced LeapOverOctave v) issues)
       = map Some (offendingLeaps (notesOf v upperLine lowerLine))
    /\ (forall n, exists line issues',
           lintCounterpoint line [] (u16 "C major") = Some issues'
           /\ count (isVoiced LeapOverOctave Voice.A) issues' = n).
Proof.
  intros Hkey E0 E1.
  exists (lintOut upperLine lowerLine keyStr).
  split; [apply lintCounterpoint_run|].
  pose proof (leap_count_at _ _ _ key v i x0 x1 Hkey E0 E1) as Hc.
  fold (leapOf x0 x1).
  split; [now apply (leap_emits_iff _ _ _ key)|].
  split.
  { intros F0 F1.
    pose proof (leap_emits_finite _ _ _ key v i x0 x1 Hkey E0 E1 F0 F1) as Hiff.
    split; [exact Hiff|]. split; [rewrite Hiff; lia|].
    now rewrite Hc, leapOf_gtb. }
  split; [exact Hc|].
  split; [|exact leaps_unbounded].
  rewrite (leap_issues _ _ _ key) by auto. apply leapOut_indices.
Qed.

Lemma leap_rule_witness :
  exists issues,
    lintCounterpoint (u16 "C4 D5") (u16 "C3 C3") (u16 "C major") = Some issues
    /\ count (isFor LeapOverOctave Voice.A 0) issues = 1
    /\ emitsFor LeapOverOctave Voice.A 0 issues.
Proof.
  destruct (leap_rule (u16 "C4 D5") (u16 "C3 C3") (u16 "C major")
                      (mkKey 0 (u16 "major")) Voice.A 0
                      (mkNote (u16 "C4") 60 0) (mkNote (u16 "D5") 74 2)
                      eq_refl eq_refl eq_refl)
    as (issues & Hrun & _ & Hfin & Hc & _).
  exists issues. split; [exact Hrun|]. split; [exact Hc|].
  apply (proj1 (Hfin eq_refl eq_refl)). vm_compute. reflexivity.
Defined.

(* ================================================================== *)
(** ** Rule 3: the leading tone *)

(** C3.  For a voice and an index [i] before its last parsed note, when
    the note at [i] has the pitch class of the leading tone,
    [(tonicPC - 1) mod 12], an UnresolvedLeadingTone issue tagged with the
    voice and with index [i] is emitted exactly when it is not the case
    that the next note has the pitch class of the tonic and lies one
    semitone above in pitch-class terms.  The rule never fires at the last
    note of a voice, whatever the voice holds, nor at a note that is not
    the leading tone. *)
Theorem leading_tone_rule (upperLine lowerLine keyStr : jsstring) (key : Key)
        (v : Voice.t) :
  parseKey keyStr = Some key ->
  exists issues,
    lintCounterpoint upperLine lowerLine keyStr = Some issues
    /\ (forall i x0 x1,
           nth_error (notesOf v upperLine lowerLine) i = Some x0 ->
           nth_error (notesOf v upperLine lowerLine) (i + 1) = Some x1 ->
           pc x0 = ((tonicPC key - 1) mod 12)%Z ->
           (emitsFor UnresolvedLeadingTone v i issues
            <-> ~ (pc x1 = tonicPC key /\ (pc x1 - pc x0) mod 12 = 1)%Z))
    /\ (forall j, length (notesOf v upperLine lowerLine) <= j + 1 ->
                  ~ emitsFor UnresolvedLeadingTone v j issues)
    /\ (forall j y, nth_error (notesOf v upperLine lowerLine) j = Some y ->
                    pc y <> ((tonicPC key - 1) mod 12)%Z ->
                    ~ emitsFor UnresolvedLeadingTone v j issues).
Proof.
  intros Hkey.
  exists (lintOut upperLine lowerLine keyStr).
  split; [apply lintCounterpoint_run|].
  split; [|split].
  - intros i x0 x1 E0 E1 Hlead.
    rewrite (leading_emits_iff _ _ _ key v i x0 x1) by auto. tauto.
  - intros j Hj. rewrite emitsFor_count, (count_leading _ _ _ key) by auto.
    cbv zeta.
    replace (j <? length (notesOf v upperLine lowerLine) - 1) with false
      by (symmetry; apply Nat.ltb_ge; lia).
    lia.
  - intros j y Ej Hy. rewrite emitsFor_count, (count_leading _ _ _ key) by auto.
    cbv zeta. destruct (j <? _); [|lia].
    unfold leadingOut. rewrite Ej.
    destruct (nth_error _ (j + 1)) as [y1|]; [|unfold count; simpl; lia].
    rewrite mod12_spec. apply Z.eqb_neq in Hy. rewrite Hy. unfold count. simpl. lia.
Qed.

(** In C major the upper line [B3 D4 B4] leaves its first leading tone
    unresolved and ends on a leading tone: an issue at index 0, none at
    index 2. *)
Lemma leading_tone_rule_witness :
  exists issues,
    lintCounterpoint (u16 "B3 D4 B4") (u16 "G3 G3 G3") (u16 "C major") = Some issues
    /\ emitsFor UnresolvedLeadingTone Voice.A 0 issues
    /\ ~ emitsFor UnresolvedLeadingTone Voice.A 2 issues.
Proof.
  destruct (leading_tone_rule (u16 "B3 D4 B4") (u16 "G3 G3 G3") (u16 "C major")
                              (mkKey 0 (u16 "major")) Voice.A eq_refl)
    as (issues & Hrun & Hiff & Hlast & _).
  exists issues. split; [exact Hrun|]. split.
  - apply (Hiff 0 (mkNote (u16 "B3") 59 11) (mkNote (u16 "D4") 62 2)
                eq_refl eq_refl eq_refl).
    simpl. intros [H _]. discriminate H.
  - apply (Hlast 2). vm_compute. apply le_n.
Defined.

Lemma forFrom_ext body body' :
  (forall i s, body i s = body' i s) ->
  forall n i s, forFrom i n body s = forFrom i n body' s.
Proof.
  intros H. induction n as [|n IH]; intros i s; simpl; [reflexivity|].
  unfold bind. rewrite H. destruct (body' i s) as [[[] s']|]; auto.
Qed.

(** One semitone above the leading tone is the tonic, whatever the tonic. *)
Lemma tonic_above_leading (tonic : Z) :
  ((tonic - (tonic - 1) mod 12) mod 12 = 1)%Z.
Proof. Z.to_euclidean_division_equations. lia. Qed.

Lemma resolves_on_leading tonic (y0 y1 : Note) :
  pc y0 = mod12 (tonic - 1) ->
  resolves tonic y0 y1 = resolves_simple tonic y1.
Proof.
  intros H0. unfold resolves, resolves_simple.
  destruct (Z.eqb_spec (pc y1) tonic) as [H1|]; [|reflexivity].
  rewrite H0, H1, !mod12_spec, tonic_above_leading. reflexivity.
Qed.

Lemma leadingBody_same v tonic X i s :
  leadingBody v (mod12 (tonic - 1)) tonic X i s
  = leadingBody_simple v (mod12 (tonic - 1)) tonic X i s.
Proof.
  unfold leadingBody, leadingBody_simple, bind, elem.
  destruct (nth_error X i) as [y0|]; [|reflexivity].
  destruct (Z.eqb_spec (pc y0) (mod12 (tonic - 1))) as [H0|]; [|reflexivity].
  destruct (nth_error X (i + 1)) as [y1|]; [|reflexivity].
  fold (resolves tonic y0 y1). now rewrite (resolves_on_leading tonic y0 y1 H0).
Qed.

Lemma bind_ext {X Y : Type} (m m' : M X) (f g : X -> M Y) s :
  (forall s', m s' = m' s') -> (forall x s', f x s' = g x s') ->
  bind m f s = bind m' g s.
Proof.
  intros Hm Hf. unfold bind. rewrite Hm. destruct (m' s) as [[x s']|]; auto.
Qed.

Lemma lintCounterpoint_simple_same upperLine lowerLine keyStr :
  lintCounterpoint upperLine lowerLine keyStr
  = lintCounterpoint_simple upperLine lowerLine keyStr.
Proof.
  unfold lintCounterpoint, lintCounterpoint_simple, lintBody, lintBody_simple.
  f_equal. destruct (parseKey keyStr) as [key|]; [|reflexivity].
  destruct (parseMelody upperLine) as [A parseA].
  destruct (parseMelody lowerLine) as [B parseB].
  repeat (apply bind_ext; [reflexivity | intros _ ?]).
  apply bind_ext.
  - intros st. apply forFrom_ext. intros i st'. apply leadingBody_same.
  - intros _ st. apply forFrom_ext. intros i st'. apply leadingBody_same.
Qed.

(** C10.  In rule 3 the semitone-step conjunct is redundant: for a
    note whose pitch class is that of the leading tone,
    [(tonicPC - 1) mod 12], the next note has the pitch class of the tonic
    and lies one semitone above in pitch-class terms exactly when it has
    the pitch class of the tonic.  The test of the program and the simpler
    test agree on such a note, and the analyzer with the simpler test
    returns what the analyzer returns, on every input. *)
Theorem stepUp_redundant (tonic : Z) (x0 x1 : Note) :
  pc x0 = ((tonic - 1) mod 12)%Z ->
  ((pc x1 = tonic /\ (pc x1 - pc x0) mod 12 = 1)%Z <-> pc x1 = tonic)
  /\ resolves tonic x0 x1 = resolves_simple tonic x1
  /\ (forall upperLine lowerLine keyStr,
         lintCounterpoint upperLine lowerLine keyStr
         = lintCounterpoint_simple upperLine lowerLine keyStr).
Proof.
  intros Hlead. rewrite <- mod12_spec in Hlead.
  pose proof (resolves_on_leading tonic x0 x1 Hlead) as Hres.
  split; [|split; [exact Hres | exact lintCounterpoint_simple_same]].
  rewrite <- resolves_spec, Hres. unfold resolves_simple.
  now rewrite Z.eqb_eq.
Qed.

Lemma stepUp_redundant_witness :
  resolves 0 (mkNote (u16 "B3") 59 11) (mkNote (u16 "C4") 60 0)
  = resolves_simple 0 (mkNote (u16 "C4") 60 0).
Proof.
  exact (proj1 (proj2 (stepUp_redundant 0 (mkNote (u16 "B3") 59 11)
                                        (mkNote (u16 "C4") 60 0) eq_refl))).
Defined.

(* ================================================================== *)
(** ** Voices of different lengths *)

Lemma parallel_index_bound upperLine lowerLine keyStr key ty i :
  parseKey keyStr = Some key ->
  ty = Parallel5ths \/ ty = Parallel8ves ->
  emitsAt ty i (lintOut upperLine lowerLine keyStr) ->
  i + 1 < Nat.min (length (upperNotes upperLine)) (length (lowerNotes lowerLine)).
Proof.
  intros Hkey Hty. rewrite emitsAt_count, (count_parallel _ _ _ key) by auto.
  cbv zeta. destruct (Nat.ltb_spec i (Nat.min (length (upperNotes upperLine))
                                              (length (lowerNotes lowerLine)) - 1)); lia.
Qed.

(** C6.  When the two parsed voices differ in length, the analyzer
    emits exactly one LengthMismatch issue, whose detail gives both
    lengths in decimal; when they are equal it emits none.  The
    parallel-motion rule runs over the common prefix, of length the
    minimum of the two lengths: parallel issues are emitted only at its
    indices, and at each of them, where the intervals are exact, as the
    rule says.  The leap rule and the leading-tone rule decide every
    adjacent pair of each voice over its full length. *)
Theorem length_mismatch (upperLine lowerLine keyStr : jsstring) (key : Key) :
  parseKey keyStr = Some key ->
  let A := upperNotes upperLine in
  let B := lowerNotes lowerLine in
  exists issues,
    lintCounterpoint upperLine lowerLine keyStr = Some issues
    /\ (length A <> length B ->
        filter (isType LengthMismatch) issues
        = [mkIssue LengthMismatch None None
                   (u16 "Voices have different lengths (" ++ ofNat (length A)
                    ++ u16 " vs " ++ ofNat (length B)
                    ++ u16 "). Lint assumes aligned notes.")])
    /\ (length A = length B -> filter (isType LengthMismatch) issues = [])
    /\ (forall ty i, ty = Parallel5ths \/ ty = Parallel8ves ->
                     emitsAt ty i issues -> i + 1 < Nat.min (length A) (length B))
    /\ (forall i a0 a1 b0 b1,
           nth_error A i = Some a0 -> nth_error A (i + 1) = Some a1 ->
           nth_error B i = Some b0 -> nth_error B (i + 1) = Some b1 ->
           exactInterval a0 b0 -> exactInterval a1 b1 ->
           let similarMotion :=
             (Z.sgn (midiZ a1 - midiZ a0) <> 0
              /\ Z.sgn (midiZ b1 - midiZ b0) <> 0
              /\ Z.sgn (midiZ a1 - midiZ a0) = Z.sgn (midiZ b1 - midiZ b0))%Z in
           (emitsAt Parallel5ths i issues
            <-> similarMotion
                /\ (Z.abs (midiZ a0 - midiZ b0) mod 12 = 7
                    /\ Z.abs (midiZ a1 - midiZ b1) mod 12 = 7)%Z)
           /\ (emitsAt Parallel8ves i issues
               <-> similarMotion
                   /\ (Z.abs (midiZ a0 - midiZ b0) mod 12 = 0
                       /\ Z.abs (midiZ a1 - midiZ b1) mod 12 = 0)%Z))
    /\ (forall v i x0 x1,
           nth_error (notesOf v upperLine lowerLine) i = Some x0 ->
           nth_error (notesOf v upperLine lowerLine) (i + 1) = Some x1 ->
           (emitsFor LeapOverOctave v i issues
            <-> Number.gtb (Number.abs (Number.sub (midi x1) (midi x0))) 12 = true)
           /\ (finite x0 -> finite x1 ->
               (emitsFor LeapOverOctave v i issues
                <-> (Z.abs (midiZ x1 - midiZ x0) > 12)%Z))
           /\ (emitsFor UnresolvedLeadingTone v i issues
               <-> (pc x0 = (tonicPC key - 1) mod 12
                    /\ ~ (pc x1 = tonicPC key /\ (pc x1 - pc x0) mod 12 = 1))%Z)).
Proof.
  intros Hkey A B.
  exists (lintOut upperLine lowerLine keyStr).
  split; [apply lintCounterpoint_run|].
  rewrite (count_length _ _ _ key Hkey). fold A B. unfold lengthOut.
  split; [|split; [|split; [|split]]].
  - intros Hne. apply Nat.eqb_neq in Hne. now rewrite Hne.
  - intros Heq. apply Nat.eqb_eq in Heq. now rewrite Heq.
  - intros ty i Hty. now apply (parallel_index_bound _ _ _ key).
  - intros i a0 a1 b0 b1 Ea0 Ea1 Eb0 Eb1 X0 X1. cbv zeta.
    split.
    + now apply (parallel_emits_iff _ _ _ key i a0 a1 b0 b1 7%Z Parallel5ths); auto.
    + now apply (parallel_emits_iff _ _ _ key i a0 a1 b0 b1 0%Z Parallel8ves); auto.
  - intros v i x0 x1 E0 E1. split; [|split].
    + now apply (leap_emits_iff _ _ _ key).
    + intros F0 F1. now apply (leap_emits_finite _ _ _ key).
    + now apply (leading_emits_iff _ _ _ key).
Qed.

(** The upper line has three notes and the lower line two: one
    LengthMismatch issue, and parallel fifths on the common prefix. *)
Lemma length_mismatch_witness :
  exists issues,
    lintCounterpoint (u16 "C4 D4 E4") (u16 "F3 G3") (u16 "C major") = Some issues
    /\ filter (isType LengthMismatch) issues
       = [mkIssue LengthMismatch None None
                  (u16 "Voices have different lengths (3 vs 2). Lint assumes aligned notes.")]
    /\ emitsAt Parallel5ths 0 issues.
Proof.
  assert (X0 : exactInterval (mkNote (u16 "C4") 60 0) (mkNote (u16 "F3") 53 5))
    by in_range.
  assert (X1 : exactInterval (mkNote (u16 "D4") 62 2) (mkNote (u16 "G3") 55 7))
    by in_range.
  destruct (length_mismatch (u16 "C4 D4 E4") (u16 "F3 G3") (u16 "C major")
                            (mkKey 0 (u16 "major")) eq_refl)
    as (issues & Hrun & Hne & _ & _ & Hpar & _).
  exists issues. split; [exact Hrun|]. split.
  - apply Hne. vm_compute. discriminate.
  - apply (proj1 (Hpar 0 (mkNote (u16 "C4") 60 0) (mkNote (u16 "D4") 62 2)
                       (mkNote (u16 "F3") 53 5) (mkNote (u16 "G3") 55 7)
                       eq_refl eq_refl eq_refl eq_refl X0 X1)).
    vm_compute. repeat split; discriminate.
Defined.

(* ================================================================== *)
(** ** The voice tag *)

Lemma leapOut_In v X j iss :
  In iss (leapOut v X j) ->
  exists x0 x1,
    nth_error X j = Some x0 /\ nth_error X (j + 1) = Some x1
    /\ Number.gtb (leapOf x0 x1) 12 = true
    /\ iss = mkIssue LeapOverOctave (Some j) (Some v)
                     (leapDetails v (leapOf x0 x1) j x0 x1).
Proof.
  unfold leapOut.
  destruct (nth_error X j) as [x0|]; [|intros []].
  destruct (nth_error X (j + 1)) as [x1|]; [|intros []].
  destruct (Number.gtb (leapOf x0 x1) 12) eqn:Hgt; [|intros []].
  intros [<- | []]. exists x0, x1. repeat split; auto.
Qed.

Lemma leadingOut_In v lpc tpc X j iss :
  In iss (leadingOut v lpc tpc X j) ->
  exists x0 x1,
    nth_error X j = Some x0 /\ nth_error X (j + 1) = Some x1
    /\ pc x0 = lpc /\ resolves tpc x0 x1 = false
    /\ iss = mkIssue UnresolvedLeadingTone (Some j) (Some v) (leadingDetails v x0).
Proof.
  unfold leadingOut.
  destruct (nth_error X j) as [x0|]; [|intros []].
  destruct (nth_error X (j + 1)) as [x1|]; [|intros []].
  destruct (Z.eqb_spec (pc x0) lpc); simpl; [|intros []].
  destruct (resolves tpc x0 x1) eqn:Hres; simpl; [intros []|].
  intros [<- | []]. exists x0, x1. repeat split; auto.
Qed.

(** C7 as the program has it.  Every issue the analyzer returns with
    a voice field is about the line its tag names, and the field holds
    the string ["A"] for the upper line and ["B"] for the lower line; a
    leap of 13 semitones in the upper voice yields one LeapOverOctave
    issue whose voice field is ["A"]. *)
Theorem voice_tags (upperLine lowerLine keyStr : jsstring) :
  exists issues,
    lintCounterpoint upperLine lowerLine keyStr = Some issues
    /\ (forall iss v,
           In iss issues -> voice iss = Some v ->
           aboutVoice upperLine lowerLine keyStr v iss
           /\ ((v = Voice.A /\ Voice.str v = u16 "A"
                /\ notesOf v upperLine lowerLine = upperNotes upperLine)
               \/ (v = Voice.B /\ Voice.str v = u16 "B"
                   /\ notesOf v upperLine lowerLine = lowerNotes lowerLine)))
    /\ lintCounterpoint (u16 "C4 C#5") (u16 "C3 C3") (u16 "C major")
       = Some [mkIssue LeapOverOctave (Some 0) (Some Voice.A)
                       (u16 "Upper voice leaps 13 semitones at 0" ++ arrow
                        ++ u16 "1 (C4" ++ arrow ++ u16 "C#5)")].
Proof.
  exists (lintOut upperLine lowerLine keyStr).
  split; [apply lintCounterpoint_run|]. split; [|reflexivity].
  intros iss v Hin Hv. split; [|destruct v; [left|right]; repeat split].
  unfold lintOut in Hin. destruct (parseKey keyStr) as [key|] eqn:Hkey.
  - unfold rulesOut in Hin. rewrite !in_app_iff in Hin.
    assert (Hleap : forall w, In iss (leapPass w (notesOf w upperLine lowerLine)) ->
                              aboutVoice upperLine lowerLine keyStr v iss).
    { intros w H. apply In_pass in H as (j & _ & H).
      apply leapOut_In in H as (x0 & x1 & E0 & E1 & Hgt & ->).
      simpl in Hv. injection Hv as <-.
      exists j, x0, x1. split; [reflexivity|]. split; [exact E0|].
      split; [exact E1|]. left. repeat split. exact Hgt. }
    assert (Hlead : forall w, In iss (leadingPass w key (notesOf w upperLine lowerLine)) ->
                              aboutVoice upperLine lowerLine keyStr v iss).
    { intros w H. apply In_pass in H as (j & _ & H).
      apply leadingOut_In in H as (x0 & x1 & E0 & E1 & Hpc & Hres & ->).
      simpl in Hv. injection Hv as <-.
      exists j, x0, x1. split; [reflexivity|]. split; [exact E0|].
      split; [exact E1|]. right. repeat split. exists key. auto. }
    destruct Hin as [H | [H | [H | [H | [H | [H | [H | H]]]]]]].
    + apply parse_issue_kind in H as [_ H]. congruence.
    + apply parse_issue_kind in H as [_ H]. congruence.
    + apply lengthOut_kind in H as [_ H]. congruence.
    + apply parallel_pass_kind in H as (j & _ & _ & H & _). congruence.
    + now apply (Hleap Voice.A).
    + now apply (Hleap Voice.B).
    + now apply (Hlead Voice.A).
    + now apply (Hlead Voice.B).
  - destruct Hin as [<- | []]. discriminate Hv.
Qed.

Lemma voice_tags_witness :
  exists issues,
    lintCounterpoint (u16 "C4 C#5") (u16 "C3 C3") (u16 "C major") = Some issues.
Proof.
  destruct (voice_tags (u16 "C4 C#5") (u16 "C3 C3") (u16 "C major"))
    as (issues & Hrun & _).
  exists issues. exact Hrun.
Defined.

(** The claim as the specification words it fails: the voice field of the
    issue for the leap of 13 semitones in the upper voice is not
    ["upper"], and no voice field ever holds ["upper"] or ["lower"]. *)
Lemma voice_field_is_not_upper :
  (exists iss,
      lintCounterpoint (u16 "C4 C#5") (u16 "C3 C3") (u16 "C major") = Some [iss]
      /\ type iss = LeapOverOctave
      /\ option_map Voice.str (voice iss) = Some (u16 "A")
      /\ option_map Voice.str (voice iss) <> Some (u16 "upper"))
  /\ (forall v, Voice.str v <> u16 "upper" /\ Voice.str v <> u16 "lower").
Proof.
  split.
  - eexists. split; [reflexivity|]. repeat split. discriminate.
  - intros []; split; discriminate.
Qed.

(* ================================================================== *)
(** ** The order of the returned issues *)

Lemma parse_passOf line : passOf (tokenError line) (snd (parseMelody line)).
Proof.
  rewrite parseMelody_issues. split; [|apply tokenErrors_ascending].
  apply Forall_forall. intros iss H.
  destruct (tokenErrors_In _ _ _ H) as (j & t & -> & Hj & Hp).
  split; [reflexivity|]. exists j, t. auto.
Qed.

Lemma pass_passOf (ok : nat -> Issue -> Prop) (ok' : Issue -> Prop) out n :
  (forall j, atMostOne (ok j) (out j)) ->
  (forall j x, ok j x -> ok' x /\ index x = Some j) ->
  passOf ok' (pass out n).
Proof.
  intros Hshape Hok. split.
  - apply Forall_forall. intros x Hx. apply In_pass in Hx as (j & _ & Hx).
    exact (proj1 (Hok j x (atMostOne_In _ _ _ (Hshape j) Hx))).
  - apply pass_ascending. intros j. apply (atMostOne_index (ok j)); [apply Hshape|].
    intros x Hx. exact (proj2 (Hok j x Hx)).
Qed.

(** C8.  With a key that parses, the returned array is the
    concatenation, in this order, of: the ParseError issues of the upper
    line, then those of the lower line, each in the order of the tokens;
    the LengthMismatch issue if there is one; the parallel-motion issues in
    ascending order of index; the leap issues of the upper voice and then
    of the lower voice, each in ascending order of index; the leading-tone
    issues of the upper voice and then of the lower voice, each in
    ascending order of index. *)
Theorem issue_order (upperLine lowerLine keyStr : jsstring) (key : Key) :
  parseKey keyStr = Some key ->
  exists pu pl lm par lu ll tu tl,
    lintCounterpoint upperLine lowerLine keyStr
    = Some (pu ++ pl ++ lm ++ par ++ lu ++ ll ++ tu ++ tl)
    /\ pu = snd (parseMelody upperLine)
    /\ pl = snd (parseMelody lowerLine)
    /\ passOf (tokenError upperLine) pu
    /\ passOf (tokenError lowerLine) pl
    /\ (Forall (fun iss => type iss = LengthMismatch) lm /\ length lm <= 1)
    /\ passOf (fun iss => type iss = Parallel5ths \/ type iss = Parallel8ves) par
    /\ passOf (fun iss => type iss = LeapOverOctave /\ voice iss = Some Voice.A) lu
    /\ passOf (fun iss => type iss = LeapOverOctave /\ voice iss = Some Voice.B) ll
    /\ passOf (fun iss => type iss = UnresolvedLeadingTone
                          /\ voice iss = Some Voice.A) tu
    /\ passOf (fun iss => type iss = UnresolvedLeadingTone
                          /\ voice iss = Some Voice.B) tl.
Proof.
  intros Hkey.
  exists (snd (parseMelody upperLine)), (snd (parseMelody lowerLine)),
         (lengthOut (upperNotes upperLine) (lowerNotes lowerLine)),
         (parallelPass (upperNotes upperLine) (lowerNotes lowerLine)),
         (leapPass Voice.A (upperNotes upperLine)),
         (leapPass Voice.B (lowerNotes lowerLine)),
         (leadingPass Voice.A key (upperNotes upperLine)),
         (leadingPass Voice.B key (lowerNotes lowerLine)).
  split; [rewrite lintCounterpoint_run; f_equal; now apply lintOut_parsed|].
  split; [reflexivity|]. split; [reflexivity|].
  split; [apply parse_passOf|]. split; [apply parse_passOf|].
  split; [|split; [|split; [|split; [|split]]]].
  - unfold lengthOut. destruct (negb _); simpl; split; auto.
  - eapply pass_passOf; [intros j; apply parallelOut_shape|].
    simpl. intros j x (H & _ & Hj). auto.
  - eapply pass_passOf; [intros j; apply leapOut_shape|].
    simpl. intros j x (H & Hv & Hj). auto.
  - eapply pass_passOf; [intros j; apply leapOut_shape|].
    simpl. intros j x (H & Hv & Hj). auto.
  - eapply pass_passOf; [intros j; apply leadingOut_shape|].
    simpl. intros j x (H & Hv & Hj). auto.
  - eapply pass_passOf; [intros j; apply leadingOut_shape|].
    simpl. intros j x (H & Hv & Hj). auto.
Qed.

Lemma issue_order_witness :
  exists pu pl lm par lu ll tu tl,
    lintCounterpoint (u16 "C4 X9 E4 B4 D7") (u16 "C3 H1 D3") (u16 "C major")
    = Some (pu ++ pl ++ lm ++ par ++ lu ++ ll ++ tu ++ tl)
    /\ pu = snd (parseMelody (u16 "C4 X9 E4 B4 D7"))
    /\ pl = snd (parseMelody (u16 "C3 H1 D3")).
Proof.
  destruct (issue_order (u16 "C4 X9 E4 B4 D7") (u16 "C3 H1 D3") (u16 "C major")
                        (mkKey 0 (u16 "major")) eq_refl)
    as (pu & pl & lm & par & lu & ll & tu & tl & Hrun & Hpu & Hpl & _).
  exists pu, pl, lm, par, lu, ll, tu, tl. auto.
Defined.

(* ================================================================== *)
(** ** The examples of the specification *)

(** One token that does not parse costs one ParseError at its place, and
    the rules still run on the notes that are left. *)
Example malformed_token_isolated :
  option_map (map (fun iss => (type iss, index iss, voice iss)))
             (lintCounterpoint (u16 "C4 X9 E4") (u16 "C3 D3 E3") (u16 "C major"))
  = Some [(ParseError, Some 1, None); (LengthMismatch, None, None)].
Proof. reflexivity. Qed.

Example parallel_fifths_detected :
  option_map (map (fun iss => (type iss, index iss, voice iss)))
             (lintCounterpoint (u16 "C4 D4") (u16 "F3 G3") (u16 "C major"))
  = Some [(Parallel5ths, Some 0, None)].
Proof. reflexivity. Qed.

(** Fifths at both positions, approached in contrary motion. *)
Example contrary_motion_exempt :
  lintCounterpoint (u16 "G4 D5") (u16 "C4 G3") (u16 "C major") = Some []
  /\ bothClass 7 (mkNote (u16 "G4") 67 7) (mkNote (u16 "C4") 60 0)
                 (mkNote (u16 "D5") 74 2) (mkNote (u16 "G3") 55 7) = true.
Proof. split; reflexivity. Qed.

Example leading_tone_resolved :
  lintCounterpoint (u16 "B3 C4") (u16 "G3 G3") (u16 "C major") = Some [].
Proof. reflexivity. Qed.

Example leading_tone_unresolved :
  option_map (map (fun iss => (type iss, index iss, voice iss)))
             (lintCounterpoint (u16 "B3 D4") (u16 "G3 G3") (u16 "C major"))
  = Some [(UnresolvedLeadingTone, Some 0, Some Voice.A)].
Proof. reflexivity. Qed.

Example length_mismatch_continues :
  option_map (map (fun iss => (type iss, index iss, voice iss)))
             (lintCounterpoint (u16 "C4 B4 E6") (u16 "C3 D3") (u16 "C major"))
  = Some [(LengthMismatch, None, None);
          (LeapOverOctave, Some 1, Some Voice.A);
          (UnresolvedLeadingTone, Some 1, Some Voice.A)].
Proof. reflexivity. Qed.

(* ################################################################## *)
(** * Part III: more of the program *)

(* ================================================================== *)
(** ** [mod12] and [sign] *)

(** X1.  [mod12] gives, for every integer, negative ones included, the
    residue modulo 12 between 0 and 11, and does not change when a
    multiple of 12 is added.  On a double that is an integer, however
    large, the function of the program computes just that, without
    rounding. *)
Theorem mod12_residue (n k : Z) :
  mod12 n = (n mod 12)%Z
  /\ (0 <= mod12 n < 12)%Z
  /\ mod12 (n + 12 * k) = mod12 n
  /\ mod12 (mod12 n) = mod12 n
  /\ mod12N (Number.Fin n) = Number.Fin (mod12 n).
Proof.
  split; [apply mod12_spec|]. split; [apply mod12_range|].
  split; [|split; [|apply mod12N_Fin]]; rewrite !mod12_spec.
  - rewrite Z.mul_comm. apply Z.mod_add. lia.
  - apply Z.mod_mod. lia.
Qed.

(** X2.  [sign] is the signum: it is -1, 0 or 1, a number is its sign times
    its absolute value, and negating a number negates its sign.  On a
    double that is an integer the function of the program computes just
    that; on NaN it gives -1. *)
Theorem sign_signum (n : Z) :
  (sign n = -1 \/ sign n = 0 \/ sign n = 1)%Z
  /\ (n = sign n * Z.abs n)%Z
  /\ (sign n = 0 <-> n = 0)%Z
  /\ sign (- n) = (- sign n)%Z
  /\ signN (Number.Fin n) = Number.Fin (sign n)
  /\ signN Number.NaN = Number.Fin (-1).
Proof.
  split; [|split; [|split; [|split; [|split; [apply signN_Fin | reflexivity]]]]];
    rewrite !sign_sgn; lia.
Qed.

(* ================================================================== *)
(** ** White space *)

Lemma trimStart_blank ws s : blank ws -> trimStart (ws ++ s) = trimStart s.
Proof.
  induction 1 as [|c ws Hc _ IH]; simpl; [reflexivity|]. now rewrite Hc.
Qed.

Lemma trimStart_nil_blank s : trimStart s = [] <-> blank s.
Proof.
  unfold blank. induction s as [|c s IH]; simpl.
  - split; auto.
  - destruct (isWhiteSpace c) eqn:Hc.
    + rewrite IH. split; [now constructor|]. intros H. now inversion H.
    + split; [discriminate|]. intros H. inversion H. congruence.
Qed.

Lemma trimStart_app s t : trimStart s <> [] -> trimStart (s ++ t) = trimStart s ++ t.
Proof.
  induction s as [|c s IH]; simpl; [congruence|].
  destruct (isWhiteSpace c); auto.
Qed.

Lemma blank_rev ws : blank ws -> blank (rev ws).
Proof. unfold blank. apply Forall_rev. Qed.

Lemma trimEnd_blank s ws : blank ws -> trimEnd (s ++ ws) = trimEnd s.
Proof.
  intros H. unfold trimEnd. rewrite rev_app_distr, trimStart_blank; auto.
  now apply blank_rev.
Qed.

Lemma trim_pad ws1 s ws2 :
  blank ws1 -> blank ws2 -> trim (ws1 ++ s ++ ws2) = trim s.
Proof.
  intros H1 H2. unfold trim. rewrite trimStart_blank by auto.
  destruct (trimStart s) as [|c r] eqn:E.
  - apply trimStart_nil_blank in E.
    assert (Hb : blank (s ++ ws2)) by (apply Forall_app; auto).
    apply trimStart_nil_blank in Hb. now rewrite Hb.
  - rewrite trimStart_app by congruence. rewrite E. now apply trimEnd_blank.
Qed.

Lemma trim_blank s : blank s -> trim s = [].
Proof.
  intros H. unfold trim. apply trimStart_nil_blank in H. now rewrite H.
Qed.

Lemma trimStart_head c s : isWhiteSpace c = false -> trimStart (c :: s) = c :: s.
Proof. intros H. simpl. now rewrite H. Qed.

(** The trim of a text that starts with a code unit other than white
    space keeps that code unit and trims the end of the rest. *)
Lemma trim_head c s : isWhiteSpace c = false -> trim (c :: s) = c :: trimEnd s.
Proof.
  intros Hc. unfold trim. rewrite trimStart_head by auto. unfold trimEnd.
  simpl rev. destruct (trimStart (rev s)) as [|d r] eqn:E.
  - apply trimStart_nil_blank in E.
    rewrite (trimStart_blank (rev s) [c] E), trimStart_head by auto. reflexivity.
  - rewrite trimStart_app by congruence. rewrite E, rev_app_distr. reflexivity.
Qed.

Lemma noWhiteSpace_trimStart t : noWhiteSpace t = true -> trimStart t = t.
Proof.
  destruct t as [|c t]; [reflexivity|]. simpl.
  rewrite andb_true_iff, negb_true_iff. intros [-> _]. reflexivity.
Qed.

Lemma noWhiteSpace_rev t : noWhiteSpace t = true -> noWhiteSpace (rev t) = true.
Proof.
  unfold noWhiteSpace. rewrite !forallb_forall. intros H c Hc.
  apply H. now apply in_rev.
Qed.

Lemma noWhiteSpace_trim t : noWhiteSpace t = true -> trim t = t.
Proof.
  intros H. unfold trim, trimEnd. rewrite (noWhiteSpace_trimStart t H).
  rewrite (noWhiteSpace_trimStart (rev t)) by now apply noWhiteSpace_rev.
  apply rev_involutive.
Qed.

(* ================================================================== *)
(** ** The tokens of a line *)

Lemma splitFrom_pieces s :
  forall cur inSep t,
    noWhiteSpace cur = true ->
    In t (splitFrom s cur inSep) -> noWhiteSpace t = true.
Proof.
  induction s as [|c s IH]; intros cur inSep t Hcur Hin; simpl in Hin.
  - destruct Hin as [<- | []]. now apply noWhiteSpace_rev.
  - destruct (isWhiteSpace c) eqn:Hc.
    + destruct inSep.
      * now apply (IH cur true).
      * destruct Hin as [<- | Hin]; [now apply noWhiteSpace_rev|].
        now apply (IH [] true).
    + apply (IH (c :: cur) false); auto. simpl. now rewrite Hc.
Qed.

(** X8.  Every token [parseMelody] hands to [parseNote] is not empty and has
    no white space, so the [trim] of [parseNote] leaves it as it is. *)
Theorem tokens_clean (line t : jsstring) :
  In t (tokensOf line) -> isToken t /\ trim t = t.
Proof.
  unfold tokensOf. intros H. apply filter_In in H as [Hin Hne].
  assert (Hws : noWhiteSpace t = true)
    by (apply (splitFrom_pieces _ [] false t eq_refl Hin)).
  split; [split|]; auto.
  - now destruct t.
  - now apply noWhiteSpace_trim.
Qed.

Lemma tokens_clean_witness : trim (u16 "D4") = u16 "D4".
Proof.
  apply (tokens_clean (u16 "  C4   D4 ") (u16 "D4")).
  vm_compute. right. left. reflexivity.
Defined.

Lemma splitFrom_token t :
  forall rest cur inSep,
    t <> [] -> noWhiteSpace t = true ->
    splitFrom (t ++ rest) cur inSep = splitFrom rest (rev t ++ cur) false.
Proof.
  induction t as [|c t IH]; intros rest cur inSep Hne Hws; [congruence|].
  simpl in Hws. rewrite andb_true_iff, negb_true_iff in Hws.
  destruct Hws as [Hc Hws]. simpl. rewrite Hc.
  destruct t as [|d t]; [reflexivity|].
  rewrite IH by (auto; discriminate). simpl. now rewrite <- !app_assoc.
Qed.

Lemma unwords_cons t t' rest :
  unwords (t :: t' :: rest) = t ++ u16 " " ++ unwords (t' :: rest).
Proof. reflexivity. Qed.

Lemma split_unwords tokens :
  tokens <> [] -> Forall isToken tokens ->
  forall inSep, splitFrom (unwords tokens) [] inSep = tokens.
Proof.
  induction tokens as [|t rest IH]; intros Hne Hall inSep; [congruence|].
  inversion Hall as [|? ? [Ht Hws] Hrest]; subst.
  destruct rest as [|t' rest].
  - simpl. rewrite <- (app_nil_r t) at 1.
    rewrite splitFrom_token by auto. simpl.
    now rewrite app_nil_r, rev_involutive.
  - rewrite unwords_cons, splitFrom_token by auto.
    cbn [u16 list_ascii_of_string map app splitFrom].
    change (isWhiteSpace (N_of_ascii " ")) with true. cbv iota.
    rewrite app_nil_r, rev_involutive. apply f_equal.
    apply IH; [discriminate | exact Hrest].
Qed.

Lemma unwords_trimmed tokens :
  Forall isToken tokens -> trim (unwords tokens) = unwords tokens.
Proof.
  intros Hall. destruct tokens as [|t rest]; [reflexivity|].
  assert (Hfirst : exists c r, unwords (t :: rest) = c :: r
                               /\ isWhiteSpace c = false).
  { inversion Hall as [|? ? [Ht Hws] _]; subst.
    destruct t as [|c t]; [congruence|]. simpl in Hws.
    rewrite andb_true_iff, negb_true_iff in Hws.
    destruct rest as [|t' rest'].
    - exists c, t. split; [reflexivity | tauto].
    - exists c. eexists. split; [reflexivity | tauto]. }
  assert (Hlast : forall ts, ts <> [] -> Forall isToken ts ->
                             exists c r, rev (unwords ts) = c :: r
                                         /\ isWhiteSpace c = false).
  { clear. induction ts as [|t rest IH]; intros Hne Hall; [congruence|].
    inversion Hall as [|? ? [Ht Hws] Hrest]; subst.
    destruct rest as [|t' rest].
    - simpl. apply noWhiteSpace_rev in Hws.
      destruct (rev t) as [|c r] eqn:E.
      + apply (f_equal (@rev N)) in E. rewrite rev_involutive in E.
        simpl in E. congruence.
      + simpl in Hws. rewrite andb_true_iff, negb_true_iff in Hws.
        exists c, r. tauto.
    - rewrite unwords_cons, !rev_app_distr.
      destruct (IH ltac:(discriminate) Hrest) as (c & r & -> & Hc).
      exists c. eexists. split; [reflexivity | exact Hc]. }
  destruct Hfirst as (c & r & E & Hc).
  destruct (Hlast (t :: rest) ltac:(discriminate) Hall) as (d & r' & E' & Hd).
  unfold trim, trimEnd. rewrite E, trimStart_head, <- E, E' by auto.
  rewrite trimStart_head, <- E' by auto. apply rev_involutive.
Qed.

(** X9.  Splitting is the inverse of joining: the tokens of the line that
    writes out a list of tokens, one space between two, are that list. *)
Theorem tokens_unwords (tokens : list jsstring) :
  Forall isToken tokens -> tokensOf (unwords tokens) = tokens.
Proof.
  intros Hall. unfold tokensOf, split_ws. rewrite unwords_trimmed by auto.
  destruct tokens as [|t rest]; [reflexivity|].
  rewrite split_unwords by (auto; discriminate).
  apply forallb_filter_id. apply forallb_forall. intros x Hx.
  rewrite Forall_forall in Hall. destruct (Hall x Hx) as [Hne _].
  now destruct x.
Qed.

Lemma tokens_unwords_witness :
  tokensOf (unwords [u16 "C4"; u16 "X9"; u16 "Eb-1"])
  = [u16 "C4"; u16 "X9"; u16 "Eb-1"].
Proof.
  apply (tokens_unwords [u16 "C4"; u16 "X9"; u16 "Eb-1"]).
  repeat constructor; discriminate.
Defined.

(* ================================================================== *)
(** ** [parseMelody] *)

Lemma parseNote_raw token n : parseNote token = Some n -> raw n = token.
Proof.
  intros H. destruct (parseNote_inv token n H)
    as (_ & _ & _ & _ & _ & _ & _ & _ & _ & Hraw & _). exact Hraw.
Qed.

Lemma tokenNotes_raw tokens : map raw (tokenNotes tokens) = filter parses tokens.
Proof.
  induction tokens as [|t rest IH]; simpl; [reflexivity|]. unfold parses at 1.
  destruct (parseNote t) as [n|] eqn:E; simpl; [|exact IH].
  now rewrite (parseNote_raw t n E), IH.
Qed.

Lemma tokenErrors_details tokens :
  forall i, map details (tokenErrors tokens i)
            = map (fun t => u16 "Cannot parse note " ++ dquote ++ t ++ dquote)
                  (filter (fun t => negb (parses t)) tokens).
Proof.
  induction tokens as [|t rest IH]; intros i; simpl; [reflexivity|].
  unfold parses at 1. destruct (parseNote t); simpl; now rewrite IH.
Qed.

Lemma tokens_partition tokens :
  forall i, length (tokenNotes tokens) + length (tokenErrors tokens i)
            = length tokens.
Proof.
  induction tokens as [|t rest IH]; intros i; simpl; [reflexivity|].
  destruct (parseNote t); simpl; rewrite <- (IH (S i)); lia.
Qed.

Lemma parseMelody_shape (line : jsstring) :
  length (fst (parseMelody line)) + length (snd (parseMelody line))
  = length (tokensOf line)
  /\ map raw (fst (parseMelody line)) = filter parses (tokensOf line)
  /\ map details (snd (parseMelody line))
     = map (fun t => u16 "Cannot parse note " ++ dquote ++ t ++ dquote)
           (filter (fun t => negb (parses t)) (tokensOf line)).
Proof.
  rewrite parseMelody_notes, parseMelody_issues.
  split; [apply tokens_partition|].
  split; [apply tokenNotes_raw | apply tokenErrors_details].
Qed.

(** X10.  Every token of a line becomes either a note or a ParseError, never
    both and never neither: the notes are the tokens that parse, in
    order and with their text kept in [raw]; the errors quote the tokens
    that do not, in order; together they are as many as the tokens. *)
Theorem parseMelody_partition (line : jsstring) :
  length (fst (parseMelody line)) + length (snd (parseMelody line))
  = length (tokensOf line)
  /\ map raw (fst (parseMelody line)) = filter parses (tokensOf line)
  /\ map details (snd (parseMelody line))
     = map (fun t => u16 "Cannot parse note " ++ dquote ++ t ++ dquote)
           (filter (fun t => negb (parses t)) (tokensOf line)).
Proof. exact (parseMelody_shape line). Qed.

Lemma filter_length_all {X : Type} (p : X -> bool) l :
  length (filter p l) = length l -> filter p l = l.
Proof.
  induction l as [|x l IH]; simpl; [reflexivity|].
  destruct (p x); simpl; intros H.
  - f_equal. apply IH. lia.
  - pose proof (filter_length_le p l). lia.
Qed.

Lemma parseMelody_no_errors (line : jsstring) :
  snd (parseMelody line) = [] ->
  map raw (fst (parseMelody line)) = tokensOf line.
Proof.
  intros H. destruct (parseMelody_shape line) as (Hlen & Hraw & _).
  rewrite H in Hlen. simpl in Hlen. rewrite Nat.add_0_r in Hlen.
  rewrite Hraw. apply filter_length_all.
  rewrite <- Hraw, length_map. exact Hlen.
Qed.

(** X11.  A line without ParseError gives one note for each token, in order:
    the index of a note is then the place of its token in the line. *)
Theorem parseMelody_clean (line : jsstring) :
  snd (parseMelody line) = [] ->
  map raw (fst (parseMelody line)) = tokensOf line.
Proof. exact (parseMelody_no_errors line). Qed.

Lemma parseMelody_clean_witness :
  map raw (fst (parseMelody (u16 " C4  d#5 Bb-1 "))) = tokensOf (u16 " C4  d#5 Bb-1 ").
Proof.
  apply (parseMelody_clean (u16 " C4  d#5 Bb-1 ")). reflexivity.
Defined.

(** An index counts notes, not tokens: after a token that does not
    parse, the notes stand one place lower than their tokens. *)
Example index_after_bad_token :
  map raw (fst (parseMelody (u16 "C4 X9 E4"))) = [u16 "C4"; u16 "E4"]
  /\ nth_error (tokensOf (u16 "C4 X9 E4")) 2 = Some (u16 "E4")
  /\ option_map raw (nth_error (fst (parseMelody (u16 "C4 X9 E4"))) 1)
     = Some (u16 "E4").
Proof. repeat split. Qed.

(** X13.  White space around a line changes nothing of what [parseMelody]
    returns, and white space around a key nothing of what [parseKey]
    returns. *)
Theorem padding_ignored (ws1 ws2 s : jsstring) :
  blank ws1 -> blank ws2 ->
  parseMelody (ws1 ++ s ++ ws2) = parseMelody s
  /\ parseKey (ws1 ++ s ++ ws2) = parseKey s.
Proof.
  intros H1 H2. unfold parseMelody, parseKey. now rewrite trim_pad.
Qed.

Lemma padding_ignored_witness :
  parseKey (u16 "  " ++ u16 "F# minor" ++ u16 " ") = parseKey (u16 "F# minor").
Proof.
  apply (padding_ignored (u16 "  ") (u16 " ") (u16 "F# minor"));
    repeat constructor.
Defined.

(** X14.  A line of white space only, the empty line included, has no notes
    and no errors. *)
Theorem parseMelody_blank (line : jsstring) :
  blank line -> parseMelody line = ([], []).
Proof.
  intros H. unfold parseMelody. now rewrite trim_blank.
Qed.

Lemma parseMelody_blank_witness : parseMelody (u16 "   ") = ([], []).
Proof. apply (parseMelody_blank (u16 "   ")). repeat constructor. Defined.

(* ================================================================== *)
(** ** What [parseNote] and [parseKey] accept *)

(** X3.  [parseNote] accepts a token exactly when its text, white space at
    the ends apart, is a letter A to G in either case, at most one [#] or
    lower-case [b], and a decimal number with an optional minus sign;
    nothing else yields a note. *)
Theorem parseNote_accepts_iff (token : jsstring) :
  (exists n, parseNote token = Some n)
  <-> (exists l acc oct,
          trim token = l :: acc ++ oct
          /\ isLetterAG l = true
          /\ (acc = [] \/ acc = u16 "#" \/ acc = u16 "b")
          /\ signedDecimal oct).
Proof.
  split.
  - intros [n H].
    destruct (parseNote_inv token n H)
      as (l & acc & oct & pc0 & Et & Hl & Hacc & Hoct & _).
    exists l, acc, oct. auto.
  - intros (l & acc & oct & Et & Hl & Hacc & Hoct).
    rewrite parseNote_eq, Et, (matchNote_complete l acc oct Hl Hacc Hoct).
    cbn [g1 g2 g3].
    destruct (accidentalPC_matched l acc Hl) as (pc0 & _ & ->). eauto.
Qed.

Lemma isLetterAG_upper l :
  isLetterAG l = true ->
  isLetterAG (toUpperCase1 l) = true
  /\ toUpperCase1 (toUpperCase1 l) = toUpperCase1 l
  /\ isWhiteSpace l = false /\ isWhiteSpace (toUpperCase1 l) = false.
Proof.
  intros H. apply isLetterAG_cases in H. simpl in H.
  repeat (destruct H as [<-|H]; [repeat split|]). destruct H.
Qed.

(** X4.  The case of the letter of a note does not matter for its pitch:
    a token and the same token with its letter in upper case are both
    rejected or give the same pitch value and pitch class. *)
Theorem parseNote_letter_case (l : N) (rest : jsstring) :
  isLetterAG l = true ->
  pitchOf (l :: rest) = pitchOf (toUpperCase1 l :: rest).
Proof.
  intros Hl. destruct (isLetterAG_upper l Hl) as (Hu & Hidem & Hws & Hwsu).
  unfold pitchOf. rewrite !parseNote_eq, !trim_head by auto.
  unfold matchNote. rewrite Hl, Hu.
  destruct (optionalClass isAccidental (trimEnd rest)) as [acc s2].
  destruct (isOctave s2); [|reflexivity]. cbn [g1 g2 g3].
  unfold toUpperCase. cbn [map]. rewrite Hidem.
  destruct (accidentalPC [toUpperCase1 l] acc); reflexivity.
Qed.

Lemma parseNote_letter_case_witness :
  pitchOf (u16 "g#3") = pitchOf (u16 "G#3").
Proof. apply (parseNote_letter_case 0x67%N (u16 "#3")). reflexivity. Defined.

Lemma upper_lower c U :
  (0x41 <= U <= 0x5A)%N -> toUpperCase1 c = U -> toLowerCase1 c = (U + 0x20)%N.
Proof.
  unfold toUpperCase1, toLowerCase1. intros HU.
  destruct ((0x61 <=? c) && (c <=? 0x7A))%N eqn:E1;
    destruct ((0x41 <=? c) && (c <=? 0x5A))%N eqn:E2;
    rewrite ?andb_true_iff, ?andb_false_iff, ?N.leb_le, ?N.leb_gt in *;
    intros <-; lia.
Qed.

(** The words the key pattern takes for the mode, and their lower case. *)
Lemma isModeWord_inv word :
  isModeWord word = true ->
  (toLowerCase word = u16 "major" \/ toLowerCase word = u16 "minor")
  /\ exists c r, word = c :: r /\ isWhiteSpace c = false
                 /\ isAccidental_i c = false
                 /\ exists d r', rev word = d :: r' /\ isWhiteSpace d = false.
Proof.
  unfold isModeWord. rewrite orb_true_iff, !jsstring_eqb_eq. unfold toUpperCase.
  intros H.
  assert (Hshape : exists c1 c2 c3 c4 c5,
             word = [c1; c2; c3; c4; c5]
             /\ toUpperCase1 c1 = 0x4D%N
             /\ (toUpperCase1 c2 = 0x41 /\ toUpperCase1 c3 = 0x4A
                 \/ toUpperCase1 c2 = 0x49 /\ toUpperCase1 c3 = 0x4E)%N
             /\ toUpperCase1 c4 = 0x4F%N /\ toUpperCase1 c5 = 0x52%N).
  { destruct word as [|c1 [|c2 [|c3 [|c4 [|c5 [|c6 w]]]]]];
      try (destruct H as [H|H]; discriminate H).
    exists c1, c2, c3, c4, c5. destruct H as [H|H]; injection H as H1 H2 H3 H4 H5;
      repeat split; auto. }
  destruct Hshape as (c1 & c2 & c3 & c4 & c5 & -> & H1 & H23 & H4 & H5).
  split.
  - unfold toLowerCase. cbn [map].
    rewrite (upper_lower c1 0x4D ltac:(lia) H1), (upper_lower c4 0x4F ltac:(lia) H4),
            (upper_lower c5 0x52 ltac:(lia) H5).
    destruct H23 as [[H2 H3] | [H2 H3]].
    + rewrite (upper_lower c2 0x41 ltac:(lia) H2), (upper_lower c3 0x4A ltac:(lia) H3).
      now left.
    + rewrite (upper_lower c2 0x49 ltac:(lia) H2), (upper_lower c3 0x4E ltac:(lia) H3).
      now right.
  - assert (Hm : (c1 = 0x4D \/ c1 = 0x6D)%N).
    { unfold toUpperCase1 in H1.
      destruct ((0x61 <=? c1) && (c1 <=? 0x7A))%N eqn:E;
        rewrite ?andb_true_iff, ?N.leb_le in E; lia. }
    assert (Hr : (c5 = 0x52 \/ c5 = 0x72)%N).
    { unfold toUpperCase1 in H5.
      destruct ((0x61 <=? c5) && (c5 <=? 0x7A))%N eqn:E;
        rewrite ?andb_true_iff, ?N.leb_le in E; lia. }
    exists c1, [c2; c3; c4; c5]. split; [reflexivity|].
    split; [destruct Hm as [-> | ->]; reflexivity|].
    split; [destruct Hm as [-> | ->]; reflexivity|].
    exists c5, [c4; c3; c2; c1]. split; [reflexivity|].
    destruct Hr as [-> | ->]; reflexivity.
Qed.

(** X6.  A key [parseKey] accepts is, white space at the ends apart, a
    letter A to G in either case, at most one [#], [b] or [B], any white
    space, and the word major or minor in any case.  The tonic is the
    pitch class of the letter, one higher after [#] and one lower after
    [b], between 0 and 11; the mode is the word in lower case. *)
Theorem parseKey_sound (keyStr : jsstring) (key : Key) :
  parseKey keyStr = Some key ->
  exists l acc ws word pc0,
    trim keyStr = l :: acc ++ ws ++ word
    /\ isLetterAG l = true
    /\ (acc = [] \/ acc = u16 "#" \/ acc = u16 "b" \/ acc = u16 "B")
    /\ blank ws
    /\ isModeWord word = true
    /\ lookup (toUpperCase [l]) LETTER_TO_PC = Some pc0
    /\ tonicPC key = ((pc0 + accidentalShift acc) mod 12)%Z
    /\ (0 <= tonicPC key < 12)%Z
    /\ mode key = toLowerCase word
    /\ (mode key = u16 "major" \/ mode key = u16 "minor").
Proof.
  rewrite parseKey_eq. intros H.
  destruct (matchKey (trim keyStr)) as [m|] eqn:Hm; [|discriminate].
  destruct (matchKey_inv _ _ Hm) as (l & acc & ws & word & Et & -> & Hl & Hacc & Hws & Hw).
  destruct (accidentalPC_matched l acc Hl) as (pc0 & Elk & E).
  cbn [g1 g2 g3] in H. rewrite E in H. injection H as <-.
  exists l, acc, ws, word, pc0. cbn [tonicPC mode].
  rewrite mod12_spec.
  repeat split; auto; try (apply Z.mod_pos_bound; lia).
  apply (isModeWord_inv word Hw).
Qed.

Lemma parseKey_sound_witness :
  exists l acc ws word pc0,
    trim (u16 " eb  MiNoR") = l :: acc ++ ws ++ word
    /\ isLetterAG l = true
    /\ (acc = [] \/ acc = u16 "#" \/ acc = u16 "b" \/ acc = u16 "B")
    /\ blank ws
    /\ isModeWord word = true
    /\ lookup (toUpperCase [l]) LETTER_TO_PC = Some pc0
    /\ tonicPC (mkKey 3 (u16 "minor")) = ((pc0 + accidentalShift acc) mod 12)%Z
    /\ (0 <= tonicPC (mkKey 3 (u16 "minor")) < 12)%Z
    /\ mode (mkKey 3 (u16 "minor")) = toLowerCase word
    /\ (mode (mkKey 3 (u16 "minor")) = u16 "major"
        \/ mode (mkKey 3 (u16 "minor")) = u16 "minor").
Proof.
  apply (parseKey_sound (u16 " eb  MiNoR") (mkKey 3 (u16 "minor"))). reflexivity.
Defined.

Lemma matchKey_complete l acc ws word :
  isLetterAG l = true ->
  acc = [] \/ acc = u16 "#" \/ acc = u16 "b" \/ acc = u16 "B" ->
  blank ws -> isModeWord word = true ->
  matchKey (l :: acc ++ ws ++ word) = Some (mkGroups [l] acc word).
Proof.
  intros Hl Hacc Hws Hw. unfold matchKey. rewrite Hl.
  destruct (isModeWord_inv word Hw) as (_ & c & r & Ew & Hc & Hca & _).
  assert (Htrim : trimStart (ws ++ word) = word).
  { rewrite trimStart_blank by auto. rewrite Ew. now apply trimStart_head. }
  assert (Hopt : optionalClass isAccidental_i (ws ++ word) = ([], ws ++ word)).
  { unfold optionalClass. destruct ws as [|w ws']; simpl.
    - rewrite Ew, Hca. reflexivity.
    - inversion Hws as [|? ? Hw' _]; subst.
      assert (isAccidental_i w = false) as ->; [|reflexivity].
      unfold isAccidental_i, toUpperCase1.
      destruct (isAccidental_i w) eqn:Ea; [|exact Ea]. exfalso.
      unfold isAccidental_i, toUpperCase1 in Ea.
      rewrite orb_true_iff, N.eqb_eq in Ea. destruct Ea as [-> | Ea]; [discriminate|].
      simpl in Ea. destruct ((97 <=? w) && (w <=? 122))%N eqn:Er;
        apply N.eqb_eq in Ea; rewrite ?andb_true_iff, ?N.leb_le in Er.
      + assert (w = 98%N) as -> by lia. discriminate.
      + subst w. discriminate. }
  destruct Hacc as [-> | [-> | [-> | ->]]].
  - cbn [app]. rewrite Hopt, Htrim, Hw. reflexivity.
  - cbn [u16 list_ascii_of_string map app optionalClass].
    change (isAccidental_i (N_of_ascii "#")) with true. cbv iota.
    now rewrite Htrim, Hw.
  - cbn [u16 list_ascii_of_string map app optionalClass].
    change (isAccidental_i (N_of_ascii "b")) with true. cbv iota.
    now rewrite Htrim, Hw.
  - cbn [u16 list_ascii_of_string map app optionalClass].
    change (isAccidental_i (N_of_ascii "B")) with true. cbv iota.
    now rewrite Htrim, Hw.
Qed.

(** X7.  [parseKey] accepts every key of that form, with no white space
    between tonic and mode if there is none, and with the mode word in
    any case; an upper-case [B] after the letter is taken and leaves the
    tonic where the letter has it. *)
Theorem parseKey_complete (l : N) (acc ws word : jsstring) (pc0 : Z) :
  isLetterAG l = true ->
  acc = [] \/ acc = u16 "#" \/ acc = u16 "b" \/ acc = u16 "B" ->
  blank ws -> isModeWord word = true ->
  lookup (toUpperCase [l]) LETTER_TO_PC = Some pc0 ->
  parseKey (l :: acc ++ ws ++ word)
  = Some (mkKey ((pc0 + accidentalShift acc) mod 12) (toLowerCase word)).
Proof.
  intros Hl Hacc Hws Hw Elk.
  destruct (isLetterAG_upper l Hl) as (_ & _ & Hlws & _).
  destruct (isModeWord_inv word Hw) as (_ & c & r & Ew & _ & _ & d & r' & Er & Hd).
  assert (Htrim : trim (l :: acc ++ ws ++ word) = l :: acc ++ ws ++ word).
  { rewrite trim_head by auto. f_equal. unfold trimEnd.
    assert (Hrw : trimStart (rev (acc ++ ws ++ word)) = rev (acc ++ ws ++ word)).
    { rewrite !rev_app_distr, Er. simpl. now rewrite Hd. }
    rewrite Hrw. apply rev_involutive. }
  rewrite parseKey_eq, Htrim, (matchKey_complete l acc ws word Hl Hacc Hws Hw).
  cbn [g1 g2 g3].
  destruct (accidentalPC_matched l acc Hl) as (pc0' & Elk' & ->).
  rewrite Elk in Elk'. injection Elk' as <-. now rewrite mod12_spec.
Qed.

Lemma parseKey_complete_witness :
  parseKey (0x44%N :: u16 "B" ++ [] ++ u16 "MAJOR")
  = Some (mkKey ((2 + accidentalShift (u16 "B")) mod 12) (toLowerCase (u16 "MAJOR"))).
Proof.
  apply (parseKey_complete 0x44%N (u16 "B") [] (u16 "MAJOR") 2%Z);
    try reflexivity; [tauto | constructor].
Defined.

(** X15.  The analyzer uses the key only through the pitch class of its
    tonic: two keys that parse to the same tonic, such as a major key and
    the minor key on the same note, give the same issues. *)
Theorem mode_ignored (upperLine lowerLine keyStr keyStr' : jsstring) (key key' : Key) :
  parseKey keyStr = Some key ->
  parseKey keyStr' = Some key' ->
  tonicPC key = tonicPC key' ->
  lintCounterpoint upperLine lowerLine keyStr
  = lintCounterpoint upperLine lowerLine keyStr'.
Proof.
  intros H H' Heq. unfold lintCounterpoint, lintBody. now rewrite H, H', Heq.
Qed.

Lemma mode_ignored_witness :
  lintCounterpoint (u16 "B3 D4") (u16 "G3 G3") (u16 "C major")
  = lintCounterpoint (u16 "B3 D4") (u16 "G3 G3") (u16 "c  MINOR").
Proof.
  apply (mode_ignored _ _ (u16 "C major") (u16 "c  MINOR")
                      (mkKey 0 (u16 "major")) (mkKey 0 (u16 "minor")));
    reflexivity.
Defined.

(* ================================================================== *)
(** ** [lintCounterpoint] as a whole *)

Lemma elem_past (X : list Note) i s : length X <= i -> elem X i s = None.
Proof.
  intros H. unfold elem. now rewrite (proj2 (nth_error_None X i) H).
Qed.

(** X16.  [lintCounterpoint] never reads a field of [undefined]: on every
    input it returns an array.  The bounds of its loops are as far as
    they can go: one iteration more of the loop of rule 1 or of rule 2
    would throw, whatever the voices. *)
Theorem lintCounterpoint_never_throws (upperLine lowerLine keyStr : jsstring) :
  lintCounterpoint upperLine lowerLine keyStr <> None
  /\ (forall A B s,
         parallelBody A B (Nat.min (length A) (length B) - 1) s = None)
  /\ (forall v X s, leapBody v X (length X - 1) s = None).
Proof.
  split; [rewrite lintCounterpoint_run; discriminate|]. split.
  - intros A B s. unfold parallelBody, bind.
    destruct (elem A _ s) as [[a0 s0]|] eqn:Ea0; [|reflexivity].
    destruct (elem B _ s0) as [[b0 s1]|] eqn:Eb0; [|reflexivity].
    destruct (Nat.le_ge_cases (length A) (length B)) as [Hle | Hle].
    + rewrite (elem_past A) by lia. reflexivity.
    + destruct (elem A _ s1) as [[a1 s2]|]; [|reflexivity].
      rewrite (elem_past B) by lia. reflexivity.
  - intros v X s. unfold leapBody, bind. rewrite (elem_past X) by lia. reflexivity.
Qed.

Lemma pass_zero out : pass out 0 = [].
Proof. reflexivity. Qed.

(** X17.  Voices of at most one note each set off no rule: with a key that
    parses, the analyzer returns the ParseError issues of the two lines
    and, when one voice has a note and the other none, the
    LengthMismatch issue, and nothing else. *)
Theorem short_voices (upperLine lowerLine keyStr : jsstring) (key : Key) :
  parseKey keyStr = Some key ->
  length (upperNotes upperLine) <= 1 ->
  length (lowerNotes lowerLine) <= 1 ->
  lintCounterpoint upperLine lowerLine keyStr
  = Some (snd (parseMelody upperLine) ++ snd (parseMelody lowerLine)
          ++ (if negb (length (upperNotes upperLine) =? length (lowerNotes lowerLine))
              then [mkIssue LengthMismatch None None
                            (lengthDetails (length (upperNotes upperLine))
                                           (length (lowerNotes lowerLine)))]
              else [])).
Proof.
  intros Hkey HA HB. rewrite lintCounterpoint_run, (lintOut_parsed _ _ _ key Hkey).
  unfold parallelPass, leapPass, leadingPass.
  replace (Nat.min _ _ - 1) with 0 by lia.
  replace (length (upperNotes upperLine) - 1) with 0 by lia.
  replace (length (lowerNotes lowerLine) - 1) with 0 by lia.
  rewrite !pass_zero. unfold lengthOut. now rewrite !app_nil_r.
Qed.

Lemma short_voices_witness :
  lintCounterpoint (u16 "C4 X") (u16 "  ") (u16 "D minor")
  = Some (snd (parseMelody (u16 "C4 X")) ++ snd (parseMelody (u16 "  "))
          ++ [mkIssue LengthMismatch None None (lengthDetails 1 0)]).
Proof.
  apply (short_voices (u16 "C4 X") (u16 "  ") (u16 "D minor")
                      (mkKey 2 (u16 "minor")));
    [reflexivity | vm_compute; lia | vm_compute; lia].
Defined.

(** X18.  An empty result means the whole input was understood: the key
    parsed, every token of both lines became a note, and the two voices
    have the same number of notes. *)
Theorem empty_result (upperLine lowerLine keyStr : jsstring) :
  lintCounterpoint upperLine lowerLine keyStr = Some [] ->
  (exists key, parseKey keyStr = Some key)
  /\ map raw (upperNotes upperLine) = tokensOf upperLine
  /\ map raw (lowerNotes lowerLine) = tokensOf lowerLine
  /\ length (upperNotes upperLine) = length (lowerNotes lowerLine).
Proof.
  rewrite lintCounterpoint_run. intros [= H]. unfold lintOut in H.
  destruct (parseKey keyStr) as [key|]; [|discriminate].
  apply app_eq_nil in H as [Hu H]. apply app_eq_nil in H as [Hl H].
  apply app_eq_nil in H as [Hlm _].
  split; [eauto|]. split; [now apply parseMelody_no_errors|].
  split; [now apply parseMelody_no_errors|].
  unfold lengthOut in Hlm.
  destruct (Nat.eqb_spec (length (upperNotes upperLine))
                         (length (lowerNotes lowerLine))); [auto | discriminate].
Qed.

Lemma empty_result_witness :
  length (upperNotes (u16 "B3 C4")) = length (lowerNotes (u16 "G3 G3")).
Proof.
  apply (empty_result (u16 "B3 C4") (u16 "G3 G3") (u16 "C major")). reflexivity.
Defined.

Lemma In_lintOut upperLine lowerLine keyStr iss :
  In iss (lintOut upperLine lowerLine keyStr) ->
  (parseKey keyStr = None /\ iss = keyIssue keyStr)
  \/ exists key,
      parseKey keyStr = Some key
      /\ (In iss (snd (parseMelody upperLine))
          \/ In iss (snd (parseMelody lowerLine))
          \/ In iss (lengthOut (upperNotes upperLine) (lowerNotes lowerLine))
          \/ In iss (parallelPass (upperNotes upperLine) (lowerNotes lowerLine))
          \/ In iss (leapPass Voice.A (upperNotes upperLine))
          \/ In iss (leapPass Voice.B (lowerNotes lowerLine))
          \/ In iss (leadingPass Voice.A key (upperNotes upperLine))
          \/ In iss (leadingPass Voice.B key (lowerNotes lowerLine))).
Proof.
  unfold lintOut. destruct (parseKey keyStr) as [key|].
  - intros H. right. exists key. split; [reflexivity|].
    unfold rulesOut in H. rewrite !in_app_iff in H. tauto.
  - intros [<- | []]. now left.
Qed.

(** X19.  The fields of the issues: an issue of the leap rule or of the
    leading-tone rule carries a voice and an index; a parallel issue an
    index and no voice; the LengthMismatch issue neither; a ParseError no
    voice. *)
Theorem issue_fields (upperLine lowerLine keyStr : jsstring) :
  exists issues,
    lintCounterpoint upperLine lowerLine keyStr = Some issues
    /\ Forall fieldsOk issues.
Proof.
  exists (lintOut upperLine lowerLine keyStr).
  split; [apply lintCounterpoint_run|]. apply Forall_forall. intros iss Hin.
  unfold fieldsOk.
  destruct (In_lintOut _ _ _ _ Hin)
    as [[_ ->] | (key & _ & [H | [H | [H | [H | [H | [H | [H | H]]]]]]])].
  - reflexivity.
  - apply parse_issue_kind in H as [-> Hv]. exact Hv.
  - apply parse_issue_kind in H as [-> Hv]. exact Hv.
  - unfold lengthOut in H. destruct (negb _); [|destruct H].
    destruct H as [<- | []]. now split.
  - apply parallel_pass_kind in H as (j & _ & [-> | ->] & Hv & Hi);
      split; congruence.
  - apply leap_pass_kind in H as (j & _ & -> & Hv & Hi); split; congruence.
  - apply leap_pass_kind in H as (j & _ & -> & Hv & Hi); split; congruence.
  - apply leading_pass_kind in H as (j & _ & -> & Hv & Hi); split; congruence.
  - apply leading_pass_kind in H as (j & _ & -> & Hv & Hi); split; congruence.
Qed.

(* ================================================================== *)
(** ** The parallel rule across inputs *)

Lemma similar_swap a0 b0 a1 b1 : similar a0 b0 a1 b1 = similar b0 a0 b1 a1.
Proof.
  unfold similar.
  rewrite (eqb_sym (signN (Number.sub (midi a1) (midi a0)))
                   (signN (Number.sub (midi b1) (midi b0)))).
  destruct (Number.eqb (signN (Number.sub (midi a1) (midi a0))) 0),
           (Number.eqb (signN (Number.sub (midi b1) (midi b0))) 0);
    reflexivity.
Qed.

Lemma bothClass_swap c a0 b0 a1 b1 : bothClass c a0 b0 a1 b1 = bothClass c b0 a0 b1 a1.
Proof.
  unfold bothClass.
  now rewrite (abs_sub_swap (midi b0) (midi a0)), (abs_sub_swap (midi b1) (midi a1)).
Qed.

Lemma parallelOut_swap A B i ty :
  ty = Parallel5ths \/ ty = Parallel8ves ->
  count (isAt ty i) (parallelOut A B i) = count (isAt ty i) (parallelOut B A i).
Proof.
  intros Hty.
  destruct (nth_error A i) as [a0|] eqn:Ea0;
    [|unfold parallelOut; rewrite Ea0; now destruct (nth_error B i)].
  destruct (nth_error B i) as [b0|] eqn:Eb0;
    [|unfold parallelOut; rewrite Ea0, Eb0; reflexivity].
  destruct (nth_error A (i + 1)) as [a1|] eqn:Ea1;
    [|unfold parallelOut; rewrite Ea0, Eb0, Ea1;
      now destruct (nth_error B (i + 1))].
  destruct (nth_error B (i + 1)) as [b1|] eqn:Eb1;
    [|unfold parallelOut; rewrite Ea0, Eb0, Ea1, Eb1; reflexivity].
  destruct Hty as [-> | ->].
  - rewrite (parallelOut_count A B i a0 b0 a1 b1 7%Z) by auto.
    rewrite (parallelOut_count B A i b0 a0 b1 a1 7%Z) by auto.
    now rewrite similar_swap, bothClass_swap.
  - rewrite (parallelOut_count A B i a0 b0 a1 b1 0%Z) by auto.
    rewrite (parallelOut_count B A i b0 a0 b1 a1 0%Z) by auto.
    now rewrite similar_swap, bothClass_swap.
Qed.

(** X20.  The parallel rule does not tell the upper line from the lower: with
    the two lines exchanged the analyzer emits Parallel5ths and
    Parallel8ves at the same indices. *)
Theorem parallel_swap (upperLine lowerLine keyStr : jsstring) (i : nat) :
  exists issues issues',
    lintCounterpoint upperLine lowerLine keyStr = Some issues
    /\ lintCounterpoint lowerLine upperLine keyStr = Some issues'
    /\ (emitsAt Parallel5ths i issues <-> emitsAt Parallel5ths i issues')
    /\ (emitsAt Parallel8ves i issues <-> emitsAt Parallel8ves i issues').
Proof.
  exists (lintOut upperLine lowerLine keyStr), (lintOut lowerLine upperLine keyStr).
  split; [apply lintCounterpoint_run|]. split; [apply lintCounterpoint_run|].
  destruct (parseKey keyStr) as [key|] eqn:Hkey.
  - rewrite !emitsAt_count, !(count_parallel _ _ _ key) by auto. cbv zeta.
    unfold upperNotes, lowerNotes.
    rewrite (Nat.min_comm (length (fst (parseMelody lowerLine)))).
    rewrite (parallelOut_swap (fst (parseMelody lowerLine))) by auto.
    rewrite (parallelOut_swap (fst (parseMelody lowerLine)) _ _ Parallel8ves) by auto.
    tauto.
  - unfold lintOut. rewrite Hkey. tauto.
Qed.

Lemma count_le_one (p q : Issue -> bool) l :
  (forall x, p x = true -> q x = true -> False) ->
  length l <= 1 -> count p l + count q l <= 1.
Proof.
  intros Hpq. destruct l as [|x [|y l]]; simpl; intros Hl; try lia.
  - unfold count. simpl. lia.
  - unfold count. simpl.
    destruct (p x) eqn:Hp, (q x) eqn:Hq; simpl; try lia.
    exfalso. eauto.
Qed.

(** X21.  A pair of aligned positions gets at most one parallel issue: the
    analyzer never emits Parallel5ths and Parallel8ves at the same index,
    nor either of them twice. *)
Theorem parallel_at_most_one (upperLine lowerLine keyStr : jsstring) (i : nat) :
  exists issues,
    lintCounterpoint upperLine lowerLine keyStr = Some issues
    /\ count (isAt Parallel5ths i) issues + count (isAt Parallel8ves i) issues <= 1.
Proof.
  exists (lintOut upperLine lowerLine keyStr).
  split; [apply lintCounterpoint_run|].
  destruct (parseKey keyStr) as [key|] eqn:Hkey.
  - rewrite !(count_parallel _ _ _ key) by auto. cbv zeta.
    destruct (i <? _); [|lia].
    apply count_le_one.
    + intros x Hp Hq. apply isAt_true in Hp, Hq. destruct Hp, Hq. congruence.
    + destruct (parallelOut_shape (upperNotes upperLine) (lowerNotes lowerLine) i)
        as [-> | (iss & -> & _)]; simpl; lia.
  - unfold lintOut. rewrite Hkey. unfold count. simpl. lia.
Qed.

(** X22.  A line set against itself, with finite pitch values: the
    analyzer reports parallel octaves (or unisons) at exactly the
    positions where the line moves, and never parallel fifths. *)
Theorem doubled_line (line keyStr : jsstring) (key : Key) (i : nat) (x0 x1 : Note) :
  parseKey keyStr = Some key ->
  nth_error (upperNotes line) i = Some x0 ->
  nth_error (upperNotes line) (i + 1) = Some x1 ->
  finite x0 -> finite x1 ->
  exists issues,
    lintCounterpoint line line keyStr = Some issues
    /\ (emitsAt Parallel8ves i issues <-> midi x1 <> midi x0)
    /\ ~ emitsAt Parallel5ths i issues.
Proof.
  intros Hkey E0 E1 F0 F1. exists (lintOut line line keyStr).
  split; [apply lintCounterpoint_run|].
  assert (X0 : exactInterval x0 x0).
  { repeat split; auto. rewrite Z.sub_diag. vm_compute. discriminate. }
  assert (X1 : exactInterval x1 x1).
  { repeat split; auto. rewrite Z.sub_diag. vm_compute. discriminate. }
  rewrite (parallel_emits_iff line line keyStr key i x0 x1 x0 x1 0%Z Parallel8ves)
    by auto.
  rewrite (parallel_emits_iff line line keyStr key i x0 x1 x0 x1 7%Z Parallel5ths)
    by auto.
  rewrite !Z.sub_diag. change (Z.abs 0 mod 12)%Z with 0%Z.
  rewrite (finite_midi _ F0), (finite_midi _ F1).
  split; [|intros (_ & H & _); discriminate H].
  split.
  - intros ((Hd & _) & _) Heq. injection Heq as Heq. apply Hd.
    rewrite Heq, Z.sub_diag. reflexivity.
  - intros Hne.
    assert (midiZ x1 - midiZ x0 <> 0)%Z by (intros H; apply Hne; f_equal; lia).
    repeat split; auto; lia.
Qed.

Lemma doubled_line_witness :
  exists issues,
    lintCounterpoint (u16 "C4 D4 D4") (u16 "C4 D4 D4") (u16 "C major") = Some issues
    /\ emitsAt Parallel8ves 0 issues.
Proof.
  destruct (doubled_line (u16 "C4 D4 D4") (u16 "C major") (mkKey 0 (u16 "major")) 0
                         (mkNote (u16 "C4") 60 0) (mkNote (u16 "D4") 62 2)
                         eq_refl eq_refl eq_refl eq_refl eq_refl)
    as (issues & Hrun & H8 & _).
  exists issues. split; [exact Hrun|]. apply H8. discriminate.
Defined.

(* ================================================================== *)
(** ** Where a note stands *)

Lemma tokenNotes_position tokens :
  forall j t n,
    nth_error tokens j = Some t -> parseNote t = Some n ->
    nth_error (tokenNotes tokens) (length (filter parses (firstn j tokens)))
    = Some n.
Proof.
  induction tokens as [|t0 rest IH]; intros j t n Hj Hn.
  - destruct j; discriminate.
  - destruct j as [|j]; simpl in Hj |- *.
    + injection Hj as ->. now rewrite Hn.
    + unfold parses at 1. destruct (parseNote t0) as [n0|]; simpl; eauto.
Qed.

(** X12.  The index of a note counts the notes before it, not the tokens: the
    note of the token at place [j] of a line stands at [j] less the
    number of tokens before it that did not parse.  A token that does not
    parse so moves every later note of its voice one place down against
    the other voice. *)
Theorem note_position (line t : jsstring) (j : nat) (n : Note) :
  nth_error (tokensOf line) j = Some t ->
  parseNote t = Some n ->
  nth_error (fst (parseMelody line))
            (j - length (filter (fun t => negb (parses t)) (firstn j (tokensOf line))))
  = Some n.
Proof.
  intros Hj Hn. rewrite parseMelody_notes.
  rewrite <- (tokenNotes_position _ j t n Hj Hn). f_equal.
  pose proof (filter_length parses (firstn j (tokensOf line))) as Hlen.
  rewrite length_firstn in Hlen.
  assert (j < length (tokensOf line)) by (apply nth_error_Some; congruence).
  lia.
Qed.

Lemma note_position_witness :
  nth_error (fst (parseMelody (u16 "C4 X9 E4")))
            (2 - length (filter (fun t => negb (parses t))
                                (firstn 2 (tokensOf (u16 "C4 X9 E4")))))
  = Some (mkNote (u16 "E4") 64 4).
Proof.
  apply (note_position (u16 "C4 X9 E4") (u16 "E4") 2); reflexivity.
Defined.

(* ================================================================== *)
(** ** Accidentals and the octave *)

Lemma signedDecimal_noWhiteSpace oct : signedDecimal oct -> noWhiteSpace oct = true.
Proof.
  intros (ds & Hs & _ & Hall).
  assert (Hds : noWhiteSpace ds = true).
  { unfold noWhiteSpace. apply forallb_forall. intros d Hd.
    rewrite Forall_forall in Hall. specialize (Hall d Hd).
    unfold isDigit in Hall. rewrite andb_true_iff, !N.leb_le in Hall.
    apply negb_true_iff. unfold isWhiteSpace.
    repeat (apply orb_false_iff; split);
      rewrite ?andb_false_iff, ?N.leb_gt, ?N.eqb_neq; lia. }
  destruct Hs as [-> | ->]; [exact Hds|]. simpl. exact Hds.
Qed.

(** The note of a token written as the grammar has it. *)
Lemma parseNote_grammar l acc oct pc0 :
  isLetterAG l = true ->
  acc = [] \/ acc = u16 "#" \/ acc = u16 "b" ->
  signedDecimal oct ->
  lookup (toUpperCase [l]) LETTER_TO_PC = Some pc0 ->
  parseNote (l :: acc ++ oct)
  = Some (mkNote (l :: acc ++ oct)
                 (Number.add (Number.mul 12 (Number.add (parseInt oct) 1))
                             (mod12 (pc0 + accidentalShift acc)))
                 (mod12 (pc0 + accidentalShift acc))).
Proof.
  intros Hl Hacc Hoct Elk.
  destruct (isLetterAG_upper l Hl) as (_ & _ & Hlws & _).
  assert (Htrim : trim (l :: acc ++ oct) = l :: acc ++ oct).
  { apply noWhiteSpace_trim. simpl. rewrite Hlws. simpl.
    unfold noWhiteSpace. rewrite forallb_app.
    fold (noWhiteSpace oct). rewrite (signedDecimal_noWhiteSpace oct Hoct).
    destruct Hacc as [-> | [-> | ->]]; reflexivity. }
  rewrite parseNote_eq, Htrim, (matchNote_complete l acc oct Hl Hacc Hoct).
  cbn [g1 g2 g3].
  destruct (accidentalPC_matched l acc Hl) as (pc0' & Elk' & ->).
  rewrite Elk in Elk'. now injection Elk' as <-.
Qed.

(** X5.  With an octave in the exact range, a sharp raises the pitch
    value of a note by one semitone and a flat lowers it by one, with two
    exceptions: the pitch class wraps around inside the octave the token
    names, so that C flat lies 11 semitones above the C of its octave and
    B sharp 11 semitones below the B. *)
Theorem accidental_effect (l : N) (acc oct : jsstring) :
  isLetterAG l = true ->
  acc = u16 "#" \/ acc = u16 "b" ->
  signedDecimal oct ->
  exactOctave oct ->
  exists n n0,
    parseNote (l :: acc ++ oct) = Some n
    /\ parseNote (l :: oct) = Some n0
    /\ finite n /\ finite n0
    /\ (midiZ n - midiZ n0)%Z
       = if (toUpperCase1 l =? 0x43)%N && jsstring_eqb acc (u16 "b") then 11%Z
         else if (toUpperCase1 l =? 0x42)%N && jsstring_eqb acc (u16 "#") then (-11)%Z
         else accidentalShift acc.
Proof.
  intros Hl Hacc Hoct Hex.
  destruct (lookup_letter l Hl) as [pc0 Elk].
  pose proof (parseNote_grammar l acc oct pc0 Hl ltac:(tauto) Hoct Elk) as E.
  pose proof (parseNote_grammar l [] oct pc0 Hl (or_introl eq_refl) Hoct Elk) as E0.
  rewrite (midi_exact oct _ Hex (mod12_range _)) in E.
  rewrite (midi_exact oct _ Hex (mod12_range _)) in E0.
  eexists. eexists.
  split; [exact E|]. split; [exact E0|].
  split; [reflexivity|]. split; [reflexivity|].
  unfold midiZ. cbn [midi]. rewrite !mod12_spec.
  apply isLetterAG_cases in Hl. simpl in Hl.
  change (accidentalShift []) with 0%Z.
  repeat (destruct Hl as [<-|Hl];
          [vm_compute in Elk; injection Elk as <-;
           destruct Hacc as [-> | ->];
           [change (accidentalShift (u16 "#")) with 1%Z
           |change (accidentalShift (u16 "b")) with (-1)%Z];
           match goal with
           | |- _ = ?r => let r' := eval vm_compute in r in change r with r'
           end;
           Z.to_euclidean_division_equations; lia|]).
  destruct Hl.
Qed.

Lemma accidental_effect_witness :
  exists n n0,
    parseNote (u16 "Cb4") = Some n /\ parseNote (u16 "C4") = Some n0
    /\ (midiZ n - midiZ n0 = 11)%Z.
Proof.
  destruct (accidental_effect 0x43%N (u16 "b") (u16 "4") eq_refl
                              (or_intror eq_refl))
    as (n & n0 & H & H0 & _ & _ & Hd).
  - exists [0x34%N]. split; [now left|]. split; [discriminate|]. repeat constructor.
  - vm_compute. discriminate.
  - exists n, n0. repeat split; auto.
Defined.

(* ================================================================== *)
(** ** Tokens in the exact range *)

(** X24.  Tokens of at most fifteen code units are in the exact range: the
    octave of such a token is one for which nothing rounds on the way to
    the pitch value, and between the notes of two such tokens the program
    computes the interval exactly. *)
Theorem short_tokens_exact (t t' : jsstring) (n n' : Note) :
  parseNote t = Some n -> parseNote t' = Some n' ->
  length (trim t) <= 15 -> length (trim t') <= 15 ->
  exactOctave (octaveOf t) /\ exactInterval n n'
  /\ Number.sub (midi n) (midi n') = Number.Fin (midiZ n - midiZ n').
Proof.
  intros H H' Hlen Hlen'.
  destruct (midi_safe t n H Hlen) as (Hex & Hfin & Hm).
  destruct (midi_safe t' n' H' Hlen') as (_ & Hfin' & Hm').
  pose proof (exactInterval_safe n n' Hfin Hfin' Hm Hm') as X.
  split; [exact Hex|]. split; [exact X|].
  rewrite (finite_midi _ Hfin), (finite_midi _ Hfin').
  apply sub_exact. apply X.
Qed.

Lemma short_tokens_exact_witness :
  Number.sub (midi (mkNote (u16 "C4") 60 0)) (midi (mkNote (u16 "F3") 53 5))
  = Number.Fin 7.
Proof.
  apply (short_tokens_exact (u16 "C4") (u16 "F3") _ _ eq_refl eq_refl);
    vm_compute; repeat constructor.
Defined.

(* ================================================================== *)
(** ** Rule 3 and the octave *)

(** X23.  Rule 3 looks at pitch classes only.  A leading tone is reported
    exactly when the next note is not a tonic, in whatever octave that
    tonic lies: a leading tone that falls a major seventh to the tonic
    below it counts as resolved, as one that rises a semitone does. *)
Theorem leading_tone_any_octave (upperLine lowerLine keyStr : jsstring) (key : Key)
        (v : Voice.t) (i : nat) (x0 x1 : Note) :
  parseKey keyStr = Some key ->
  nth_error (notesOf v upperLine lowerLine) i = Some x0 ->
  nth_error (notesOf v upperLine lowerLine) (i + 1) = Some x1 ->
  exists issues,
    lintCounterpoint upperLine lowerLine keyStr = Some issues
    /\ (emitsFor UnresolvedLeadingTone v i issues
        <-> (pc x0 = (tonicPC key - 1) mod 12 /\ pc x1 <> tonicPC key)%Z).
Proof.
  intros Hkey E0 E1. exists (lintOut upperLine lowerLine keyStr).
  split; [apply lintCounterpoint_run|].
  rewrite (leading_emits_iff _ _ _ key v i x0 x1) by auto.
  split; intros [Hlead Hres]; split; auto.
  - intros Ht. apply Hres. split; [exact Ht|].
    rewrite Hlead, Ht. apply tonic_above_leading.
  - intros [Ht _]. now apply Hres.
Qed.

Lemma leading_tone_any_octave_witness :
  exists issues,
    lintCounterpoint (u16 "B4 C4") (u16 "G3 G3") (u16 "C major") = Some issues
    /\ ~ emitsFor UnresolvedLeadingTone Voice.A 0 issues.
Proof.
  destruct (leading_tone_any_octave (u16 "B4 C4") (u16 "G3 G3") (u16 "C major")
                                    (mkKey 0 (u16 "major")) Voice.A 0
                                    (mkNote (u16 "B4") 71 11) (mkNote (u16 "C4") 60 0)
                                    eq_refl eq_refl eq_refl)
    as (issues & Hrun & Hiff).
  exists issues. split; [exact Hrun|].
  intros H. apply Hiff in H. destruct H as [_ H]. now apply H.
Defined.

(* ================================================================== *)
(** ** The demo of the file *)

(** The run of the demo block: its two lines in C major yield parallel
    fifths at index 1 and an unresolved leading tone in the upper voice at
    index 2. *)
Example demo_run :
  option_map (map (fun iss => (type iss, index iss, voice iss)))
             (lintCounterpoint (u16 "E4 A4 B4 A4 B4 C5 D5 C5")
                               (u16 "C3 D3 E3 F3 G3 A3 B2 C3") (u16 "C major"))
  = Some [(Parallel5ths, Some 1, None);
          (UnresolvedLeadingTone, Some 2, Some Voice.A)].
Proof. reflexivity. Qed.
